(** * Web Song Maker: playback scheduler, tone synthesizer and note utilities

    A shallow embedding of the step sequencer of the Web Song Maker:
    - [js/utilities.js]: [isNumberInRange], [noteToFrequency],
      [calculateNoteDuration];
    - [js/audio.js]: [ensureAudioContext], [playNote], [highlightColumn];
    - [js/config.js]: [ALL_NOTES];
    - the modular controller ([getColumnDurationMs], [playbackStep],
      [startPlayback], [stopPlayback], [togglePlayback]);
    - the single-file script that preceded it (module [Legacy]), which is
      where the tempo [change] listener lives.

    Conventions of the embedding.
    - A JavaScript string is a [string]; each [ascii] stands for one code
      unit, so only code units below 256 are covered.
    - An integer-valued JavaScript number is a [Z]; where the source can
      produce [NaN] the type is [option Z] and [None] is [NaN].
    - The arithmetic of [calculateNoteDuration] is IEEE-754 binary64, which
      is what a JavaScript number is: it is modelled bit for bit with the
      kernel's primitive floats.
    - [Math.pow] is only specified up to an implementation-chosen
      approximation, so a frequency is kept as the real number it
      approximates ([option R], [None] is [NaN]).
    - Code that mutates [appState], the DOM, the timer queue or the console
      is a computation in the monad [M]: a function from a [World] to a
      completion (normal or thrown) and the world it leaves behind, so that
      whatever was mutated before a [throw] stays mutated. *)

From Stdlib Require Import ZArith Lia List String Ascii Bool Floats Reals Lra.
From Stdlib Require Import DecimalString.
From stdpp Require Import base list.
Import ListNotations.

Local Open Scope string_scope.
Local Open Scope list_scope.
Local Open Scope Z_scope.

(** ** JavaScript values and completions *)

(** The primitive values a note name can be at run time: the array
    [appState.notes] comes from a literal or from [JSON.parse]. *)
Inductive JsValue : Type :=
| JsUndefined
| JsNull
| JsBoolean (b : bool)
| JsNumber (n : Z)
| JsString (s : string).

Inductive JsError : Type :=
| Error (message : string)
| TypeError (message : string)
| RangeError (message : string).

Inductive Completion (A : Type) : Type :=
| Normal (a : A)
| Throw (e : JsError).
Arguments Normal {A} a.
Arguments Throw {A} e.

(** [ToBoolean] *)
Definition toBoolean (v : JsValue) : bool :=
  match v with
  | JsUndefined | JsNull => false
  | JsBoolean b => b
  | JsNumber n => negb (n =? 0)
  | JsString s => negb (String.eqb s "")
  end.

Definition typeof (v : JsValue) : string :=
  match v with
  | JsUndefined => "undefined"
  | JsNull => "object"
  | JsBoolean _ => "boolean"
  | JsNumber _ => "number"
  | JsString _ => "string"
  end.

(** [ToString], as a template literal applies it. *)
Definition toString (v : JsValue) : string :=
  match v with
  | JsUndefined => "undefined"
  | JsNull => "null"
  | JsBoolean true => "true"
  | JsBoolean false => "false"
  | JsNumber n => NilZero.string_of_int (Z.to_int n)
  | JsString s => s
  end.

(** ** String built-ins *)

(** [String.prototype.slice(start, end)]; [end_ = None] is an omitted
    argument. Negative positions count from the end. *)
Definition slice (s : string) (start : Z) (end_ : option Z) : string :=
  let len := Z.of_nat (String.length s) in
  let from := if start <? 0 then Z.max (len + start) 0 else Z.min start len in
  let relEnd := match end_ with Some e => e | None => len end in
  let to := if relEnd <? 0 then Z.max (len + relEnd) 0 else Z.min relEnd len in
  substring (Z.to_nat from) (Z.to_nat (Z.max (to - from) 0)) s.

Definition isStrWhiteSpaceChar (c : ascii) : bool :=
  let n := Z.of_nat (nat_of_ascii c) in
  ((9 <=? n) && (n <=? 13)) || (n =? 32) || (n =? 160).

Fixpoint trimStart (s : string) : string :=
  match s with
  | String c s' => if isStrWhiteSpaceChar c then trimStart s' else s
  | EmptyString => EmptyString
  end.

(** The value of a character as a digit, in any radix up to 36. *)
Definition digitValue (c : ascii) : option Z :=
  let n := Z.of_nat (nat_of_ascii c) in
  if (48 <=? n) && (n <=? 57) then Some (n - 48)
  else if (97 <=? n) && (n <=? 122) then Some (n - 87)
  else if (65 <=? n) && (n <=? 90) then Some (n - 55)
  else None.

(** The longest prefix of radix-[radix] digits, as a number; [acc] is [None]
    until a first digit has been read. *)
Fixpoint parseDigits (radix : Z) (s : string) (acc : option Z) : option Z :=
  match s with
  | String c s' =>
      match digitValue c with
      | Some d =>
          if d <? radix
          then parseDigits radix s'
                 (Some (match acc with Some a => a | None => 0 end * radix + d))
          else acc
      | None => acc
      end
  | EmptyString => acc
  end.

(** [parseInt(input)] with no radix argument: leading white space, a sign,
    a [0x] prefix that switches to radix 16, then digits. [None] is [NaN]. *)
Definition parseInt (input : string) : option Z :=
  let s := trimStart input in
  let '(sign, s) :=
    match s with
    | String "-" s' => (-1, s')
    | String "+" s' => (1, s')
    | _ => (1, s)
    end in
  let '(radix, s) :=
    match s with
    | String "0" (String "x" s') => (16, s')
    | String "0" (String "X" s') => (16, s')
    | _ => (10, s)
    end in
  option_map (Z.mul sign) (parseDigits radix s None).

(** ** Numbers *)

(** The binary64 value of an integer: the nearest one, ties to even, and
    an infinity from 2^1024 on. *)
Definition floatOfZ (z : Z) : float :=
  SF2Prim (binary_normalize 53 1024 z 0 false).

(** The number [parseInt] returns, as a binary64. *)
Definition toNumber (n : option Z) : float :=
  match n with
  | Some z => floatOfZ z
  | None => PrimFloat.nan
  end.

(** ** js/utilities.js *)

(** [isNumberInRange(value, min, max)], on a value that is already a
    number. *)
Definition isNumberInRange (value min max : float) : bool :=
  let num := value in
  negb (PrimFloat.is_nan num) && PrimFloat.leb min num && PrimFloat.leb num max.

(** The literal [noteMap] of [noteToFrequency]. *)
Definition noteMap : list (string * Z) :=
  [("C", 0); ("C#", 1); ("D", 2); ("D#", 3); ("E", 4); ("F", 5);
   ("F#", 6); ("G", 7); ("G#", 8); ("A", 9); ("A#", 10); ("B", 11)].

(** What an object literal inherits from [Object.prototype]: the [in]
    operator walks the prototype chain. *)
Definition objectPrototypeKeys : list string :=
  ["constructor"; "hasOwnProperty"; "isPrototypeOf"; "propertyIsEnumerable";
   "toLocaleString"; "toString"; "valueOf"; "__proto__";
   "__defineGetter__"; "__defineSetter__"; "__lookupGetter__";
   "__lookupSetter__"].

Fixpoint ownProperty (key : string) (o : list (string * Z)) : option Z :=
  match o with
  | (k, v) :: o' => if String.eqb key k then Some v else ownProperty key o'
  | [] => None
  end.

(** [key in o] *)
Definition hasProperty (key : string) (o : list (string * Z)) : bool :=
  match ownProperty key o with
  | Some _ => true
  | None => existsb (String.eqb key) objectPrototypeKeys
  end.

(** [Object.keys(o).join(sep)] *)
Fixpoint joinKeys (sep : string) (o : list (string * Z)) : string :=
  match o with
  | [] => ""
  | [(k, _)] => k
  | (k, _) :: o' => (k ++ sep ++ joinKeys sep o')%string
  end.

(** Lines 376 to 414 of [noteToFrequency]: the checks and the count of
    semitones from A4. An inherited property is a function or an object, and
    arithmetic on it gives [NaN]. *)
Definition noteSemitones (noteName : JsValue) : Completion (option Z) :=
  match noteName with
  | JsString s =>
      if negb (toBoolean noteName) || negb (String.eqb (typeof noteName) "string")
      then Throw (Error "Invalid note name: must be a non-empty string")
      else
        let note := slice s 0 (Some (-1)) in
        let octaveStr := slice s (-1) None in
        let octave := parseInt octaveStr in
        if negb (hasProperty note noteMap)
        then Throw (Error ("Invalid note name: " ++ note ++ ". Must be one of: "
                           ++ joinKeys ", " noteMap)%string)
        else
          match octave with
          | None =>
              Throw (Error ("Invalid octave: " ++ octaveStr
                            ++ ". Must be a number between 0 and 8")%string)
          | Some oct =>
              if (oct <? 0) || (oct >? 8)
              then Throw (Error ("Invalid octave: " ++ octaveStr
                                 ++ ". Must be a number between 0 and 8")%string)
              else
                match ownProperty note noteMap, ownProperty "A" noteMap with
                | Some n, Some a => Normal (Some ((oct - 4) * 12 + n - a))
                | _, _ => Normal None
                end
          end
  | _ => Throw (Error "Invalid note name: must be a non-empty string")
  end.

(** Line 415: [440 * Math.pow(2, semitones / 12)], as the real number the
    expression denotes. The source returns a binary64 value near it, so of
    these values only what rounding keeps is stated: which names have a
    frequency, its sign and the order of two frequencies. *)
Definition frequencyOfSemitones (semitones : option Z) : option R :=
  match semitones with
  | Some st => Some (440 * Rpower 2 (IZR st / 12))%R
  | None => None
  end.

Definition noteToFrequency (noteName : JsValue) : Completion (option R) :=
  match noteSemitones noteName with
  | Normal semitones => Normal (frequencyOfSemitones semitones)
  | Throw e => Throw e
  end.

(** [calculateNoteDuration(bpm, subdivision)] *)
Definition calculateNoteDuration (bpm subdivision : float) : Completion float :=
  if negb (isNumberInRange bpm 1 1000)
  then Throw (Error "BPM must be a positive number")
  else Normal (((60 / bpm) * 1000) / subdivision)%float.

(** ** js/config.js and js/constants.js *)

Definition ALL_NOTES : list string :=
  ["C8";
   "B7"; "A#7"; "A7"; "G#7"; "G7"; "F#7"; "F7"; "E7"; "D#7"; "D7"; "C#7"; "C7";
   "B6"; "A#6"; "A6"; "G#6"; "G6"; "F#6"; "F6"; "E6"; "D#6"; "D6"; "C#6"; "C6";
   "B5"; "A#5"; "A5"; "G#5"; "G5"; "F#5"; "F5"; "E5"; "D#5"; "D5"; "C#5"; "C5";
   "B4"; "A#4"; "A4"; "G#4"; "G4"; "F#4"; "F4"; "E4"; "D#4"; "D4"; "C#4"; "C4";
   "B3"; "A#3"; "A3"; "G#3"; "G3"; "F#3"; "F3"; "E3"; "D#3"; "D3"; "C#3"; "C3";
   "B2"; "A#2"; "A2"; "G#2"; "G2"; "F#2"; "F2"; "E2"; "D#2"; "D2"; "C#2"; "C2";
   "B1"; "A#1"; "A1"; "G#1"; "G1"; "F#1"; "F1"; "E1"; "D#1"; "D1"; "C#1"; "C1";
   "B0"; "A#0"; "A0"].

Definition DEFAULT_COLS : Z := 16.
Definition DEFAULT_NOTES : list string :=
  ["C4"; "B3"; "A3"; "G3"; "F3"; "E3"; "D3"; "C3"].

Module GRID_LIMITS.
Definition MIN_COLUMNS : Z := 4.
Definition MAX_COLUMNS : Z := 32.
End GRID_LIMITS.

#[local] Set Warnings "-inexact-float".

Module AUDIO_CONFIG.
Definition ENVELOPE_ATTACK : float := 0.01%float.
Definition ENVELOPE_DECAY : float := 0.3%float.
Definition ENVELOPE_SUSTAIN : float := 0.3%float.
Definition NOTE_SUBDIVISION : float := 4%float.
End AUDIO_CONFIG.

Example parseInt_120 : parseInt "120" = Some 120.
Proof. reflexivity. Qed.
Example parseInt_junk : parseInt " -0x1fz" = Some (-31) /\ parseInt "bpm" = None.
Proof. split; reflexivity. Qed.
Example slice_Fsharp3 : slice "F#3" 0 (Some (-1)) = "F#" /\ slice "F#3" (-1) None = "3".
Proof. split; reflexivity. Qed.
Example semitones_C4 : noteSemitones (JsString "C4") = Normal (Some (-9)).
Proof. reflexivity. Qed.
Example semitones_toString4 : noteSemitones (JsString "toString4") = Normal None.
Proof. reflexivity. Qed.
Example duration_120 : calculateNoteDuration 120 4 = Normal 125%float.
Proof. vm_compute. reflexivity. Qed.

(** ** The monad of effectful code *)

Section Monad.
Context {S : Type}.

Definition M (A : Type) : Type := S -> Completion A * S.

Definition ret {A} (a : A) : M A := fun s => (Normal a, s).

Definition bind {A B} (c : M A) (k : A -> M B) : M B :=
  fun s =>
    match c s with
    | (Normal a, s') => k a s'
    | (Throw e, s') => (Throw e, s')
    end.

Definition throw {A} (e : JsError) : M A := fun s => (Throw e, s).

Definition get : M S := fun s => (Normal s, s).

Definition modify (f : S -> S) : M unit := fun s => (Normal tt, f s).

(** A pure computation that may throw. *)
Definition liftC {A} (c : Completion A) : M A := fun s => (c, s).

(** [try { body } catch (error) { handler }] *)
Definition tryCatch {A} (body : M A) (handler : JsError -> M A) : M A :=
  fun s =>
    match body s with
    | (Normal a, s') => (Normal a, s')
    | (Throw e, s') => handler e s'
    end.

(** A [for] loop over the values its counter takes. *)
Fixpoint forEach {A} (l : list A) (body : A -> M unit) : M unit :=
  match l with
  | [] => ret tt
  | x :: l' => bind (body x) (fun _ => forEach l' body)
  end.
End Monad.
Arguments M S A : clear implicits.

Notation "x <- c1 ;; c2" := (bind c1 (fun x => c2))
  (at level 100, c1 at next level, right associativity).
Notation "c1 ;; c2" := (bind c1 (fun _ => c2))
  (at level 100, right associativity).

(** [array[i]] for a number [i]: [None] is [undefined]. *)
Definition arrayGet {A} (l : list A) (i : Z) : option A :=
  if i <? 0 then None else l !! Z.to_nat i.

(** The values of [c] in [for (let c = 0; c < n; c++)]. *)
Definition upTo (n : Z) : list Z := map Z.of_nat (seq 0 (Z.to_nat n)).

Definition showZ (n : Z) : string := NilZero.string_of_int (Z.to_int n).

(** ** The world the controller runs in *)

(** An element of the grid or of the ruler; of its [classList] only the two
    classes the sequencer toggles are kept. *)
Record Element : Type := mkElement {
  active : bool;        (* CSS_CLASSES.CELL_ACTIVE *)
  playing_col : bool    (* CSS_CLASSES.CELL_PLAYING, "playing-col" *)
}.

Inductive AudioContextState : Type := suspended | running.

(** A pending [setTimeout(playbackStep, delay)]. *)
Record Timer : Type := mkTimer {
  handle : nat;
  delay : float
}.

(** One oscillator with its envelope, as [playNote] schedules it. *)
Record ScheduledVoice : Type := mkVoice {
  frequency : R;
  waveType : string;
  startTime : float;
  attackEnd : float;
  decayEnd : float;
  stopTime : float
}.

(** What leaves the sequencer: console output, notifications and voices. *)
Inductive Event : Type :=
| ConsoleError (label : string) (error : JsError)
| ConsoleWarn (message : string)
| ShowNotification (message : string) (type : string)
| Voice (v : ScheduledVoice).

(** [appState], the controls and the module variables of [audio.js], once
    [main] has rendered the grid. *)
#[projections(primitive)]
Record World : Type := mkWorld {
  (* appState *)
  isPlaying : bool;
  currentColumn : Z;
  timerId : option nat;
  cols : Z;
  notes : list JsValue;
  gridState : list (list bool);
  gridInner : list Element;     (* appState.gridRefs.gridInner.children *)
  ruler : list Element;         (* appState.gridRefs.ruler.children *)
  (* controls *)
  tempoInput : string;          (* tempoInput.value *)
  waveSelect : string;          (* waveSelect.value *)
  playButton : string;          (* playButton.textContent *)
  (* audio.js *)
  audioContext : option AudioContextState;
  volumeNode : option float;    (* volumeNode.gain.value *)
  (* the host *)
  newContextState : AudioContextState;  (* how a new AudioContext starts *)
  currentTime : float;          (* audioContext.currentTime *)
  timers : list Timer;
  nextTimerId : nat;
  log : list Event
}.

Definition set_isPlaying (x : bool) (w : World) : World :=
  mkWorld x (currentColumn w) (timerId w) (cols w) (notes w) (gridState w)
    (gridInner w) (ruler w) (tempoInput w) (waveSelect w) (playButton w)
    (audioContext w) (volumeNode w) (newContextState w) (currentTime w)
    (timers w) (nextTimerId w) (log w).
Definition set_currentColumn (x : Z) (w : World) : World :=
  mkWorld (isPlaying w) x (timerId w) (cols w) (notes w) (gridState w)
    (gridInner w) (ruler w) (tempoInput w) (waveSelect w) (playButton w)
    (audioContext w) (volumeNode w) (newContextState w) (currentTime w)
    (timers w) (nextTimerId w) (log w).
Definition set_timerId (x : option nat) (w : World) : World :=
  mkWorld (isPlaying w) (currentColumn w) x (cols w) (notes w) (gridState w)
    (gridInner w) (ruler w) (tempoInput w) (waveSelect w) (playButton w)
    (audioContext w) (volumeNode w) (newContextState w) (currentTime w)
    (timers w) (nextTimerId w) (log w).
Definition set_gridState (x : list (list bool)) (w : World) : World :=
  mkWorld (isPlaying w) (currentColumn w) (timerId w) (cols w) (notes w) x
    (gridInner w) (ruler w) (tempoInput w) (waveSelect w) (playButton w)
    (audioContext w) (volumeNode w) (newContextState w) (currentTime w)
    (timers w) (nextTimerId w) (log w).
Definition set_gridInner (x : list Element) (w : World) : World :=
  mkWorld (isPlaying w) (currentColumn w) (timerId w) (cols w) (notes w)
    (gridState w) x (ruler w) (tempoInput w) (waveSelect w) (playButton w)
    (audioContext w) (volumeNode w) (newContextState w) (currentTime w)
    (timers w) (nextTimerId w) (log w).
Definition set_ruler (x : list Element) (w : World) : World :=
  mkWorld (isPlaying w) (currentColumn w) (timerId w) (cols w) (notes w)
    (gridState w) (gridInner w) x (tempoInput w) (waveSelect w) (playButton w)
    (audioContext w) (volumeNode w) (newContextState w) (currentTime w)
    (timers w) (nextTimerId w) (log w).
Definition set_tempoInput (x : string) (w : World) : World :=
  mkWorld (isPlaying w) (currentColumn w) (timerId w) (cols w) (notes w)
    (gridState w) (gridInner w) (ruler w) x (waveSelect w) (playButton w)
    (audioContext w) (volumeNode w) (newContextState w) (currentTime w)
    (timers w) (nextTimerId w) (log w).
Definition set_playButton (x : string) (w : World) : World :=
  mkWorld (isPlaying w) (currentColumn w) (timerId w) (cols w) (notes w)
    (gridState w) (gridInner w) (ruler w) (tempoInput w) (waveSelect w) x
    (audioContext w) (volumeNode w) (newContextState w) (currentTime w)
    (timers w) (nextTimerId w) (log w).
Definition set_audioContext (x : option AudioContextState) (w : World) : World :=
  mkWorld (isPlaying w) (currentColumn w) (timerId w) (cols w) (notes w)
    (gridState w) (gridInner w) (ruler w) (tempoInput w) (waveSelect w)
    (playButton w) x (volumeNode w) (newContextState w) (currentTime w)
    (timers w) (nextTimerId w) (log w).
Definition set_volumeNode (x : option float) (w : World) : World :=
  mkWorld (isPlaying w) (currentColumn w) (timerId w) (cols w) (notes w)
    (gridState w) (gridInner w) (ruler w) (tempoInput w) (waveSelect w)
    (playButton w) (audioContext w) x (newContextState w) (currentTime w)
    (timers w) (nextTimerId w) (log w).
Definition set_currentTime (x : float) (w : World) : World :=
  mkWorld (isPlaying w) (currentColumn w) (timerId w) (cols w) (notes w)
    (gridState w) (gridInner w) (ruler w) (tempoInput w) (waveSelect w)
    (playButton w) (audioContext w) (volumeNode w) (newContextState w) x
    (timers w) (nextTimerId w) (log w).
Definition set_timers (x : list Timer) (w : World) : World :=
  mkWorld (isPlaying w) (currentColumn w) (timerId w) (cols w) (notes w)
    (gridState w) (gridInner w) (ruler w) (tempoInput w) (waveSelect w)
    (playButton w) (audioContext w) (volumeNode w) (newContextState w)
    (currentTime w) x (nextTimerId w) (log w).
Definition set_nextTimerId (x : nat) (w : World) : World :=
  mkWorld (isPlaying w) (currentColumn w) (timerId w) (cols w) (notes w)
    (gridState w) (gridInner w) (ruler w) (tempoInput w) (waveSelect w)
    (playButton w) (audioContext w) (volumeNode w) (newContextState w)
    (currentTime w) (timers w) x (log w).
Definition set_log (x : list Event) (w : World) : World :=
  mkWorld (isPlaying w) (currentColumn w) (timerId w) (cols w) (notes w)
    (gridState w) (gridInner w) (ruler w) (tempoInput w) (waveSelect w)
    (playButton w) (audioContext w) (volumeNode w) (newContextState w)
    (currentTime w) (timers w) (nextTimerId w) x.

(** ** The host: console, notifications, timers *)

Definition emit (e : Event) : M World unit :=
  modify (fun w => set_log (log w ++ [e]) w).

Definition consoleError (label : string) (error : JsError) : M World unit :=
  emit (ConsoleError label error).

Definition consoleWarn (message : string) : M World unit :=
  emit (ConsoleWarn message).

(** A call of [showNotification(message, type)]. Its body builds the toast
    inside a [try] of its own and returns normally; the toast itself is not
    modelled. *)
Definition showNotification (message type : string) : M World unit :=
  emit (ShowNotification message type).

(** [setTimeout(playbackStep, ms)]: the callback is always [playbackStep]. *)
Definition setTimeout (ms : float) : M World nat :=
  w <- get ;;
  let id := nextTimerId w in
  modify (fun w => set_nextTimerId (S id) (set_timers (timers w ++ [mkTimer id ms]) w)) ;;
  ret id.

(** [clearTimeout(id)]; [None] is [null]. *)
Definition clearTimeout (id : option nat) : M World unit :=
  match id with
  | None => ret tt
  | Some i =>
      modify (fun w =>
        set_timers (filter (fun t => handle t <> i) (timers w)) w)
  end.

(** ** js/audio.js *)

(** [ensureAudioContext()]: creates the context and the master volume node
    on first use, resumes a suspended context. *)
Definition ensureAudioContext : M World unit :=
  w <- get ;;
  (match audioContext w with
   | None =>
       modify (set_audioContext (Some (newContextState w))) ;;
       modify (set_volumeNode (Some 0.5%float))
   | Some _ => ret tt
   end) ;;
  w <- get ;;
  match audioContext w with
  | Some suspended => modify (set_audioContext (Some running))
  | _ => ret tt
  end.

(** [playNote(noteName, startTime, waveType)]. The audio graph is kept as the
    voice it schedules; of the Web Audio calls only
    [frequency.setValueAtTime], which rejects a value that is not finite, and
    [connect], which rejects a missing destination, can throw here. *)
Definition playNote (noteName : JsValue) (startTime : float) (waveType : string)
  : M World unit :=
  tryCatch
    (w <- get ;;
     match audioContext w with
     | None => throw (Error "Audio context not initialized")
     | Some _ =>
         frequency <- liftC (noteToFrequency noteName) ;;
         match frequency with
         | None =>
             throw (TypeError "The provided float value is non-finite")
         | Some hz =>
             match volumeNode w with
             | None => throw (TypeError "parameter 1 is not of type 'AudioNode'")
             | Some _ =>
                 emit (Voice (mkVoice hz waveType startTime
                                (startTime + AUDIO_CONFIG.ENVELOPE_ATTACK)%float
                                (startTime + AUDIO_CONFIG.ENVELOPE_DECAY)%float
                                (startTime + AUDIO_CONFIG.ENVELOPE_DECAY)%float))
             end
         end
     end)
    (fun error =>
       consoleError "Failed to play note:" error ;;
       showNotification ("Failed to play note " ++ toString noteName)%string "error").

Definition setPlayingCol (highlight : bool) (e : Element) : Element :=
  mkElement (active e) highlight.

(** [highlightColumn(col, highlight, gridInner, ruler)], called with the
    grid and the ruler of [appState.gridRefs]. [children[i]] of a missing
    index is [undefined] and is skipped, which is what [alter] does. *)
Definition highlightColumn (col : Z) (highlight : bool) : M World unit :=
  tryCatch
    (if col <? 0
     then throw (Error "Column index must be a non-negative number")
     else
       w <- get ;;
       let cellsPerRow := Z.of_nat (length (ruler w)) in
       let totalRows := Z.of_nat (length (gridInner w)) / cellsPerRow in
       if col >=? cellsPerRow
       then consoleWarn ("Column index " ++ showZ col ++ " exceeds grid width "
                         ++ showZ cellsPerRow)%string
       else
         forEach (upTo totalRows) (fun row =>
           let cellIndex := row * cellsPerRow + col in
           modify (fun w =>
             set_gridInner
               (alter (setPlayingCol highlight) (Z.to_nat cellIndex) (gridInner w)) w)) ;;
         modify (fun w =>
           set_ruler (alter (setPlayingCol highlight) (Z.to_nat col) (ruler w)) w))
    (fun error => consoleError "Failed to highlight column:" error).

(** ** The controller *)

(** [getColumnDurationMs()] *)
Definition getColumnDurationMs : M World float :=
  w <- get ;;
  let bpm := parseInt (tempoInput w) in
  liftC (calculateNoteDuration (toNumber bpm) AUDIO_CONFIG.NOTE_SUBDIVISION).

(** [playbackStep()]. [appState.gridState[row]] of a missing row is
    [undefined], and reading a column of it is a [TypeError]. [%] is the
    remainder that takes the sign of the dividend; [appState.cols] is never
    0 (a grid has 4 to 32 columns). *)
Definition playbackStep : M World unit :=
  w <- get ;;
  if negb (isPlaying w) then ret tt
  else
    ensureAudioContext ;;
    w <- get ;;
    let now := currentTime w in
    let waveForm := waveSelect w in
    forEach (seq 0 (length (notes w))) (fun row =>
      w <- get ;;
      match gridState w !! row with
      | None => throw (TypeError "Cannot read properties of undefined")
      | Some cells =>
          match arrayGet cells (currentColumn w) with
          | Some true =>
              playNote (default JsUndefined (notes w !! row)) now waveForm
          | _ => ret tt
          end
      end) ;;
    w <- get ;;
    let prevColumn := Z.rem (currentColumn w - 1 + cols w) (cols w) in
    highlightColumn prevColumn false ;;
    w <- get ;;
    highlightColumn (currentColumn w) true ;;
    w <- get ;;
    modify (set_currentColumn (Z.rem (currentColumn w + 1) (cols w))) ;;
    ms <- getColumnDurationMs ;;
    id <- setTimeout ms ;;
    modify (set_timerId (Some id)).

(** [startPlayback()] *)
Definition startPlayback : M World unit :=
  w <- get ;;
  if isPlaying w then ret tt
  else
    modify (set_isPlaying true) ;;
    ensureAudioContext ;;
    modify (set_playButton "Stop") ;;
    modify (set_currentColumn 0) ;;
    playbackStep.

(** [stopPlayback()] *)
Definition stopPlayback : M World unit :=
  w <- get ;;
  if negb (isPlaying w) then ret tt
  else
    modify (set_isPlaying false) ;;
    w <- get ;;
    clearTimeout (timerId w) ;;
    modify (set_playButton "Play") ;;
    w <- get ;;
    forEach (upTo (cols w)) (fun c => highlightColumn c false).

(** [togglePlayback()] *)
Definition togglePlayback : M World unit :=
  w <- get ;;
  if isPlaying w then stopPlayback else startPlayback.

(** The world a computation leaves, and how it completed. *)
Definition exec {S A} (c : M S A) (s : S) : S := snd (c s).
Definition completion {S A} (c : M S A) (s : S) : Completion A := fst (c s).

(** ** How the operations act on the world *)

Ltac unfold_monad :=
  unfold consoleError, consoleWarn, showNotification in *;
  unfold emit, liftC, tryCatch, bind, ret, get, modify, throw in *.

Lemma forEach_modify {S A} (f : A -> S -> S) (l : list A) (s : S) :
  forEach l (fun x => modify (f x)) s = (Normal tt, fold_left (fun s x => f x s) l s).
Proof.
  revert s; induction l as [|x l IH]; intros s; simpl; [reflexivity|].
  unfold bind, modify at 1. apply IH.
Qed.

(** What [playNote] writes: one voice, or the report of its failure. *)
Definition playNoteFailure (noteName : JsValue) (e : JsError) : list Event :=
  [ConsoleError "Failed to play note:" e;
   ShowNotification ("Failed to play note " ++ toString noteName)%string "error"].

Definition playNoteEvents (noteName : JsValue) (startTime : float)
    (waveType : string) (w : World) : list Event :=
  match audioContext w with
  | None => playNoteFailure noteName (Error "Audio context not initialized")
  | Some _ =>
      match noteToFrequency noteName with
      | Throw e => playNoteFailure noteName e
      | Normal None =>
          playNoteFailure noteName (TypeError "The provided float value is non-finite")
      | Normal (Some hz) =>
          match volumeNode w with
          | None =>
              playNoteFailure noteName (TypeError "parameter 1 is not of type 'AudioNode'")
          | Some _ =>
              [Voice (mkVoice hz waveType startTime
                        (startTime + AUDIO_CONFIG.ENVELOPE_ATTACK)%float
                        (startTime + AUDIO_CONFIG.ENVELOPE_DECAY)%float
                        (startTime + AUDIO_CONFIG.ENVELOPE_DECAY)%float)]
          end
      end
  end.

Lemma app_assoc2 {A} (l : list A) (x y : A) : (l ++ [x]) ++ [y] = l ++ [x; y].
Proof. rewrite <- app_assoc. reflexivity. Qed.

(** [playNote] never throws and only writes to the log. *)
Lemma playNote_eq noteName startTime waveType (w : World) :
  playNote noteName startTime waveType w
  = (Normal tt, set_log (log w ++ playNoteEvents noteName startTime waveType w) w).
Proof.
  unfold playNote, playNoteEvents, playNoteFailure. unfold_monad.
  destruct (audioContext w); simpl; [|rewrite app_assoc2; reflexivity].
  destruct (noteToFrequency noteName) as [[hz|]|e]; simpl;
    try (rewrite app_assoc2; reflexivity).
  destruct (volumeNode w); simpl; [reflexivity|rewrite app_assoc2; reflexivity].
Qed.

(** The grid and the ruler after [highlightColumn(col, highlight)]. *)
Definition highlightedGrid (col : Z) (highlight : bool) (w : World) : list Element :=
  let cellsPerRow := Z.of_nat (length (ruler w)) in
  let totalRows := Z.of_nat (length (gridInner w)) / cellsPerRow in
  if (col <? 0) || (col >=? cellsPerRow) then gridInner w
  else
    fold_left
      (fun cells row =>
         alter (setPlayingCol highlight) (Z.to_nat (row * cellsPerRow + col)) cells)
      (upTo totalRows) (gridInner w).

Definition highlightedRuler (col : Z) (highlight : bool) (w : World) : list Element :=
  if (col <? 0) || (col >=? Z.of_nat (length (ruler w))) then ruler w
  else alter (setPlayingCol highlight) (Z.to_nat col) (ruler w).

Definition highlightEvents (col : Z) (w : World) : list Event :=
  if col <? 0
  then [ConsoleError "Failed to highlight column:"
          (Error "Column index must be a non-negative number")]
  else if col >=? Z.of_nat (length (ruler w))
  then [ConsoleWarn ("Column index " ++ showZ col ++ " exceeds grid width "
                     ++ showZ (Z.of_nat (length (ruler w))))%string]
  else [].

Lemma fold_left_set_gridInner (f : Z -> list Element -> list Element) l (w : World) :
  fold_left (fun w row => set_gridInner (f row (gridInner w)) w) l w
  = set_gridInner (fold_left (fun cells row => f row cells) l (gridInner w)) w.
Proof.
  revert w; induction l as [|x l IH]; intros w; simpl.
  - destruct w; reflexivity.
  - rewrite IH. reflexivity.
Qed.

(** [highlightColumn] never throws; it writes to the grid, the ruler and
    the log only. *)
Lemma highlightColumn_eq col highlight (w : World) :
  highlightColumn col highlight w
  = (Normal tt,
     set_log (log w ++ highlightEvents col w)
       (set_ruler (highlightedRuler col highlight w)
          (set_gridInner (highlightedGrid col highlight w) w))).
Proof.
  unfold highlightColumn, highlightedGrid, highlightedRuler, highlightEvents.
  unfold tryCatch.
  destruct (col <? 0) eqn:Hneg; simpl.
  - unfold_monad. simpl. destruct w; reflexivity.
  - unfold bind at 1. unfold get at 1.
    destruct (col >=? Z.of_nat (length (ruler w))) eqn:Hge.
    + unfold_monad. simpl. destruct w; reflexivity.
    + unfold bind at 1.
      rewrite (forEach_modify
        (fun row w0 => set_gridInner
           (alter (setPlayingCol highlight)
              (Z.to_nat (row * Z.of_nat (length (ruler w)) + col)) (gridInner w0)) w0)).
      rewrite (fold_left_set_gridInner
        (fun row cells => alter (setPlayingCol highlight)
              (Z.to_nat (row * Z.of_nat (length (ruler w)) + col)) cells)).
      unfold modify. simpl. rewrite app_nil_r. destruct w; reflexivity.
Qed.

(** The context and the volume node after [ensureAudioContext()]. *)
Definition ensuredContext (w : World) : option AudioContextState :=
  Some running.

Definition ensuredVolume (w : World) : option float :=
  match audioContext w with
  | None => Some 0.5%float
  | Some _ => volumeNode w
  end.

Lemma ensureAudioContext_eq (w : World) :
  ensureAudioContext w
  = (Normal tt, set_volumeNode (ensuredVolume w) (set_audioContext (Some running) w)).
Proof.
  unfold ensureAudioContext, ensuredVolume. unfold_monad.
  destruct w as [p c t co n gs gi r ti ws pb ac vn ncs ct tm nt lg]; simpl.
  destruct ac as [[|]|]; simpl; try reflexivity.
  destruct ncs; reflexivity.
Qed.

(** The body of the loop over the rows in [playbackStep]. *)
Definition playRow (now : float) (waveForm : string) (row : nat) : M World unit :=
  w <- get ;;
  match gridState w !! row with
  | None => throw (TypeError "Cannot read properties of undefined")
  | Some cells =>
      match arrayGet cells (currentColumn w) with
      | Some true => playNote (default JsUndefined (notes w !! row)) now waveForm
      | _ => ret tt
      end
  end.

(** What the row [row] writes when the cursor is on [currentColumn w]. *)
Definition rowEvents (now : float) (waveForm : string) (w : World) (row : nat)
  : list Event :=
  match gridState w !! row with
  | Some cells =>
      match arrayGet cells (currentColumn w) with
      | Some true =>
          playNoteEvents (default JsUndefined (notes w !! row)) now waveForm w
      | _ => []
      end
  | None => []
  end.

Lemma rowEvents_set_log now waveForm l (w : World) row :
  rowEvents now waveForm (set_log l w) row = rowEvents now waveForm w row.
Proof. reflexivity. Qed.

Lemma playRows_eq now waveForm (rows : list nat) (w : World) :
  Forall (fun row => (row < length (gridState w))%nat) rows ->
  forEach rows (playRow now waveForm) w
  = (Normal tt, set_log (log w ++ flat_map (rowEvents now waveForm w) rows) w).
Proof.
  revert w; induction rows as [|row rows IH]; intros w Hrows; simpl.
  - rewrite app_nil_r. destruct w; reflexivity.
  - apply Forall_cons in Hrows as [Hrow Hrows].
    apply lookup_lt_is_Some in Hrow as [cells Hcells].
    unfold bind at 1. unfold playRow at 1. unfold bind at 1, get at 1.
    unfold rowEvents at 1. rewrite Hcells.
    assert (Hstep : forall evs,
      forEach rows (playRow now waveForm) (set_log (log w ++ evs) w)
      = (Normal tt,
         set_log (log w ++ evs ++ flat_map (rowEvents now waveForm w) rows) w)).
    { intros evs. rewrite IH by exact Hrows. simpl.
      rewrite <- app_assoc.
      rewrite (flat_map_ext _ _ (fun row => rowEvents_set_log now waveForm _ w row)) by auto.
      reflexivity. }
    destruct (arrayGet cells (currentColumn w)) as [[|]|].
    + rewrite playNote_eq. apply Hstep.
    + unfold ret. rewrite <- (Hstep []). rewrite app_nil_r.
      destruct w; reflexivity.
    + unfold ret. rewrite <- (Hstep []). rewrite app_nil_r.
      destruct w; reflexivity.
Qed.

(** The world after the notes of the current column have been played. *)
Definition afterNotes (w : World) : World :=
  let w1 := set_volumeNode (ensuredVolume w) (set_audioContext (Some running) w) in
  set_log
    (log w1 ++ flat_map (rowEvents (currentTime w) (waveSelect w) w1)
                 (seq 0 (length (notes w))))
    w1.

(** The world after one column has been highlighted or cleared. *)
Definition highlighted (col : Z) (highlight : bool) (w : World) : World :=
  set_log (log w ++ highlightEvents col w)
    (set_ruler (highlightedRuler col highlight w)
       (set_gridInner (highlightedGrid col highlight w) w)).

(** The world after the cursor has moved on, before the timer is armed. *)
Definition afterAdvance (w : World) : World :=
  let prevColumn := Z.rem (currentColumn w - 1 + cols w) (cols w) in
  set_currentColumn (Z.rem (currentColumn w + 1) (cols w))
    (highlighted (currentColumn w) true
       (highlighted prevColumn false (afterNotes w))).

(** The world after [setTimeout(playbackStep, ms)] and the store of its
    handle. *)
Definition armed (ms : float) (w : World) : World :=
  set_timerId (Some (nextTimerId w))
    (set_nextTimerId (S (nextTimerId w))
       (set_timers (timers w ++ [mkTimer (nextTimerId w) ms]) w)).

Lemma playbackStep_stopped (w : World) :
  isPlaying w = false -> playbackStep w = (Normal tt, w).
Proof.
  intros H. unfold playbackStep, bind at 1, get at 1. rewrite H. reflexivity.
Qed.

Lemma playbackStep_playing (w : World) :
  isPlaying w = true ->
  length (gridState w) = length (notes w) ->
  playbackStep w
  = match calculateNoteDuration (toNumber (parseInt (tempoInput w)))
            AUDIO_CONFIG.NOTE_SUBDIVISION with
    | Normal ms => (Normal tt, armed ms (afterAdvance w))
    | Throw e => (Throw e, afterAdvance w)
    end.
Proof.
  intros Hplay Hrows.
  unfold playbackStep, bind at 1, get at 1. rewrite Hplay.
  change (negb true) with false. cbv iota.
  unfold bind at 1. rewrite ensureAudioContext_eq.
  unfold bind at 1, get at 1.
  unfold bind at 1.
  change (forEach _ _ ?s) with
    (forEach (seq 0 (length (notes w)))
       (playRow (currentTime w) (waveSelect w)) s).
  rewrite playRows_eq.
  2:{ change (gridState _) with (gridState w). rewrite Hrows.
      apply Forall_forall. intros row Hin.
      apply elem_of_seq in Hin. lia. }
  change (set_log _ _) with (afterNotes w).
  unfold bind at 1, get at 1.
  unfold bind at 1. rewrite highlightColumn_eq.
  change (currentColumn (afterNotes w)) with (currentColumn w).
  change (cols (afterNotes w)) with (cols w).
  change (set_log _ _) with
    (highlighted (Z.rem (currentColumn w - 1 + cols w) (cols w)) false (afterNotes w)).
  unfold bind at 1, get at 1.
  unfold bind at 1. rewrite highlightColumn_eq.
  change (currentColumn (highlighted _ _ _)) with (currentColumn w).
  change (set_log _ _) with
    (highlighted (currentColumn w) true
       (highlighted (Z.rem (currentColumn w - 1 + cols w) (cols w)) false (afterNotes w))).
  unfold bind at 1, get at 1.
  unfold bind at 1, modify at 1.
  change (currentColumn (highlighted _ _ _)) with (currentColumn w).
  change (cols (highlighted _ _ _)) with (cols w).
  change (set_currentColumn _ _) with (afterAdvance w).
  unfold bind at 1. unfold getColumnDurationMs, bind at 1, get at 1, liftC.
  change (tempoInput (afterAdvance w)) with (tempoInput w).
  destruct (calculateNoteDuration _ _) as [ms|e]; [|reflexivity].
  unfold bind at 1, setTimeout, bind at 1, get at 1.
  unfold bind at 1, modify at 1, ret, modify.
  reflexivity.
Qed.

(** ** A small grid to run the definitions on *)

(** The grid as [renderGrid] builds it: one button per cell, row by row,
    none of them highlighted. *)
Definition renderedGrid (gridState : list (list bool)) : list Element :=
  flat_map (map (fun isActive => mkElement isActive false)) gridState.

Definition renderedRuler (cols : Z) : list Element :=
  map (fun _ => mkElement false false) (upTo cols).

(** Two rows by four columns at 120 BPM, stopped, audio not yet started. *)
Definition demoGridState : list (list bool) :=
  [[true; false; true; false]; [false; true; false; false]].

Definition demoWorld : World :=
  mkWorld false 0 None 4 [JsString "C4"; JsString "B3"] demoGridState
    (renderedGrid demoGridState) (renderedRuler 4)
    "120" "sine" "Play" None None running 0%float [] 1%nat [].

Example demo_start_highlights_column_0 :
  map playing_col (ruler (exec startPlayback demoWorld)) = [true; false; false; false]
  /\ map playing_col (gridInner (exec startPlayback demoWorld))
     = [true; false; false; false; true; false; false; false]
  /\ currentColumn (exec startPlayback demoWorld) = 1
  /\ timers (exec startPlayback demoWorld) = [mkTimer 1 125%float].
Proof. vm_compute. repeat split; reflexivity. Qed.

(** ** Column duration *)

Definition tempoRange : list Z := map Z.of_nat (seq 1 1000).

Lemma tempoRange_complete (bpm : Z) : 1 <= bpm <= 1000 -> In bpm tempoRange.
Proof.
  intros H. unfold tempoRange. apply in_map_iff. exists (Z.to_nat bpm).
  split; [lia|]. apply in_seq. lia.
Qed.

(** The duration the controller computes, and the one the formula
    [60000 / bpm / 4] gives, both in binary64. *)
Definition columnDurationOf (bpm : Z) : float :=
  (((60 / floatOfZ bpm) * 1000) / 4)%float.

Definition sixtyThousandOver (bpm : Z) : float :=
  (60000 / floatOfZ bpm / 4)%float.

(** Two binary64 values that are equal or neighbours. *)
Definition withinOneUlp (x y : float) : bool :=
  Leibniz.eqb x y || Leibniz.eqb x (next_up y) || Leibniz.eqb x (next_down y).

Definition tempoAccepted (bpm : Z) : bool :=
  isNumberInRange (floatOfZ bpm) 1 1000
  && withinOneUlp (columnDurationOf bpm) (sixtyThousandOver bpm).

Lemma tempoAccepted_all : forallb tempoAccepted tempoRange = true.
Proof. vm_compute. reflexivity. Qed.

Lemma tempoAccepted_range (bpm : Z) : 1 <= bpm <= 1000 -> tempoAccepted bpm = true.
Proof.
  intros H. pose proof tempoAccepted_all as Hall.
  rewrite forallb_forall in Hall. apply Hall, tempoRange_complete, H.
Qed.

Lemma calculateNoteDuration_range (bpm : Z) :
  1 <= bpm <= 1000 ->
  calculateNoteDuration (floatOfZ bpm) AUDIO_CONFIG.NOTE_SUBDIVISION
  = Normal (columnDurationOf bpm).
Proof.
  intros H. apply tempoAccepted_range in H. unfold tempoAccepted in H.
  apply andb_prop in H as [Hin _].
  unfold calculateNoteDuration. rewrite Hin. reflexivity.
Qed.

Lemma getColumnDurationMs_range (w : World) (bpm : Z) :
  parseInt (tempoInput w) = Some bpm -> 1 <= bpm <= 1000 ->
  getColumnDurationMs w = (Normal (columnDurationOf bpm), w).
Proof.
  intros Hparse Hrange. unfold getColumnDurationMs, bind, get, liftC.
  rewrite Hparse. simpl toNumber. rewrite calculateNoteDuration_range by exact Hrange.
  reflexivity.
Qed.

(** A step of a playing session whose tempo is in range. *)
Lemma playbackStep_in_tempo (w : World) (bpm : Z) :
  isPlaying w = true ->
  length (gridState w) = length (notes w) ->
  parseInt (tempoInput w) = Some bpm -> 1 <= bpm <= 1000 ->
  playbackStep w = (Normal tt, armed (columnDurationOf bpm) (afterAdvance w)).
Proof.
  intros Hplay Hrows Hparse Hrange.
  rewrite playbackStep_playing by assumption.
  rewrite Hparse. simpl toNumber.
  rewrite calculateNoteDuration_range by exact Hrange. reflexivity.
Qed.

(** The tempos from 1 to 1000 at which the controller's duration and
    [60000 / bpm / 4] are two different numbers. *)
Definition differingTempos : list Z :=
  List.filter
    (fun bpm => negb (PrimFloat.eqb (columnDurationOf bpm) (sixtyThousandOver bpm)))
    tempoRange.

(** C1 (as the code has it). For every integer tempo from 1 to 1000 read
    from the tempo control, [getColumnDurationMs] returns without throwing
    the binary64 value of [((60 / bpm) * 1000) / 4], the expression of
    [calculateNoteDuration]. That value is equal to the binary64 value of
    [60000 / bpm / 4] or is one of its two neighbours; it is 125 at 120 BPM
    and 250 at 60 BPM. Nothing of it is stored: the timer a step arms has
    the duration of the tempo the control shows when the step runs. The two
    values differ at 256 of the 1000 tempos, 11 BPM among them, and at 44
    of the tempos from 60 to 240. *)
Theorem column_duration_from_current_tempo (w : World) (bpm : Z) :
  parseInt (tempoInput w) = Some bpm ->
  1 <= bpm <= 1000 ->
  getColumnDurationMs w = (Normal (columnDurationOf bpm), w)
  /\ withinOneUlp (columnDurationOf bpm) (sixtyThousandOver bpm) = true
  /\ (bpm = 120 -> columnDurationOf bpm = 125%float)
  /\ (bpm = 60 -> columnDurationOf bpm = 250%float)
  /\ (isPlaying w = true -> length (gridState w) = length (notes w) ->
      timers (exec playbackStep w)
      = timers w ++ [mkTimer (nextTimerId w) (columnDurationOf bpm)])
  /\ length differingTempos = 256%nat
  /\ In 11 differingTempos
  /\ length (List.filter (fun t => (60 <=? t) && (t <=? 240)) differingTempos) = 44%nat.
Proof.
  intros Hparse Hrange.
  split; [|split; [|split; [|split; [|split; [|split; [|split]]]]]];
    [| | | | |vm_compute; reflexivity|vm_compute; tauto|vm_compute; reflexivity].
  - apply getColumnDurationMs_range; assumption.
  - apply tempoAccepted_range in Hrange. unfold tempoAccepted in Hrange.
    apply andb_prop in Hrange as [_ H]. exact H.
  - intros ->. vm_compute. reflexivity.
  - intros ->. vm_compute. reflexivity.
  - intros Hplay Hrows. unfold exec.
    rewrite (playbackStep_in_tempo w bpm) by assumption. reflexivity.
Qed.

Lemma column_duration_from_current_tempo_witness :
  parseInt (tempoInput demoWorld) = Some 120
  /\ 1 <= 120 <= 1000
  /\ getColumnDurationMs demoWorld = (Normal 125%float, demoWorld).
Proof.
  split; [reflexivity|]. split; [lia|].
  destruct (column_duration_from_current_tempo demoWorld 120 eq_refl ltac:(lia))
    as (Hms & _ & H120 & _).
  rewrite Hms, (H120 eq_refl). reflexivity.
Defined.

(** C1, as stated, fails at 11 BPM: the controller's duration and
    [60000 / 11 / 4] are two different binary64 values. *)
Lemma column_duration_differs_at_11_bpm :
  parseInt (tempoInput (set_tempoInput "11" demoWorld)) = Some 11
  /\ completion getColumnDurationMs (set_tempoInput "11" demoWorld)
     = Normal 1363.6363636363635%float
  /\ sixtyThousandOver 11 = 1363.6363636363637%float
  /\ completion getColumnDurationMs (set_tempoInput "11" demoWorld)
     <> Normal (sixtyThousandOver 11).
Proof.
  split; [reflexivity|]. split; [vm_compute; reflexivity|].
  split; [vm_compute; reflexivity|].
  intros H.
  apply (f_equal (fun c => match c with
                           | Normal ms => PrimFloat.eqb ms (sixtyThousandOver 11)
                           | Throw _ => false
                           end)) in H.
  vm_compute in H. discriminate H.
Qed.

(** ** Highlights *)

(** The column [c] carries the highlight when its ruler cell or one of its
    grid cells has the class [playing-col]. The grid is laid out row by row,
    so the cell of index [i] is in column [i mod cols]. *)
Definition columnHighlighted (w : World) (c : Z) : bool :=
  match arrayGet (ruler w) c with
  | Some e => playing_col e
  | None => false
  end
  || existsb (fun ie => (Z.of_nat (fst ie) mod cols w =? c) && playing_col (snd ie))
       (imap pair (gridInner w)).

Lemma columnHighlighted_true (w : World) (c : Z) :
  columnHighlighted w c = true <->
  (exists e, arrayGet (ruler w) c = Some e /\ playing_col e = true) \/
  (exists i e, gridInner w !! i = Some e /\ Z.of_nat i mod cols w = c
               /\ playing_col e = true).
Proof.
  unfold columnHighlighted. rewrite orb_true_iff, existsb_exists. split.
  - intros [H|[[i e] [Hin H]]].
    + left. destruct (arrayGet (ruler w) c) as [e|]; [|discriminate]. eauto.
    + right. apply list_elem_of_In, elem_of_lookup_imap in Hin as (j & y & Heq & Hj).
      injection Heq as -> ->. simpl in H.
      apply andb_prop in H as [Hc Hp]. apply Z.eqb_eq in Hc. eauto.
  - intros [(e & He & Hp)|(i & e & Hi & Hc & Hp)].
    + left. rewrite He. exact Hp.
    + right. exists (i, e). split.
      * apply list_elem_of_In, elem_of_lookup_imap. eauto.
      * simpl. rewrite Hp, andb_true_r. apply Z.eqb_eq, Hc.
Qed.

Lemma setPlayingCol_idemp h e : setPlayingCol h (setPlayingCol h e) = setPlayingCol h e.
Proof. reflexivity. Qed.

(** Altering a list at each index of [idxs] with an idempotent function. *)
Lemma fold_alter_lookup {A} (f : A -> A) (idxs : list nat) (l : list A) (i : nat) :
  (forall x, f (f x) = f x) ->
  fold_left (fun cells k => alter f k cells) idxs l !! i
  = if bool_decide (i ∈ idxs) then f <$> l !! i else l !! i.
Proof.
  intros Hf. revert l; induction idxs as [|k idxs IH]; intros l.
  - rewrite bool_decide_eq_false_2; [reflexivity|]. apply not_elem_of_nil.
  - cbn [fold_left]. rewrite IH. destruct (decide (i = k)) as [->|Hne].
    + rewrite list_lookup_alter_eq.
      rewrite (bool_decide_eq_true_2 (k ∈ k :: idxs)) by (apply elem_of_cons; auto).
      destruct (bool_decide (k ∈ idxs)); [|reflexivity].
      destruct (l !! k); simpl; [rewrite Hf|]; reflexivity.
    + rewrite list_lookup_alter_ne by congruence.
      destruct (decide (i ∈ idxs)) as [Hin|Hnin].
      * rewrite !bool_decide_eq_true_2; [reflexivity| |exact Hin].
        apply elem_of_cons. auto.
      * rewrite !bool_decide_eq_false_2; [reflexivity| |exact Hnin].
        intros Hin. apply elem_of_cons in Hin as [?|?]; congruence.
Qed.

Lemma fold_left_map_index {A B} (g : B -> nat) (f : A -> A) (rows : list B) (l : list A) :
  fold_left (fun cells row => alter f (g row) cells) rows l
  = fold_left (fun cells k => alter f k cells) (map g rows) l.
Proof. revert l; induction rows as [|r rows IH]; intros l; simpl; auto. Qed.

Lemma elem_of_upTo (n x : Z) : x ∈ upTo n <-> 0 <= x < n.
Proof.
  unfold upTo. rewrite list_elem_of_In, in_map_iff. split.
  - intros (k & <- & Hk). apply in_seq in Hk. lia.
  - intros H. exists (Z.to_nat x). split; [lia|]. apply in_seq. lia.
Qed.

(** The cells of column [col]: the indices [row * C + col]. *)
Lemma elem_of_column_indices (C T col : Z) (i : nat) :
  0 <= col < C ->
  i ∈ map (fun row => Z.to_nat (row * C + col)) (upTo T)
  <-> Z.of_nat i mod C = col /\ Z.of_nat i / C < T.
Proof.
  intros Hcol. rewrite list_elem_of_In, in_map_iff. split.
  - intros (row & <- & Hrow). apply list_elem_of_In, elem_of_upTo in Hrow.
    rewrite Z2Nat.id by nia. split.
    + rewrite Z.add_comm, Z_mod_plus_full. apply Z.mod_small, Hcol.
    + rewrite Z.add_comm, Z_div_plus_full by lia.
      rewrite Z.div_small by exact Hcol. lia.
  - intros [Hmod Hdiv]. exists (Z.of_nat i / C). split.
    + pose proof (Z.div_mod (Z.of_nat i) C ltac:(lia)) as Hdm.
      rewrite Hmod in Hdm. rewrite (Z.mul_comm _ C), <- Hdm. lia.
    + apply list_elem_of_In, elem_of_upTo. split; [|exact Hdiv].
      apply Z.div_pos; lia.
Qed.

(** The grid and the ruler are the ones [renderGrid] built for
    [appState.cols] columns and one row per note. *)
Record rendered (w : World) : Prop := mkRendered {
  rendered_cols : 0 < cols w;
  rendered_ruler : Z.of_nat (length (ruler w)) = cols w;
  rendered_grid :
    Z.of_nat (length (gridInner w)) = Z.of_nat (length (notes w)) * cols w
}.

Lemma length_fold_alter {A} (f : A -> A) (idxs : list nat) (l : list A) :
  length (fold_left (fun cells k => alter f k cells) idxs l) = length l.
Proof.
  revert l; induction idxs as [|k idxs IH]; intros l; simpl; [reflexivity|].
  rewrite IH. apply length_alter.
Qed.

Lemma length_highlightedGrid col h (w : World) :
  length (highlightedGrid col h w) = length (gridInner w).
Proof.
  unfold highlightedGrid. destruct (_ || _); [reflexivity|].
  rewrite fold_left_map_index. apply length_fold_alter.
Qed.

Lemma length_highlightedRuler col h (w : World) :
  length (highlightedRuler col h w) = length (ruler w).
Proof.
  unfold highlightedRuler. destruct (_ || _); [reflexivity|]. apply length_alter.
Qed.

Lemma rendered_highlighted col h (w : World) :
  rendered w -> rendered (highlighted col h w).
Proof.
  intros [Hc Hr Hg]. constructor; simpl.
  - exact Hc.
  - rewrite length_highlightedRuler. exact Hr.
  - rewrite length_highlightedGrid. exact Hg.
Qed.

Lemma column_in_range (col : Z) (w : World) :
  rendered w -> 0 <= col < cols w ->
  (col <? 0) || (col >=? Z.of_nat (length (ruler w))) = false.
Proof.
  intros [_ Hr _] Hcol. rewrite Hr. apply orb_false_iff. split; lia.
Qed.

(** Cell by cell: [highlightColumn(col, h)] sets the class on the cells of
    column [col] and leaves the others alone. *)
Lemma highlightedGrid_lookup col h (w : World) (i : nat) :
  rendered w -> 0 <= col < cols w ->
  highlightedGrid col h w !! i
  = if bool_decide (Z.of_nat i mod cols w = col)
    then setPlayingCol h <$> gridInner w !! i
    else gridInner w !! i.
Proof.
  intros Hw Hcol. unfold highlightedGrid.
  rewrite (column_in_range col w Hw Hcol).
  destruct Hw as [Hc Hr Hg]. rewrite Hr.
  rewrite (fold_left_map_index (fun row => Z.to_nat (row * cols w + col))).
  rewrite fold_alter_lookup by apply setPlayingCol_idemp.
  rewrite Hg, Z.div_mul by lia.
  destruct (decide (Z.of_nat i mod cols w = col)) as [Hmod|Hmod].
  - rewrite (bool_decide_eq_true_2 _ Hmod).
    destruct (decide (Z.of_nat i / cols w < Z.of_nat (length (notes w)))) as [Hdiv|Hdiv].
    + rewrite bool_decide_eq_true_2; [reflexivity|].
      apply elem_of_column_indices; auto.
    + rewrite bool_decide_eq_false_2.
      2:{ rewrite elem_of_column_indices by exact Hcol. tauto. }
      assert (Hlen : (length (gridInner w) <= i)%nat).
      { pose proof (Z.div_mod (Z.of_nat i) (cols w) ltac:(lia)).
        pose proof (Z.mod_pos_bound (Z.of_nat i) (cols w) Hc). nia. }
      rewrite (lookup_ge_None_2 _ _ Hlen). reflexivity.
  - rewrite (bool_decide_eq_false_2 _ Hmod).
    rewrite bool_decide_eq_false_2; [reflexivity|].
    rewrite elem_of_column_indices by exact Hcol. tauto.
Qed.

Lemma highlightedRuler_lookup col h (w : World) (i : nat) :
  rendered w -> 0 <= col < cols w ->
  highlightedRuler col h w !! i
  = if bool_decide (Z.of_nat i = col)
    then setPlayingCol h <$> ruler w !! i
    else ruler w !! i.
Proof.
  intros Hw Hcol. unfold highlightedRuler.
  rewrite (column_in_range col w Hw Hcol).
  destruct (decide (Z.of_nat i = col)) as [Heq|Hne].
  - rewrite (bool_decide_eq_true_2 _ Heq). subst col.
    rewrite Nat2Z.id. apply list_lookup_alter_eq.
  - rewrite (bool_decide_eq_false_2 _ Hne).
    apply list_lookup_alter_ne. lia.
Qed.

(** A highlighted cell after [highlightColumn(col, h)] is in column [col]
    and [h] is [true], or it was highlighted before and is in another
    column. *)
Lemma highlighted_grid_playing col h (w : World) i e :
  rendered w -> 0 <= col < cols w ->
  gridInner (highlighted col h w) !! i = Some e -> playing_col e = true ->
  (Z.of_nat i mod cols w = col /\ h = true)
  \/ (Z.of_nat i mod cols w <> col
      /\ exists e0, gridInner w !! i = Some e0 /\ playing_col e0 = true).
Proof.
  intros Hw Hcol. simpl. rewrite highlightedGrid_lookup by assumption.
  destruct (decide (Z.of_nat i mod cols w = col)) as [Hmod|Hmod].
  - rewrite (bool_decide_eq_true_2 _ Hmod).
    destruct (gridInner w !! i) as [e0|]; simpl; [|discriminate].
    intros [= <-] Hp. left. split; [exact Hmod|exact Hp].
  - rewrite (bool_decide_eq_false_2 _ Hmod). intros He Hp. right. eauto.
Qed.

Lemma highlighted_ruler_playing col h (w : World) i e :
  rendered w -> 0 <= col < cols w ->
  ruler (highlighted col h w) !! i = Some e -> playing_col e = true ->
  (Z.of_nat i = col /\ h = true)
  \/ (Z.of_nat i <> col
      /\ exists e0, ruler w !! i = Some e0 /\ playing_col e0 = true).
Proof.
  intros Hw Hcol. simpl. rewrite highlightedRuler_lookup by assumption.
  destruct (decide (Z.of_nat i = col)) as [Heq|Hne].
  - rewrite (bool_decide_eq_true_2 _ Heq).
    destruct (ruler w !! i) as [e0|]; simpl; [|discriminate].
    intros [= <-] Hp. left. split; [exact Heq|exact Hp].
  - rewrite (bool_decide_eq_false_2 _ Hne). intros He Hp. right. eauto.
Qed.

(** ** The invariant of the sequencer *)

(** What holds of every world the sequencer can be in: the grid is the
    rendered one, the cursor is a column, and a highlighted cell means that
    the session is playing and that the cell is in the column before the
    cursor. *)
Record sequencerInv (w : World) : Prop := mkInv {
  inv_cols : GRID_LIMITS.MIN_COLUMNS <= cols w <= GRID_LIMITS.MAX_COLUMNS;
  inv_ruler : Z.of_nat (length (ruler w)) = cols w;
  inv_grid : Z.of_nat (length (gridInner w)) = Z.of_nat (length (notes w)) * cols w;
  inv_rows : length (gridState w) = length (notes w);
  inv_cursor : 0 <= currentColumn w < cols w;
  inv_grid_hl : forall i e,
    gridInner w !! i = Some e -> playing_col e = true ->
    isPlaying w = true
    /\ Z.of_nat i mod cols w = (currentColumn w - 1) mod cols w;
  inv_ruler_hl : forall i e,
    ruler w !! i = Some e -> playing_col e = true ->
    isPlaying w = true /\ Z.of_nat i = (currentColumn w - 1) mod cols w
}.

Lemma inv_rendered (w : World) : sequencerInv w -> rendered w.
Proof.
  intros H. destruct (inv_cols w H) as [Hlo _].
  unfold GRID_LIMITS.MIN_COLUMNS in Hlo.
  constructor; [lia|apply inv_ruler, H|apply inv_grid, H].
Qed.

Lemma rem_prev (c C : Z) :
  0 < C -> 0 <= c < C -> Z.rem (c - 1 + C) C = (c - 1) mod C.
Proof.
  intros HC Hc. rewrite Z.rem_mod_nonneg by lia.
  replace (c - 1 + C) with (c - 1 + 1 * C) by lia. apply Z_mod_plus_full.
Qed.

Lemma rem_next (c C : Z) :
  0 < C -> 0 <= c < C -> Z.rem (c + 1) C = (c + 1) mod C.
Proof. intros HC Hc. apply Z.rem_mod_nonneg; lia. Qed.

Lemma mod_next_prev (c C : Z) :
  0 < C -> 0 <= c < C -> ((c + 1) mod C - 1) mod C = c.
Proof.
  intros HC Hc. destruct (decide (c + 1 = C)) as [Heq|Hne].
  - rewrite Heq, Z.mod_same by lia.
    replace (0 - 1) with (c + (-1) * C) by lia.
    rewrite Z_mod_plus_full. apply Z.mod_small. lia.
  - rewrite (Z.mod_small (c + 1)) by lia.
    replace (c + 1 - 1) with c by lia. apply Z.mod_small. lia.
Qed.

(** One step of a playing session keeps the invariant, whether or not the
    timer could be armed. *)
Lemma inv_afterAdvance (w : World) :
  sequencerInv w -> isPlaying w = true -> sequencerInv (afterAdvance w).
Proof.
  intros Hinv Hplay.
  pose proof (inv_rendered w Hinv) as Hw.
  destruct Hinv as [Hcols Hr Hg Hrows Hcur Hgh Hrh].
  assert (HC : 0 < cols w) by (apply rendered_cols, Hw).
  set (c := currentColumn w) in *. set (C := cols w) in *.
  assert (Hprev : Z.rem (c - 1 + C) C = (c - 1) mod C) by (apply rem_prev; lia).
  assert (Hprev_range : 0 <= (c - 1) mod C < C) by (apply Z.mod_pos_bound; lia).
  assert (Hw0 : rendered (afterNotes w)).
  { destruct Hw as [H1 H2 H3]. constructor; assumption. }
  assert (Hw1 : rendered (highlighted ((c - 1) mod C) false (afterNotes w)))
    by (apply rendered_highlighted, Hw0).
  assert (Hw2 : rendered (highlighted c true
                             (highlighted ((c - 1) mod C) false (afterNotes w))))
    by (apply rendered_highlighted, Hw1).
  unfold afterAdvance. fold c C. rewrite Hprev.
  constructor.
  - exact Hcols.
  - exact (rendered_ruler _ Hw2).
  - exact (rendered_grid _ Hw2).
  - exact Hrows.
  - change (0 <= Z.rem (c + 1) C < C).
    rewrite rem_next by lia. apply Z.mod_pos_bound. lia.
  - intros i e He Hp. split; [exact Hplay|].
    change (cols _) with C.
    change (currentColumn _) with (Z.rem (c + 1) C).
    rewrite rem_next, mod_next_prev by lia.
    apply (highlighted_grid_playing c true _ i e Hw1 Hcur) in He as [[Hmod _]|[Hmod (e0 & He0 & Hp0)]];
      [exact Hmod| |exact Hp].
    apply (highlighted_grid_playing _ false _ i e0 Hw0 Hprev_range) in He0
      as [[_ Hf]|[Hmod' (e1 & He1 & Hp1)]]; [discriminate| |exact Hp0].
    exfalso. apply Hmod'. apply (Hgh i e1 He1 Hp1).
  - intros i e He Hp. split; [exact Hplay|].
    change (cols _) with C.
    change (currentColumn _) with (Z.rem (c + 1) C).
    rewrite rem_next, mod_next_prev by lia.
    apply (highlighted_ruler_playing c true _ i e Hw1 Hcur) in He as [[Heq _]|[Hne (e0 & He0 & Hp0)]];
      [exact Heq| |exact Hp].
    apply (highlighted_ruler_playing _ false _ i e0 Hw0 Hprev_range) in He0
      as [[_ Hf]|[Hne' (e1 & He1 & Hp1)]]; [discriminate| |exact Hp0].
    exfalso. apply Hne'. apply (Hrh i e1 He1 Hp1).
Qed.

Lemma inv_armed ms (w : World) : sequencerInv w -> sequencerInv (armed ms w).
Proof. intros [H1 H2 H3 H4 H5 H6 H7]. constructor; assumption. Qed.

Lemma inv_playbackStep (w : World) :
  sequencerInv w -> sequencerInv (exec playbackStep w).
Proof.
  intros Hinv. unfold exec. destruct (isPlaying w) eqn:Hplay.
  - rewrite playbackStep_playing by (auto; apply inv_rows, Hinv).
    destruct (calculateNoteDuration _ _); simpl.
    + apply inv_armed, inv_afterAdvance; assumption.
    + apply inv_afterAdvance; assumption.
  - rewrite playbackStep_stopped by exact Hplay. exact Hinv.
Qed.

(** *** Starting *)

(** The world in which [startPlayback] runs its first step. *)
Definition started (w : World) : World :=
  set_currentColumn 0
    (set_playButton "Stop"
       (set_volumeNode (ensuredVolume w)
          (set_audioContext (Some running) (set_isPlaying true w)))).

Lemma startPlayback_playing (w : World) :
  isPlaying w = true -> startPlayback w = (Normal tt, w).
Proof.
  intros H. unfold startPlayback, bind at 1, get at 1. rewrite H. reflexivity.
Qed.

Lemma startPlayback_stopped (w : World) :
  isPlaying w = false -> startPlayback w = playbackStep (started w).
Proof.
  intros H. unfold startPlayback, bind at 1, get at 1. rewrite H.
  unfold bind at 1, modify at 1. unfold bind at 1.
  rewrite ensureAudioContext_eq.
  unfold bind at 1, modify at 1. unfold bind at 1, modify at 1.
  reflexivity.
Qed.

Lemma inv_started (w : World) :
  sequencerInv w -> isPlaying w = false -> sequencerInv (started w).
Proof.
  intros [Hcols Hr Hg Hrows Hcur Hgh Hrh] Hstop.
  constructor; simpl; try assumption.
  - unfold GRID_LIMITS.MIN_COLUMNS in Hcols. lia.
  - intros i e He Hp. destruct (Hgh i e He Hp) as [Hplay _]. congruence.
  - intros i e He Hp. destruct (Hrh i e He Hp) as [Hplay _]. congruence.
Qed.

Lemma inv_startPlayback (w : World) :
  sequencerInv w -> sequencerInv (exec startPlayback w).
Proof.
  intros Hinv. unfold exec. destruct (isPlaying w) eqn:Hplay.
  - rewrite startPlayback_playing by exact Hplay. exact Hinv.
  - rewrite startPlayback_stopped by exact Hplay.
    apply inv_playbackStep, inv_started; assumption.
Qed.

(** *** Stopping *)

(** The world once [stopPlayback] has cleared the flag, cancelled the timer
    and relabelled the button, before it clears the highlights. *)
Definition stopping (w : World) : World :=
  set_playButton "Play"
    (set_timers
       (match timerId w with
        | Some i => filter (fun t => handle t <> i) (timers w)
        | None => timers w
        end)
       (set_isPlaying false w)).

(** The world after [highlightColumn(c, false)] for each [c] of [cs]. *)
Definition clearedColumns (cs : list Z) (w : World) : World :=
  fold_left (fun w c => highlighted c false w) cs w.

Lemma forEach_clear (cs : list Z) (w : World) :
  forEach cs (fun c => highlightColumn c false) w = (Normal tt, clearedColumns cs w).
Proof.
  revert w; induction cs as [|c cs IH]; intros w; simpl; [reflexivity|].
  unfold bind at 1. rewrite highlightColumn_eq. apply IH.
Qed.

Lemma stopPlayback_stopped (w : World) :
  isPlaying w = false -> stopPlayback w = (Normal tt, w).
Proof.
  intros H. unfold stopPlayback, bind at 1, get at 1. rewrite H. reflexivity.
Qed.

Lemma clearTimeout_eq (id : option nat) (w : World) :
  clearTimeout id w
  = (Normal tt,
     set_timers
       (match id with
        | Some i => filter (fun t => handle t <> i) (timers w)
        | None => timers w
        end) w).
Proof. destruct id; reflexivity. Qed.

Lemma stopPlayback_playing (w : World) :
  isPlaying w = true ->
  stopPlayback w = (Normal tt, clearedColumns (upTo (cols w)) (stopping w)).
Proof.
  intros H. unfold stopPlayback, bind at 1, get at 1. rewrite H.
  change (negb true) with false. cbv iota.
  unfold bind at 1, modify at 1. unfold bind at 1, get at 1.
  unfold bind at 1. rewrite clearTimeout_eq.
  unfold bind at 1, modify at 1. unfold bind at 1, get at 1.
  rewrite forEach_clear. reflexivity.
Qed.

Ltac fold_frame :=
  let cs := fresh "cs" in let w := fresh "w" in let IH := fresh "IH" in
  intros cs w; revert w; induction cs as [|? cs IH]; intros w; simpl;
  [reflexivity|unfold clearedColumns in IH; rewrite IH; reflexivity].

Lemma clearedColumns_isPlaying : forall cs w, isPlaying (clearedColumns cs w) = isPlaying w.
Proof. fold_frame. Qed.
Lemma clearedColumns_currentColumn : forall cs w, currentColumn (clearedColumns cs w) = currentColumn w.
Proof. fold_frame. Qed.
Lemma clearedColumns_cols : forall cs w, cols (clearedColumns cs w) = cols w.
Proof. fold_frame. Qed.
Lemma clearedColumns_notes : forall cs w, notes (clearedColumns cs w) = notes w.
Proof. fold_frame. Qed.
Lemma clearedColumns_gridState : forall cs w, gridState (clearedColumns cs w) = gridState w.
Proof. fold_frame. Qed.
Lemma clearedColumns_timers : forall cs w, timers (clearedColumns cs w) = timers w.
Proof. fold_frame. Qed.
Lemma clearedColumns_timerId : forall cs w, timerId (clearedColumns cs w) = timerId w.
Proof. fold_frame. Qed.

Lemma rendered_clearedColumns cs (w : World) :
  rendered w -> rendered (clearedColumns cs w).
Proof.
  revert w; induction cs as [|c cs IH]; intros w Hw; simpl; [exact Hw|].
  apply IH, rendered_highlighted, Hw.
Qed.

(** A cell still highlighted after the columns [cs] were cleared was
    highlighted before and is in none of them. *)
Lemma clearedColumns_grid_playing cs (w : World) i e :
  rendered w -> Forall (fun c => 0 <= c < cols w) cs ->
  gridInner (clearedColumns cs w) !! i = Some e -> playing_col e = true ->
  ((Z.of_nat i mod cols w) ∉ cs)
  /\ exists e0, gridInner w !! i = Some e0 /\ playing_col e0 = true.
Proof.
  revert w; induction cs as [|c cs IH]; intros w Hw Hcs He Hp; simpl in *.
  - split; [apply not_elem_of_nil|eauto].
  - apply Forall_cons in Hcs as [Hc Hcs].
    apply IH in He as [Hnin (e0 & He0 & Hp0)];
      [|apply rendered_highlighted, Hw|exact Hcs|exact Hp].
    apply (highlighted_grid_playing c false w i e0 Hw Hc) in He0
      as [[_ Hf]|[Hne (e1 & He1 & Hp1)]]; [discriminate| |exact Hp0].
    split; [|eauto]. simpl in Hnin. intros Hin.
    apply elem_of_cons in Hin as [Heq|Hin]; [congruence|exact (Hnin Hin)].
Qed.

Lemma clearedColumns_ruler_playing cs (w : World) i e :
  rendered w -> Forall (fun c => 0 <= c < cols w) cs ->
  ruler (clearedColumns cs w) !! i = Some e -> playing_col e = true ->
  (Z.of_nat i ∉ cs)
  /\ exists e0, ruler w !! i = Some e0 /\ playing_col e0 = true.
Proof.
  revert w; induction cs as [|c cs IH]; intros w Hw Hcs He Hp; simpl in *.
  - split; [apply not_elem_of_nil|eauto].
  - apply Forall_cons in Hcs as [Hc Hcs].
    apply IH in He as [Hnin (e0 & He0 & Hp0)];
      [|apply rendered_highlighted, Hw|exact Hcs|exact Hp].
    apply (highlighted_ruler_playing c false w i e0 Hw Hc) in He0
      as [[_ Hf]|[Hne (e1 & He1 & Hp1)]]; [discriminate| |exact Hp0].
    split; [|eauto]. intros Hin.
    apply elem_of_cons in Hin as [Heq|Hin]; [congruence|exact (Hnin Hin)].
Qed.

Lemma upTo_in_range (C : Z) : Forall (fun c => 0 <= c < C) (upTo C).
Proof. apply Forall_forall. intros c Hc. apply elem_of_upTo, Hc. Qed.

(** After every column was cleared no cell and no ruler cell is
    highlighted. *)
Lemma cleared_all_grid (w : World) i e :
  rendered w ->
  gridInner (clearedColumns (upTo (cols w)) w) !! i = Some e -> playing_col e = false.
Proof.
  intros Hw He. destruct (playing_col e) eqn:Hp; [|reflexivity]. exfalso.
  apply (clearedColumns_grid_playing _ w i e Hw (upTo_in_range _)) in He as [Hnin _];
    [|exact Hp].
  apply Hnin, elem_of_upTo, Z.mod_pos_bound, rendered_cols, Hw.
Qed.

Lemma cleared_all_ruler (w : World) i e :
  rendered w ->
  ruler (clearedColumns (upTo (cols w)) w) !! i = Some e -> playing_col e = false.
Proof.
  intros Hw He. destruct (playing_col e) eqn:Hp; [|reflexivity]. exfalso.
  pose proof (lookup_lt_Some _ _ _ He) as Hlt.
  pose proof (rendered_ruler _ (rendered_clearedColumns (upTo (cols w)) w Hw)) as Hlen.
  rewrite clearedColumns_cols in Hlen.
  apply (clearedColumns_ruler_playing _ w i e Hw (upTo_in_range _)) in He as [Hnin _];
    [|exact Hp].
  apply Hnin, elem_of_upTo. lia.
Qed.

Lemma rendered_stopping (w : World) : rendered w -> rendered (stopping w).
Proof. intros [H1 H2 H3]. constructor; assumption. Qed.

Lemma inv_stopPlayback (w : World) :
  sequencerInv w -> sequencerInv (exec stopPlayback w).
Proof.
  intros Hinv. unfold exec. destruct (isPlaying w) eqn:Hplay.
  2:{ rewrite stopPlayback_stopped by exact Hplay. exact Hinv. }
  rewrite stopPlayback_playing by exact Hplay. simpl snd.
  pose proof (rendered_stopping w (inv_rendered w Hinv)) as Hw.
  pose proof (rendered_clearedColumns (upTo (cols w)) _ Hw) as [Hc Hr Hg].
  rewrite clearedColumns_cols, ?clearedColumns_notes in *.
  destruct Hinv as [Hcols _ _ Hrows Hcur _ _].
  constructor; rewrite ?clearedColumns_cols, ?clearedColumns_notes,
    ?clearedColumns_gridState, ?clearedColumns_currentColumn; try assumption.
  - intros i e He Hp.
    rewrite (cleared_all_grid (stopping w) i e Hw He) in Hp. discriminate.
  - intros i e He Hp.
    rewrite (cleared_all_ruler (stopping w) i e Hw He) in Hp. discriminate.
Qed.

(** *** Reachable worlds *)

(** The world [main] leaves: stopped, the cursor on column 0, a grid of 4
    to 32 columns with one row per note, just rendered. *)
Record initial (w : World) : Prop := mkInitial {
  initial_stopped : isPlaying w = false;
  initial_cursor : currentColumn w = 0;
  initial_cols : GRID_LIMITS.MIN_COLUMNS <= cols w <= GRID_LIMITS.MAX_COLUMNS;
  initial_rows : length (gridState w) = length (notes w);
  initial_widths : Forall (fun cells => Z.of_nat (length cells) = cols w) (gridState w);
  initial_grid : gridInner w = renderedGrid (gridState w);
  initial_ruler : ruler w = renderedRuler (cols w)
}.


Lemma length_upTo (n : Z) : 0 <= n -> Z.of_nat (length (upTo n)) = n.
Proof. intros H. unfold upTo. rewrite length_map, length_seq. lia. Qed.

Lemma length_renderedGrid (C : Z) (gs : list (list bool)) :
  Forall (fun cells => Z.of_nat (length cells) = C) gs ->
  Z.of_nat (length (renderedGrid gs)) = Z.of_nat (length gs) * C.
Proof.
  unfold renderedGrid. induction 1 as [|cells gs Hcells _ IH]; simpl; [reflexivity|].
  rewrite length_app, length_map. lia.
Qed.

Lemma renderedGrid_plain (gs : list (list bool)) :
  Forall (fun e => playing_col e = false) (renderedGrid gs).
Proof.
  unfold renderedGrid. induction gs as [|cells gs IH]; simpl; [constructor|].
  apply Forall_app. split; [|exact IH].
  apply Forall_forall. intros e He. apply list_elem_of_fmap in He as (b & -> & _).
  reflexivity.
Qed.

Lemma renderedRuler_plain (C : Z) :
  Forall (fun e => playing_col e = false) (renderedRuler C).
Proof.
  apply Forall_forall. intros e He. apply list_elem_of_fmap in He as (b & -> & _).
  reflexivity.
Qed.

Lemma inv_initial (w : World) : initial w -> sequencerInv w.
Proof.
  intros [Hstop Hcur Hcols Hrows Hwidths Hgrid Hruler].
  assert (HC : 4 <= cols w) by apply Hcols.
  constructor; try assumption.
  - rewrite Hruler. unfold renderedRuler. rewrite length_map.
    apply length_upTo. lia.
  - rewrite Hgrid, <- Hrows. apply length_renderedGrid, Hwidths.
  - rewrite Hcur. lia.
  - intros i e He Hp. rewrite Hgrid in He.
    apply list_elem_of_lookup_2 in He.
    pose proof (renderedGrid_plain (gridState w)) as Hall.
    rewrite Forall_forall in Hall. rewrite (Hall e He) in Hp. discriminate.
  - intros i e He Hp. rewrite Hruler in He.
    apply list_elem_of_lookup_2 in He.
    pose proof (renderedRuler_plain (cols w)) as Hall.
    rewrite Forall_forall in Hall. rewrite (Hall e He) in Hp. discriminate.
Qed.


(** Under the invariant a highlighted column is the one before the cursor,
    and the session is playing. *)
Lemma inv_columnHighlighted (w : World) (c : Z) :
  sequencerInv w -> columnHighlighted w c = true ->
  isPlaying w = true /\ c = (currentColumn w - 1) mod cols w.
Proof.
  intros Hinv H. apply columnHighlighted_true in H
    as [(e & He & Hp)|(i & e & Hi & Hc & Hp)].
  - unfold arrayGet in He. destruct (c <? 0) eqn:Hneg; [discriminate|].
    destruct (inv_ruler_hl w Hinv _ e He Hp) as [Hplay Hk].
    split; [exact Hplay|]. lia.
  - destruct (inv_grid_hl w Hinv i e Hi Hp) as [Hplay Hk].
    split; [exact Hplay|]. congruence.
Qed.



Lemma demoWorld_initial : initial demoWorld.
Proof.
  constructor; try reflexivity.
  - unfold GRID_LIMITS.MIN_COLUMNS, GRID_LIMITS.MAX_COLUMNS. simpl. lia.
  - repeat constructor.
Qed.



(** ** Runs of the step loop *)

(** The host runs the callback of the pending timer [h]: the timer leaves
    the queue and [playbackStep] runs. A handle that is not pending (it was
    cleared, or it has fired) runs nothing. *)
Definition fireTimer (h : nat) : M World unit :=
  w <- get ;;
  if existsb (fun t => Nat.eqb (handle t) h) (timers w)
  then
    modify (fun w => set_timers (filter (fun t => handle t <> h) (timers w)) w) ;;
    playbackStep
  else ret tt.

(** [n] steps in a row, as the chain of timers runs them: a step that
    throws arms no timer and ends the chain. *)
Fixpoint runSteps (n : nat) : M World unit :=
  match n with
  | O => ret tt
  | S n' => playbackStep ;; runSteps n'
  end.

(** The column the cursor is on at the start of each of [n] steps: the
    column whose cells the step reads and highlights. *)
Fixpoint visitedColumns (n : nat) (w : World) : list Z :=
  match n with
  | O => []
  | S n' => currentColumn w :: visitedColumns n' (exec playbackStep w)
  end.

(** A session that can run a step to its end: the cursor is a column, every
    note has its row, the tempo control shows a tempo from 1 to 1000. *)
Record ready (w : World) : Prop := mkReady {
  ready_cols : 0 < cols w;
  ready_cursor : 0 <= currentColumn w < cols w;
  ready_rows : length (gridState w) = length (notes w);
  ready_tempo : exists bpm, parseInt (tempoInput w) = Some bpm /\ 1 <= bpm <= 1000
}.

Lemma playbackStep_ready (w : World) :
  isPlaying w = true -> ready w ->
  exists bpm, playbackStep w = (Normal tt, armed (columnDurationOf bpm) (afterAdvance w)).
Proof.
  intros Hplay [_ _ Hrows (bpm & Hparse & Hrange)]. exists bpm.
  apply playbackStep_in_tempo; assumption.
Qed.

Lemma ready_step (w : World) :
  isPlaying w = true -> ready w ->
  isPlaying (exec playbackStep w) = true
  /\ ready (exec playbackStep w)
  /\ cols (exec playbackStep w) = cols w
  /\ currentColumn (exec playbackStep w) = (currentColumn w + 1) mod cols w.
Proof.
  intros Hplay Hready.
  destruct (playbackStep_ready w Hplay Hready) as [bpm Hstep].
  unfold exec. rewrite Hstep.
  destruct Hready as [HC Hcur Hrows Htempo].
  assert (Hnext : Z.rem (currentColumn w + 1) (cols w) = (currentColumn w + 1) mod cols w)
    by (apply rem_next; assumption).
  split; [exact Hplay|]. split; [|split; [reflexivity|exact Hnext]].
  constructor; try assumption.
  change (0 <= Z.rem (currentColumn w + 1) (cols w) < cols w).
  rewrite Hnext. apply Z.mod_pos_bound, HC.
Qed.

Lemma runSteps_ready (n : nat) (w : World) :
  isPlaying w = true -> ready w ->
  completion (runSteps n) w = Normal tt
  /\ currentColumn (exec (runSteps n) w) = (currentColumn w + Z.of_nat n) mod cols w
  /\ visitedColumns n w
     = map (fun k => (currentColumn w + Z.of_nat k) mod cols w) (seq 0 n).
Proof.
  revert w; induction n as [|n IH]; intros w Hplay Hready.
  - split; [reflexivity|]. split; [|reflexivity].
    rewrite Z.add_0_r. symmetry. apply Z.mod_small, ready_cursor, Hready.
  - destruct (ready_step w Hplay Hready) as (Hplay' & Hready' & Hcols & Hcur).
    destruct (IH _ Hplay' Hready') as (Hdone & Hend & Hvisited).
    destruct (playbackStep_ready w Hplay Hready) as [bpm Hstep].
    assert (Hrun : runSteps (S n) w = runSteps n (exec playbackStep w)).
    { simpl. unfold bind, exec. rewrite Hstep. reflexivity. }
    unfold completion, exec in *. rewrite Hrun.
    split; [exact Hdone|]. split.
    + rewrite Hend, Hcols, Hcur, Z.add_mod_idemp_l by (apply Z.neq_sym, Z.lt_neq, ready_cols, Hready).
      f_equal. lia.
    + cbn [visitedColumns seq map]. unfold exec. f_equal.
      * rewrite Z.add_0_r. symmetry. apply Z.mod_small, ready_cursor, Hready.
      * rewrite Hvisited, Hcols, Hcur, <- seq_shift, map_map.
        apply map_ext. intros k.
        rewrite Z.add_mod_idemp_l by (apply Z.neq_sym, Z.lt_neq, ready_cols, Hready).
        f_equal. lia.
Qed.

Lemma demoWorld_started_ready : ready (exec startPlayback demoWorld).
Proof.
  constructor.
  - reflexivity.
  - vm_compute. intuition congruence.
  - reflexivity.
  - exists 120. split; [reflexivity|lia].
Qed.

(** C3. A step of a playing session that is ready completes and moves the
    cursor to [(currentColumn + 1) mod cols]. With 16 columns and the cursor
    on 0, sixteen steps in a row all complete, visit the columns 0 to 15 in
    that order, each once, and bring the cursor back to 0. *)
Theorem playbackStep_advances_cursor (w : World) :
  isPlaying w = true ->
  ready w ->
  (completion playbackStep w = Normal tt
   /\ currentColumn (exec playbackStep w) = (currentColumn w + 1) mod cols w)
  /\ (cols w = 16 -> currentColumn w = 0 ->
      completion (runSteps 16) w = Normal tt
      /\ visitedColumns 16 w = upTo 16
      /\ currentColumn (exec (runSteps 16) w) = 0).
Proof.
  intros Hplay Hready. split.
  - destruct (playbackStep_ready w Hplay Hready) as [bpm Hstep].
    split; [unfold completion; rewrite Hstep; reflexivity|].
    apply ready_step; assumption.
  - intros Hcols Hcur.
    destruct (runSteps_ready 16 w Hplay Hready) as (Hdone & Hend & Hvisited).
    split; [exact Hdone|]. split.
    + rewrite Hvisited, Hcols, Hcur. reflexivity.
    + rewrite Hend, Hcols, Hcur. reflexivity.
Qed.

Lemma playbackStep_advances_cursor_witness :
  isPlaying (exec startPlayback demoWorld) = true
  /\ ready (exec startPlayback demoWorld)
  /\ currentColumn (exec playbackStep (exec startPlayback demoWorld))
     = (currentColumn (exec startPlayback demoWorld) + 1)
       mod cols (exec startPlayback demoWorld).
Proof.
  split; [reflexivity|]. split; [exact demoWorld_started_ready|].
  apply (playbackStep_advances_cursor (exec startPlayback demoWorld) eq_refl
           demoWorld_started_ready).
Defined.

(** C4. [startPlayback] on a playing session changes nothing: the cursor is
    not reset, no step runs, no timer is armed. On a stopped session it sets
    the flag, puts the cursor on column 0 and runs one step at once; when
    every note has its row and the tempo is from 1 to 1000 that step
    completes, leaves the cursor one column further and arms exactly one
    timer, whose handle it stores. *)
Theorem startPlayback_once (w : World) :
  (isPlaying w = true -> startPlayback w = (Normal tt, w))
  /\ (isPlaying w = false ->
      startPlayback w = playbackStep (started w)
      /\ isPlaying (started w) = true
      /\ currentColumn (started w) = 0
      /\ forall bpm,
          length (gridState w) = length (notes w) ->
          parseInt (tempoInput w) = Some bpm -> 1 <= bpm <= 1000 ->
          completion startPlayback w = Normal tt
          /\ isPlaying (exec startPlayback w) = true
          /\ currentColumn (exec startPlayback w) = Z.rem 1 (cols w)
          /\ timerId (exec startPlayback w) = Some (nextTimerId w)
          /\ timers (exec startPlayback w)
             = timers w ++ [mkTimer (nextTimerId w) (columnDurationOf bpm)]).
Proof.
  split; [apply startPlayback_playing|].
  intros Hstop. split; [apply startPlayback_stopped, Hstop|].
  split; [reflexivity|]. split; [reflexivity|].
  intros bpm Hrows Hparse Hrange.
  unfold completion, exec. rewrite (startPlayback_stopped w Hstop).
  rewrite (playbackStep_in_tempo (started w) bpm) by (try reflexivity; assumption).
  repeat split; reflexivity.
Qed.

Lemma startPlayback_once_witness :
  isPlaying demoWorld = false
  /\ length (gridState demoWorld) = length (notes demoWorld)
  /\ parseInt (tempoInput demoWorld) = Some 120
  /\ 1 <= 120 <= 1000
  /\ timers (exec startPlayback demoWorld)
     = timers demoWorld ++ [mkTimer (nextTimerId demoWorld) (columnDurationOf 120)].
Proof.
  split; [reflexivity|]. split; [reflexivity|]. split; [reflexivity|].
  split; [lia|].
  destruct (startPlayback_once demoWorld) as [_ Hstart].
  destruct (Hstart eq_refl) as (_ & _ & _ & Hstep).
  apply (Hstep 120 eq_refl eq_refl ltac:(lia)).
Defined.

Lemma length_filter_handle (i : nat) (l : list Timer) :
  NoDup (map handle l) ->
  (length l <= length (filter (fun t => handle t <> i) l) + 1)%nat.
Proof.
  induction l as [|t l IH]; intros Hnd; simpl; [lia|].
  apply NoDup_cons in Hnd as [Hnotin Hnd].
  rewrite filter_cons. destruct (decide (handle t <> i)) as [Hne|Heq].
  - simpl. specialize (IH Hnd). lia.
  - assert (Hi : handle t = i) by (destruct (decide (handle t = i)); tauto).
    assert (Hall : filter (fun t0 => handle t0 <> i) l = l).
    { clear IH Hnd. induction l as [|t' l IHl]; [reflexivity|].
      rewrite filter_cons. destruct (decide (handle t' <> i)) as [_|Hbad].
      - f_equal. apply IHl. intros Hin. apply Hnotin. simpl.
        apply elem_of_cons. right. exact Hin.
      - exfalso. apply Hnotin. simpl. apply elem_of_cons. left.
        destruct (decide (handle t' = i)); [congruence|tauto]. }
    rewrite Hall. lia.
Qed.

Lemma filter_handle_subset (i : nat) (l : list Timer) (t : Timer) :
  t ∈ filter (fun t => handle t <> i) l -> t ∈ l.
Proof. intros H. apply list_elem_of_filter in H. tauto. Qed.

(** C5. [stopPlayback] leaves the session stopped and returns normally, the
    first time and the second; the second call changes nothing at all. The
    two calls together remove at most one timer from the queue (timer
    handles being distinct) and add none. On a stopped session
    [stopPlayback] is the identity. *)
Theorem stopPlayback_idempotent (w : World) :
  NoDup (map handle (timers w)) ->
  completion stopPlayback w = Normal tt
  /\ isPlaying (exec stopPlayback w) = false
  /\ stopPlayback (exec stopPlayback w) = (Normal tt, exec stopPlayback w)
  /\ (length (timers w)
      <= length (timers (exec stopPlayback (exec stopPlayback w))) + 1)%nat
  /\ (forall t, t ∈ timers (exec stopPlayback (exec stopPlayback w)) -> t ∈ timers w)
  /\ (isPlaying w = false -> stopPlayback w = (Normal tt, w)).
Proof.
  intros Hnd.
  assert (Hstopped : isPlaying (exec stopPlayback w) = false).
  { unfold exec. destruct (isPlaying w) eqn:Hp.
    - rewrite stopPlayback_playing by exact Hp. simpl.
      rewrite clearedColumns_isPlaying. reflexivity.
    - rewrite stopPlayback_stopped by exact Hp. exact Hp. }
  assert (Hagain : stopPlayback (exec stopPlayback w) = (Normal tt, exec stopPlayback w))
    by (apply stopPlayback_stopped, Hstopped).
  split; [|split; [exact Hstopped|split; [exact Hagain|]]].
  { unfold completion. destruct (isPlaying w) eqn:Hp.
    - rewrite stopPlayback_playing by exact Hp. reflexivity.
    - rewrite stopPlayback_stopped by exact Hp. reflexivity. }
  unfold exec at 1 3. rewrite Hagain. simpl snd.
  split; [|split; [|apply stopPlayback_stopped]].
  - unfold exec. destruct (isPlaying w) eqn:Hp.
    + rewrite stopPlayback_playing by exact Hp. simpl snd.
      rewrite clearedColumns_timers. simpl.
      destruct (timerId w); [apply length_filter_handle, Hnd|lia].
    + rewrite stopPlayback_stopped by exact Hp. simpl. lia.
  - intros t. unfold exec. destruct (isPlaying w) eqn:Hp.
    + rewrite stopPlayback_playing by exact Hp. simpl snd.
      rewrite clearedColumns_timers. simpl.
      destruct (timerId w); [apply filter_handle_subset|auto].
    + rewrite stopPlayback_stopped by exact Hp. auto.
Qed.

Lemma stopPlayback_idempotent_witness :
  NoDup (map handle (timers (exec startPlayback demoWorld)))
  /\ isPlaying (exec stopPlayback (exec startPlayback demoWorld)) = false.
Proof.
  assert (Hnd : NoDup (map handle (timers (exec startPlayback demoWorld)))).
  { change (NoDup [1%nat]). apply NoDup_singleton. }
  split; [exact Hnd|].
  apply (stopPlayback_idempotent (exec startPlayback demoWorld) Hnd).
Defined.

Lemma runSteps_stopped (n : nat) (w : World) :
  isPlaying w = false -> runSteps n w = (Normal tt, w).
Proof.
  intros H. induction n as [|n IH]; [reflexivity|].
  simpl. unfold bind. rewrite playbackStep_stopped by exact H. exact IH.
Qed.

Lemma fireTimer_stopped (h : nat) (w : World) :
  isPlaying w = false ->
  fireTimer h w
  = (Normal tt,
     if existsb (fun t => Nat.eqb (handle t) h) (timers w)
     then set_timers (filter (fun t => handle t <> h) (timers w)) w
     else w).
Proof.
  intros H. unfold fireTimer, bind at 1, get at 1.
  destruct (existsb _ _); [|reflexivity].
  unfold bind, modify. rewrite playbackStep_stopped by exact H. reflexivity.
Qed.

(** C7. Once [stopPlayback] has returned the session is stopped, and a step
    that runs then, alone, several in a row, or as the callback of a timer
    that fires, returns normally without a throw: it schedules no voice,
    writes nothing to the console, and leaves every cell and ruler cell as
    it was. *)
Theorem no_step_after_stop (w : World) (n h : nat) :
  isPlaying (exec stopPlayback w) = false
  /\ playbackStep (exec stopPlayback w) = (Normal tt, exec stopPlayback w)
  /\ runSteps n (exec stopPlayback w) = (Normal tt, exec stopPlayback w)
  /\ completion (fireTimer h) (exec stopPlayback w) = Normal tt
  /\ log (exec (fireTimer h) (exec stopPlayback w)) = log (exec stopPlayback w)
  /\ gridInner (exec (fireTimer h) (exec stopPlayback w)) = gridInner (exec stopPlayback w)
  /\ ruler (exec (fireTimer h) (exec stopPlayback w)) = ruler (exec stopPlayback w).
Proof.
  assert (Hstopped : isPlaying (exec stopPlayback w) = false).
  { unfold exec. destruct (isPlaying w) eqn:Hp.
    - rewrite stopPlayback_playing by exact Hp. simpl.
      rewrite clearedColumns_isPlaying. reflexivity.
    - rewrite stopPlayback_stopped by exact Hp. exact Hp. }
  split; [exact Hstopped|].
  split; [apply playbackStep_stopped, Hstopped|].
  split; [apply runSteps_stopped, Hstopped|].
  pose proof (fireTimer_stopped h _ Hstopped) as Hfire.
  unfold completion, exec in *. rewrite Hfire. simpl.
  destruct (existsb _ _); repeat split; reflexivity.
Qed.

(** ** Note names *)

(** The one-character string of the digit [d]. *)
Definition digitChar (d : Z) : string :=
  String (ascii_of_nat (48 + Z.to_nat d)) EmptyString.

(** A note name in scientific pitch notation: a pitch class of [noteMap]
    followed by one octave digit from 0 to 8. *)
Definition isValidNoteName (v : JsValue) : bool :=
  match v with
  | JsString s =>
      existsb (fun entry =>
        existsb (fun octave => String.eqb s (fst entry ++ digitChar octave)%string)
          (upTo 9))
        noteMap
  | _ => false
  end.

Definition semitonesIs (c : Completion (option Z)) (expected : Z) : bool :=
  match c with
  | Normal (Some st) => st =? expected
  | _ => false
  end.

Lemma semitonesIs_true c expected :
  semitonesIs c expected = true -> c = Normal (Some expected).
Proof.
  destruct c as [[st|]|e]; simpl; try discriminate.
  intros H. apply Z.eqb_eq in H. congruence.
Qed.

Lemma noteSemitones_valid_all :
  forallb (fun entry =>
    forallb (fun octave =>
      semitonesIs (noteSemitones (JsString (fst entry ++ digitChar octave)%string))
        ((octave - 4) * 12 + snd entry - 9))
      (upTo 9))
    noteMap = true.
Proof. vm_compute. reflexivity. Qed.

Lemma noteSemitones_valid (pc : string) (idx octave : Z) :
  In (pc, idx) noteMap -> 0 <= octave <= 8 ->
  noteSemitones (JsString (pc ++ digitChar octave)%string)
  = Normal (Some ((octave - 4) * 12 + idx - 9)).
Proof.
  intros Hpc Hoct. pose proof noteSemitones_valid_all as Hall.
  rewrite forallb_forall in Hall. specialize (Hall _ Hpc).
  rewrite forallb_forall in Hall.
  apply semitonesIs_true, (Hall octave).
  apply list_elem_of_In, elem_of_upTo. lia.
Qed.


Lemma frequency_positive (st : Z) : (0 < 440 * Rpower 2 (IZR st / 12))%R.
Proof. apply Rmult_lt_0_compat; [lra|]. unfold Rpower. apply exp_pos. Qed.



Definition semitonesDefined (c : Completion (option Z)) : bool :=
  match c with
  | Normal (Some _) => true
  | _ => false
  end.

Lemma ALL_NOTES_semitones :
  forallb (fun n => semitonesDefined (noteSemitones (JsString n))
                    && isValidNoteName (JsString n)) ALL_NOTES = true.
Proof. vm_compute. reflexivity. Qed.

(** C10. For every name of [ALL_NOTES], [noteToFrequency] does not throw and
    returns a frequency that is a number (not [NaN]) and positive; the name
    is a pitch class followed by an octave digit; and [playNote], once the
    audio context and its volume node exist, schedules one voice of that
    frequency and reports nothing. *)
Theorem ALL_NOTES_playable (n : string) :
  In n ALL_NOTES ->
  exists hz : R,
    noteToFrequency (JsString n) = Normal (Some hz)
    /\ (0 < hz)%R
    /\ isValidNoteName (JsString n) = true
    /\ forall (w : World) (start : float) (wave : string) ctx gain,
        audioContext w = Some ctx -> volumeNode w = Some gain ->
        playNote (JsString n) start wave w
        = (Normal tt,
           set_log (log w ++
                    [Voice (mkVoice hz wave start
                              (start + AUDIO_CONFIG.ENVELOPE_ATTACK)%float
                              (start + AUDIO_CONFIG.ENVELOPE_DECAY)%float
                              (start + AUDIO_CONFIG.ENVELOPE_DECAY)%float)]) w).
Proof.
  intros Hin. pose proof ALL_NOTES_semitones as Hall.
  rewrite forallb_forall in Hall. specialize (Hall n Hin).
  apply andb_prop in Hall as [Hst Hvalid].
  destruct (noteSemitones (JsString n)) as [[st|]|e] eqn:Hsem; try discriminate.
  exists (440 * Rpower 2 (IZR st / 12))%R.
  assert (Hfreq : noteToFrequency (JsString n)
                  = Normal (Some (440 * Rpower 2 (IZR st / 12))%R)).
  { unfold noteToFrequency. rewrite Hsem. reflexivity. }
  split; [exact Hfreq|]. split; [apply frequency_positive|].
  split; [exact Hvalid|].
  intros w start wave ctx gain Hctx Hgain.
  rewrite playNote_eq. unfold playNoteEvents. rewrite Hctx, Hfreq, Hgain.
  reflexivity.
Qed.

Lemma ALL_NOTES_playable_witness :
  In "C8" ALL_NOTES
  /\ exists hz : R, noteToFrequency (JsString "C8") = Normal (Some hz) /\ (0 < hz)%R.
Proof.
  assert (Hin : In "C8" ALL_NOTES) by (simpl; tauto).
  split; [exact Hin|].
  destruct (ALL_NOTES_playable "C8" Hin) as (hz & Hfreq & Hpos & _).
  exists hz. split; [exact Hfreq|exact Hpos].
Defined.

(** *** Names that are not note names *)

Lemma substring_split_last (s : string) (m : nat) :
  String.length s = S m ->
  exists c, substring m 1 s = String c EmptyString
            /\ s = (substring 0 m s ++ String c EmptyString)%string.
Proof.
  revert m; induction s as [|a s IH]; intros m Hlen; [discriminate|].
  destruct s as [|b s].
  - injection Hlen as <-. exists a. split; reflexivity.
  - destruct m as [|m]; [discriminate|].
    assert (Hlen' : String.length (String b s) = S m) by (simpl in *; lia).
    destruct (IH m Hlen') as (c & Hlast & Hsplit).
    exists c. split.
    + exact Hlast.
    + change (substring 0 (S m) (String a (String b s)))
        with (String a (substring 0 m (String b s))).
      cbn [append]. f_equal. exact Hsplit.
Qed.

(** A string that is not empty is its [slice(0, -1)] followed by its
    [slice(-1)], which is one character. *)
Lemma slice_last (s : string) :
  s <> EmptyString ->
  exists c, slice s (-1) None = String c EmptyString
            /\ s = (slice s 0 (Some (-1)) ++ String c EmptyString)%string.
Proof.
  intros Hne. destruct (String.length s) as [|m] eqn:Hlen.
  { destruct s; [congruence|discriminate]. }
  destruct (substring_split_last s m Hlen) as (c & Hlast & Hsplit).
  exists c. unfold slice. rewrite Hlen.
  replace (Z.of_nat (S m) + -1) with (Z.of_nat m) by lia.
  change (-1 <? 0) with true. change (0 <? 0) with false. cbv iota.
  rewrite (proj2 (Z.ltb_ge _ _)) by lia.
  replace (Z.to_nat (Z.max (Z.of_nat m) 0)) with m by lia.
  replace (Z.to_nat (Z.max (Z.min (Z.of_nat (S m)) (Z.of_nat (S m))
                            - Z.max (Z.of_nat m) 0) 0)) with 1%nat by lia.
  replace (Z.to_nat (Z.min 0 (Z.of_nat (S m)))) with 0%nat by lia.
  replace (Z.to_nat (Z.max (Z.max (Z.of_nat m) 0 - Z.min 0 (Z.of_nat (S m))) 0))
    with m by lia.
  split; assumption.
Qed.

(** [parseInt] of one character is a number exactly when the character is
    a decimal digit. *)
Lemma parseInt_one_char (c : ascii) (octave : Z) :
  parseInt (String c EmptyString) = Some octave ->
  0 <= octave <= 9 /\ String c EmptyString = digitChar octave.
Proof.
  destruct c as [[|] [|] [|] [|] [|] [|] [|] [|]]; vm_compute;
    intros H; try discriminate H; injection H as <-;
    (split; [split; discriminate|reflexivity]).
Qed.

Lemma ownProperty_In (key : string) (o : list (string * Z)) (v : Z) :
  ownProperty key o = Some v -> In (key, v) o.
Proof.
  induction o as [|[k x] o IH]; simpl; [discriminate|].
  destruct (String.eqb key k) eqn:Hk.
  - apply String.eqb_eq in Hk. intros [= ->]. left. congruence.
  - intros H. right. apply IH, H.
Qed.

(** Only note names get a number of semitones. *)
Lemma noteSemitones_Some_valid (v : JsValue) (st : Z) :
  noteSemitones v = Normal (Some st) -> isValidNoteName v = true.
Proof.
  destruct v as [| |b|n|s]; try discriminate. unfold noteSemitones.
  destruct (negb (toBoolean (JsString s)) || _) eqn:Hguard; [discriminate|].
  assert (Hne : s <> EmptyString).
  { intros ->. discriminate Hguard. }
  destruct (slice_last s Hne) as (c & Hlast & Hsplit).
  rewrite Hlast.
  destruct (negb (hasProperty _ _)); [discriminate|].
  destruct (parseInt (String c EmptyString)) as [octave|] eqn:Hoct; [|discriminate].
  destruct ((octave <? 0) || (octave >? 8)) eqn:Hrange; [discriminate|].
  destruct (ownProperty (slice s 0 (Some (-1))) noteMap) as [idx|] eqn:Hown;
    [|destruct (ownProperty "A" noteMap); discriminate].
  intros _. apply orb_false_iff in Hrange as [Hlo Hhi].
  destruct (parseInt_one_char c octave Hoct) as [_ Hdigit].
  unfold isValidNoteName. apply existsb_exists.
  exists (slice s 0 (Some (-1)), idx). split; [apply ownProperty_In, Hown|].
  apply existsb_exists. exists octave. split.
  - apply list_elem_of_In, elem_of_upTo. lia.
  - apply String.eqb_eq. simpl fst. rewrite <- Hdigit. exact Hsplit.
Qed.

(** What [noteToFrequency] gives for a name that is not a note name: a
    throw, or [NaN] when the letters name a property that [noteMap]
    inherits. *)
Lemma noteToFrequency_invalid (v : JsValue) :
  isValidNoteName v = false ->
  (exists e, noteToFrequency v = Throw e) \/ noteToFrequency v = Normal None.
Proof.
  intros Hinvalid. unfold noteToFrequency.
  destruct (noteSemitones v) as [[st|]|e] eqn:Hsem.
  - apply noteSemitones_Some_valid in Hsem. congruence.
  - right. reflexivity.
  - left. eauto.
Qed.

(** The voice [playNote] schedules for a frequency. *)
Definition voiceOf (hz : R) (start : float) (wave : string) : Event :=
  Voice (mkVoice hz wave start
           (start + AUDIO_CONFIG.ENVELOPE_ATTACK)%float
           (start + AUDIO_CONFIG.ENVELOPE_DECAY)%float
           (start + AUDIO_CONFIG.ENVELOPE_DECAY)%float).

Lemma playNoteEvents_voice name hz start wave (w : World) ctx gain :
  audioContext w = Some ctx -> volumeNode w = Some gain ->
  noteToFrequency name = Normal (Some hz) ->
  playNoteEvents name start wave w = [voiceOf hz start wave].
Proof.
  intros Hctx Hgain Hfreq. unfold playNoteEvents.
  rewrite Hctx, Hfreq, Hgain. reflexivity.
Qed.

(** What the notes of the current column wrote is in the log after the
    step, however the step ends. *)
Lemma rowEvents_in_log (w : World) (row : nat) (ev : Event) :
  isPlaying w = true ->
  length (gridState w) = length (notes w) ->
  (row < length (notes w))%nat ->
  In ev (rowEvents (currentTime w) (waveSelect w)
           (set_volumeNode (ensuredVolume w) (set_audioContext (Some running) w)) row) ->
  In ev (log (exec playbackStep w)).
Proof.
  intros Hplay Hrows Hrow Hev.
  assert (Hnotes : In ev (log (afterNotes w))).
  { unfold afterNotes. cbn [log set_log]. apply in_or_app. right.
    apply in_flat_map. exists row. split; [apply in_seq; lia|exact Hev]. }
  assert (Hadv : In ev (log (afterAdvance w))).
  { unfold afterAdvance, highlighted. cbn [log set_log set_currentColumn].
    apply in_or_app. left. apply in_or_app. left. exact Hnotes. }
  unfold exec. rewrite playbackStep_playing by assumption.
  destruct (calculateNoteDuration _ _); exact Hadv.
Qed.

(** C9. A name that is not a note name (not a string, empty, letters that
    are no pitch class, an octave that is no digit from 0 to 8) makes
    [playNote] return normally: it schedules no voice, and writes one
    console error and one notification. The step that called it goes on:
    it throws only if the tempo is out of range, it advances the cursor, and
    every active row of the column whose name has a frequency gets its
    voice, at the time and with the waveform of the step. *)
Theorem invalid_note_is_skipped (v : JsValue) :
  isValidNoteName v = false ->
  (forall start wave (w : World),
      exists e,
        playNote v start wave w
        = (Normal tt, set_log (log w ++ playNoteFailure v e) w))
  /\ (forall (w : World) (bad : nat) (badCells : list bool),
      isPlaying w = true ->
      length (gridState w) = length (notes w) ->
      (audioContext w <> None -> volumeNode w <> None) ->
      notes w !! bad = Some v ->
      gridState w !! bad = Some badCells ->
      arrayGet badCells (currentColumn w) = Some true ->
      completion playbackStep w
      = match calculateNoteDuration (toNumber (parseInt (tempoInput w)))
                AUDIO_CONFIG.NOTE_SUBDIVISION with
        | Normal _ => Normal tt
        | Throw e => Throw e
        end
      /\ currentColumn (exec playbackStep w)
         = Z.rem (currentColumn w + 1) (cols w)
      /\ In (ShowNotification ("Failed to play note " ++ toString v)%string "error")
           (log (exec playbackStep w))
      /\ forall (row : nat) (cells : list bool) (name : JsValue) (hz : R),
          notes w !! row = Some name ->
          gridState w !! row = Some cells ->
          arrayGet cells (currentColumn w) = Some true ->
          noteToFrequency name = Normal (Some hz) ->
          In (voiceOf hz (currentTime w) (waveSelect w)) (log (exec playbackStep w))).
Proof.
  intros Hinvalid.
  assert (Hfail : forall start wave (w : World),
             exists e, playNoteEvents v start wave w = playNoteFailure v e).
  { intros start wave w. unfold playNoteEvents.
    destruct (audioContext w); [|eauto].
    destruct (noteToFrequency_invalid v Hinvalid) as [[e ->]| ->]; eauto. }
  split.
  - intros start wave w. destruct (Hfail start wave w) as [e He].
    exists e. rewrite playNote_eq, He. reflexivity.
  - intros w bad badCells Hplay Hrows Haudio Hbad HbadCells Hactive.
    split; [|split; [|split]].
    + unfold completion. rewrite playbackStep_playing by assumption.
      destruct (calculateNoteDuration _ _); reflexivity.
    + unfold exec. rewrite playbackStep_playing by assumption.
      destruct (calculateNoteDuration _ _); reflexivity.
    + apply (rowEvents_in_log w bad); try assumption.
      { apply lookup_lt_Some in Hbad. exact Hbad. }
      unfold rowEvents. cbn [gridState notes currentColumn set_volumeNode set_audioContext].
      rewrite HbadCells, Hactive, Hbad. cbn [default from_option]. unfold id.
      destruct (Hfail (currentTime w) (waveSelect w)
                  (set_volumeNode (ensuredVolume w) (set_audioContext (Some running) w)))
        as [e He].
      assert (Hin : In (ShowNotification ("Failed to play note " ++ toString v)%string "error")
                      (playNoteFailure v e)) by (right; left; reflexivity).
      rewrite <- He in Hin. exact Hin.
    + intros row cells name hz Hname Hcells Hon Hfreq.
      apply (rowEvents_in_log w row); try assumption.
      { apply lookup_lt_Some in Hname. exact Hname. }
      unfold rowEvents. cbn [gridState notes currentColumn set_volumeNode set_audioContext].
      rewrite Hcells, Hon, Hname. cbn [default from_option]. unfold id.
      assert (Hvol : exists gain, ensuredVolume w = Some gain).
      { unfold ensuredVolume. destruct (audioContext w) eqn:Hctx; [|eauto].
        destruct (volumeNode w) eqn:Hvol; [eauto|].
        exfalso. apply Haudio; congruence. }
      destruct Hvol as [gain Hgain].
      assert (Hin : In (voiceOf hz (currentTime w) (waveSelect w))
                      (playNoteEvents name (currentTime w) (waveSelect w)
                         (set_volumeNode (ensuredVolume w)
                            (set_audioContext (Some running) w)))).
      { rewrite (playNoteEvents_voice name hz _ _ _ running gain);
          [left; reflexivity|reflexivity|exact Hgain|exact Hfreq]. }
      exact Hin.
Qed.

(** The demonstration grid with a name that is no note on its first row. *)
Definition demoWorldBadNote : World :=
  mkWorld true 0 None 4 [JsString "H4"; JsString "B3"]
    [[true; false; true; false]; [true; true; false; false]]
    (renderedGrid demoGridState) (renderedRuler 4)
    "120" "sine" "Stop" None None running 0%float [] 1%nat [].

Lemma invalid_note_is_skipped_witness :
  isValidNoteName (JsString "H4") = false
  /\ isPlaying demoWorldBadNote = true
  /\ completion playbackStep demoWorldBadNote = Normal tt.
Proof.
  split; [reflexivity|]. split; [reflexivity|].
  destruct (invalid_note_is_skipped (JsString "H4") eq_refl) as [_ Hstep].
  destruct (Hstep demoWorldBadNote 0%nat [true; false; true; false]
              eq_refl eq_refl ltac:(intros H; exfalso; apply H; reflexivity)
              eq_refl eq_refl eq_refl) as (Hdone & _).
  rewrite Hdone. vm_compute. reflexivity.
Defined.

(** ** The single-file script *)

(** The script that the modular controller replaced keeps its state in the
    variables of [main]; it is the one that listens to the [change] event of
    the tempo control. *)
Module Legacy.

#[projections(primitive)]
Record World : Type := mkWorld {
  ROWS : Z;
  COLS : Z;
  gridState : list (list bool);     (* gridRefs.gridState *)
  gridInner : list Element;         (* gridRefs.gridInner.children *)
  ruler : list Element;             (* gridRefs.ruler.children *)
  tempoInput : string;              (* tempoInput.value *)
  waveSelect : string;              (* waveSelect.value *)
  playButton : string;              (* playButton.textContent *)
  controlsDisabled : bool;          (* clearButton, randomiseButton *)
  audioContext : option AudioContextState;
  isPlaying : bool;
  currentColumn : Z;
  timerId : option nat;
  newContextState : AudioContextState;
  currentTime : float;
  timers : list Timer;
  nextTimerId : nat;
  log : list Event
}.

Definition set_gridInner (x : list Element) (w : World) : World :=
  mkWorld (ROWS w) (COLS w) (gridState w) x (ruler w) (tempoInput w)
    (waveSelect w) (playButton w) (controlsDisabled w) (audioContext w)
    (isPlaying w) (currentColumn w) (timerId w) (newContextState w)
    (currentTime w) (timers w) (nextTimerId w) (log w).
Definition set_ruler (x : list Element) (w : World) : World :=
  mkWorld (ROWS w) (COLS w) (gridState w) (gridInner w) x (tempoInput w)
    (waveSelect w) (playButton w) (controlsDisabled w) (audioContext w)
    (isPlaying w) (currentColumn w) (timerId w) (newContextState w)
    (currentTime w) (timers w) (nextTimerId w) (log w).
Definition set_tempoInput (x : string) (w : World) : World :=
  mkWorld (ROWS w) (COLS w) (gridState w) (gridInner w) (ruler w) x
    (waveSelect w) (playButton w) (controlsDisabled w) (audioContext w)
    (isPlaying w) (currentColumn w) (timerId w) (newContextState w)
    (currentTime w) (timers w) (nextTimerId w) (log w).
Definition set_playButton (x : string) (w : World) : World :=
  mkWorld (ROWS w) (COLS w) (gridState w) (gridInner w) (ruler w)
    (tempoInput w) (waveSelect w) x (controlsDisabled w) (audioContext w)
    (isPlaying w) (currentColumn w) (timerId w) (newContextState w)
    (currentTime w) (timers w) (nextTimerId w) (log w).
Definition set_controlsDisabled (x : bool) (w : World) : World :=
  mkWorld (ROWS w) (COLS w) (gridState w) (gridInner w) (ruler w)
    (tempoInput w) (waveSelect w) (playButton w) x (audioContext w)
    (isPlaying w) (currentColumn w) (timerId w) (newContextState w)
    (currentTime w) (timers w) (nextTimerId w) (log w).
Definition set_audioContext (x : option AudioContextState) (w : World) : World :=
  mkWorld (ROWS w) (COLS w) (gridState w) (gridInner w) (ruler w)
    (tempoInput w) (waveSelect w) (playButton w) (controlsDisabled w) x
    (isPlaying w) (currentColumn w) (timerId w) (newContextState w)
    (currentTime w) (timers w) (nextTimerId w) (log w).
Definition set_isPlaying (x : bool) (w : World) : World :=
  mkWorld (ROWS w) (COLS w) (gridState w) (gridInner w) (ruler w)
    (tempoInput w) (waveSelect w) (playButton w) (controlsDisabled w)
    (audioContext w) x (currentColumn w) (timerId w) (newContextState w)
    (currentTime w) (timers w) (nextTimerId w) (log w).
Definition set_currentColumn (x : Z) (w : World) : World :=
  mkWorld (ROWS w) (COLS w) (gridState w) (gridInner w) (ruler w)
    (tempoInput w) (waveSelect w) (playButton w) (controlsDisabled w)
    (audioContext w) (isPlaying w) x (timerId w) (newContextState w)
    (currentTime w) (timers w) (nextTimerId w) (log w).
Definition set_timerId (x : option nat) (w : World) : World :=
  mkWorld (ROWS w) (COLS w) (gridState w) (gridInner w) (ruler w)
    (tempoInput w) (waveSelect w) (playButton w) (controlsDisabled w)
    (audioContext w) (isPlaying w) (currentColumn w) x (newContextState w)
    (currentTime w) (timers w) (nextTimerId w) (log w).
Definition set_timers (x : list Timer) (w : World) : World :=
  mkWorld (ROWS w) (COLS w) (gridState w) (gridInner w) (ruler w)
    (tempoInput w) (waveSelect w) (playButton w) (controlsDisabled w)
    (audioContext w) (isPlaying w) (currentColumn w) (timerId w)
    (newContextState w) (currentTime w) x (nextTimerId w) (log w).
Definition set_nextTimerId (x : nat) (w : World) : World :=
  mkWorld (ROWS w) (COLS w) (gridState w) (gridInner w) (ruler w)
    (tempoInput w) (waveSelect w) (playButton w) (controlsDisabled w)
    (audioContext w) (isPlaying w) (currentColumn w) (timerId w)
    (newContextState w) (currentTime w) (timers w) x (log w).
Definition set_log (x : list Event) (w : World) : World :=
  mkWorld (ROWS w) (COLS w) (gridState w) (gridInner w) (ruler w)
    (tempoInput w) (waveSelect w) (playButton w) (controlsDisabled w)
    (audioContext w) (isPlaying w) (currentColumn w) (timerId w)
    (newContextState w) (currentTime w) (timers w) (nextTimerId w) x.

Definition setTimeout (ms : float) : M World nat :=
  w <- get ;;
  let id := nextTimerId w in
  modify (fun w => set_nextTimerId (S id) (set_timers (timers w ++ [mkTimer id ms]) w)) ;;
  ret id.

Definition clearTimeout (id : option nat) : M World unit :=
  match id with
  | None => ret tt
  | Some i =>
      modify (fun w =>
        set_timers (filter (fun t => handle t <> i) (timers w)) w)
  end.

(** [ensureAudioContext()] of the script: it only creates the context. *)
Definition ensureAudioContext : M World unit :=
  w <- get ;;
  match audioContext w with
  | None => modify (set_audioContext (Some (newContextState w)))
  | Some _ => ret tt
  end.

(** [getColumnDurationMs()]: [parseInt(tempoInput?.value) || 120], then
    [60_000 / bpm / 4]. [NaN] and 0 are the falsy numbers. *)
Definition getColumnDurationMs : M World float :=
  w <- get ;;
  let parsed := parseInt (tempoInput w) in
  let bpm :=
    match parsed with
    | None => 120%float
    | Some 0 => 120%float
    | Some n => floatOfZ n
    end in
  ret (60000 / bpm / 4)%float.

Definition baseFrequency : R := (6541 / 100)%R.

(** [getFrequencyForRow(row)]: [semitoneSteps[row] || 0]. *)
Definition getFrequencyForRow (row : Z) : R :=
  let semitoneSteps := [12; 11; 9; 7; 5; 4; 2; 0] in
  let step := match arrayGet semitoneSteps row with
              | Some s => s
              | None => 0
              end in
  (baseFrequency * Rpower 2 (IZR step / 12))%R.

(** [playNoteAt(row, time)]: [waveSelect?.value || "sine"]. *)
Definition playNoteAt (row : Z) (time : float) : M World unit :=
  w <- get ;;
  let frequency := getFrequencyForRow row in
  let waveForm := if String.eqb (waveSelect w) "" then "sine" else waveSelect w in
  modify (fun w =>
    set_log (log w ++ [Voice (mkVoice frequency waveForm time
                                (time + 0.01)%float (time + 0.25)%float
                                (time + 0.3)%float)]) w).

(** [children[i]] of an index that is negative or past the end is
    [undefined], and the [if (cell)] skips it. *)
Definition toggleAt (i : Z) (on : bool) (l : list Element) : list Element :=
  if i <? 0 then l else alter (setPlayingCol on) (Z.to_nat i) l.

(** [highlightColumn(col, on)] *)
Definition highlightColumn (col : Z) (on : bool) : M World unit :=
  w <- get ;;
  forEach (upTo (ROWS w)) (fun r =>
    let cellIndex := r * COLS w + col in
    modify (fun w => set_gridInner (toggleAt cellIndex on (gridInner w)) w)) ;;
  modify (fun w => set_ruler (toggleAt col on (ruler w)) w).

(** [playbackStep()] *)
Definition playbackStep : M World unit :=
  w <- get ;;
  match isPlaying w, audioContext w with
  | true, Some _ =>
      let now := currentTime w in
      forEach (upTo (ROWS w)) (fun r =>
        w <- get ;;
        match arrayGet (gridState w) r with
        | None => throw (TypeError "Cannot read properties of undefined")
        | Some cells =>
            match arrayGet cells (currentColumn w) with
            | Some true => playNoteAt r now
            | _ => ret tt
            end
        end) ;;
      w <- get ;;
      highlightColumn (currentColumn w) true ;;
      w <- get ;;
      let prevColumn := Z.rem (currentColumn w - 1 + COLS w) (COLS w) in
      highlightColumn prevColumn false ;;
      w <- get ;;
      modify (set_currentColumn (Z.rem (currentColumn w + 1) (COLS w))) ;;
      ms <- getColumnDurationMs ;;
      id <- setTimeout ms ;;
      modify (set_timerId (Some id))
  | _, _ => ret tt
  end.

(** [setControlsDisabled(disabled)] *)
Definition setControlsDisabled (disabled : bool) : M World unit :=
  modify (set_controlsDisabled disabled).

(** [startPlayback()] *)
Definition startPlayback : M World unit :=
  ensureAudioContext ;;
  w <- get ;;
  (match audioContext w with
   | Some suspended => modify (set_audioContext (Some running))
   | _ => ret tt
   end) ;;
  w <- get ;;
  if isPlaying w then ret tt
  else
    modify (set_isPlaying true) ;;
    modify (set_playButton "Stop") ;;
    setControlsDisabled true ;;
    modify (set_currentColumn 0) ;;
    playbackStep.

(** [stopPlayback()] *)
Definition stopPlayback : M World unit :=
  w <- get ;;
  if negb (isPlaying w) then ret tt
  else
    modify (set_isPlaying false) ;;
    modify (set_playButton "Play") ;;
    w <- get ;;
    clearTimeout (timerId w) ;;
    forEach (upTo (COLS w)) (fun c => highlightColumn c false) ;;
    setControlsDisabled false.

(** The listener of the play button. *)
Definition playButtonClick : M World unit :=
  w <- get ;;
  if isPlaying w then stopPlayback else startPlayback.

(** The listener of the [change] event of the tempo control. *)
Definition tempoChanged : M World unit :=
  w <- get ;;
  if isPlaying w
  then clearTimeout (timerId w) ;; playbackStep
  else ret tt.

(** The host runs the callback of the pending timer [h]. *)
Definition fireTimer (h : nat) : M World unit :=
  w <- get ;;
  if existsb (fun t => Nat.eqb (handle t) h) (timers w)
  then
    modify (fun w => set_timers (filter (fun t => handle t <> h) (timers w)) w) ;;
    playbackStep
  else ret tt.

(** Eight rows by sixteen columns, playing at 120 BPM with the cursor on
    column 1 and the timer 7 pending. *)
Definition demoPlaying : World :=
  mkWorld 8 16
    (repeat (repeat false 16) 8)
    (renderedGrid (repeat (repeat false 16) 8)) (renderedRuler 16)
    "90" "sine" "Stop" true (Some running) true 1 (Some 7%nat)
    running 0%float [mkTimer 7 125%float] 8%nat [].

End Legacy.

Section LegacyFacts.
Import Legacy.

(** The grid after [highlightColumn(col, on)] of the script. *)
Definition legacyHighlightedGrid (col : Z) (on : bool) (w : World) : list Element :=
  fold_left (fun cells r => toggleAt (r * COLS w + col) on cells)
    (upTo (ROWS w)) (gridInner w).

Definition legacyHighlighted (col : Z) (on : bool) (w : World) : World :=
  set_ruler (toggleAt col on (ruler w))
    (set_gridInner (legacyHighlightedGrid col on w) w).

Lemma legacy_fold_set_gridInner (f : Z -> list Element -> list Element) l (w : World) :
  fold_left (fun w r => set_gridInner (f r (gridInner w)) w) l w
  = set_gridInner (fold_left (fun cells r => f r cells) l (gridInner w)) w.
Proof.
  revert w; induction l as [|x l IH]; intros w; simpl; [reflexivity|].
  rewrite IH. reflexivity.
Qed.

Lemma legacy_highlightColumn_eq col on (w : World) :
  highlightColumn col on w = (Normal tt, legacyHighlighted col on w).
Proof.
  unfold highlightColumn, bind at 1, get at 1. unfold bind at 1.
  rewrite (forEach_modify
    (fun r w0 => set_gridInner (toggleAt (r * COLS w + col) on (gridInner w0)) w0)).
  rewrite (legacy_fold_set_gridInner (fun r cells => toggleAt (r * COLS w + col) on cells)).
  reflexivity.
Qed.

(** The body of the loop over the rows in the script's [playbackStep]. *)
Definition legacyPlayRow (now : float) (r : Z) : M World unit :=
  w <- get ;;
  match arrayGet (gridState w) r with
  | None => throw (TypeError "Cannot read properties of undefined")
  | Some cells =>
      match arrayGet cells (currentColumn w) with
      | Some true => playNoteAt r now
      | _ => ret tt
      end
  end.

Definition legacyVoice (r : Z) (now : float) (w : World) : Event :=
  Voice (mkVoice (getFrequencyForRow r)
           (if String.eqb (waveSelect w) "" then "sine" else waveSelect w)
           now (now + 0.01)%float (now + 0.25)%float (now + 0.3)%float).

Definition legacyRowEvents (now : float) (w : World) (r : Z) : list Event :=
  match arrayGet (gridState w) r with
  | Some cells =>
      match arrayGet cells (currentColumn w) with
      | Some true => [legacyVoice r now w]
      | _ => []
      end
  | None => []
  end.

Lemma legacy_playRows_eq now (rows : list Z) (w : World) :
  Forall (fun r => arrayGet (gridState w) r <> None) rows ->
  forEach rows (legacyPlayRow now) w
  = (Normal tt, set_log (log w ++ flat_map (legacyRowEvents now w) rows) w).
Proof.
  revert w; induction rows as [|r rows IH]; intros w Hrows.
  - simpl. rewrite app_nil_r. reflexivity.
  - apply Forall_cons in Hrows as [Hr Hrows].
    cbn [forEach flat_map]. unfold bind at 1, legacyPlayRow at 1, bind at 1, get at 1.
    unfold legacyRowEvents at 1.
    destruct (arrayGet (gridState w) r) as [cells|]; [|congruence].
    assert (Hstep : forall evs,
      forEach rows (legacyPlayRow now) (set_log (log w ++ evs) w)
      = (Normal tt,
         set_log (log w ++ evs ++ flat_map (legacyRowEvents now w) rows) w)).
    { intros evs. rewrite IH by exact Hrows. cbn [log set_log].
      rewrite <- app_assoc. reflexivity. }
    destruct (arrayGet cells (currentColumn w)) as [[|]|].
    + unfold playNoteAt, bind, get, modify. apply Hstep.
    + unfold ret. rewrite <- (Hstep []). rewrite app_nil_r. reflexivity.
    + unfold ret. rewrite <- (Hstep []). rewrite app_nil_r. reflexivity.
Qed.

Definition legacyColumnDuration (w : World) : float :=
  (60000 / match parseInt (tempoInput w) with
           | None => 120
           | Some 0 => 120
           | Some n => floatOfZ n
           end / 4)%float.

Definition legacyAfterNotes (w : World) : World :=
  set_log (log w ++ flat_map (legacyRowEvents (currentTime w) w) (upTo (ROWS w))) w.

Definition legacyAfterAdvance (w : World) : World :=
  set_currentColumn (Z.rem (currentColumn w + 1) (COLS w))
    (legacyHighlighted (Z.rem (currentColumn w - 1 + COLS w) (COLS w)) false
       (legacyHighlighted (currentColumn w) true (legacyAfterNotes w))).

Definition legacyArmed (ms : float) (w : World) : World :=
  set_timerId (Some (nextTimerId w))
    (set_nextTimerId (S (nextTimerId w))
       (set_timers (timers w ++ [mkTimer (nextTimerId w) ms]) w)).

(** A step of the script, with the context created and a row for every
    [r < ROWS]: it never throws. *)
Lemma legacy_playbackStep_playing (w : World) ctx :
  isPlaying w = true ->
  audioContext w = Some ctx ->
  Forall (fun r => arrayGet (gridState w) r <> None) (upTo (ROWS w)) ->
  playbackStep w
  = (Normal tt, legacyArmed (legacyColumnDuration w) (legacyAfterAdvance w)).
Proof.
  intros Hplay Hctx Hrows.
  unfold playbackStep, bind at 1, get at 1. rewrite Hplay, Hctx.
  unfold bind at 1.
  change (forEach _ _ w) with (forEach (upTo (ROWS w)) (legacyPlayRow (currentTime w)) w).
  rewrite legacy_playRows_eq by exact Hrows.
  change (set_log _ w) with (legacyAfterNotes w).
  unfold bind at 1, get at 1. unfold bind at 1.
  rewrite legacy_highlightColumn_eq.
  unfold bind at 1, get at 1. unfold bind at 1.
  rewrite legacy_highlightColumn_eq.
  unfold bind at 1, get at 1. unfold bind at 1, modify at 1.
  reflexivity.
Qed.

Lemma legacy_clearTimeout_eq (id : option nat) (w : World) :
  clearTimeout id w
  = (Normal tt,
     set_timers
       (match id with
        | Some i => filter (fun t => handle t <> i) (timers w)
        | None => timers w
        end) w).
Proof. destruct id; reflexivity. Qed.









End LegacyFacts.

(** ** Further properties of the note utilities *)

Lemma isValidNoteName_inv (v : JsValue) :
  isValidNoteName v = true ->
  exists pc idx octave,
    In (pc, idx) noteMap /\ 0 <= octave <= 8
    /\ v = JsString (pc ++ digitChar octave)%string.
Proof.
  destruct v as [| |b|n|s]; try discriminate. unfold isValidNoteName.
  intros H. apply existsb_exists in H as ([pc idx] & Hpc & H).
  apply existsb_exists in H as (octave & Hoct & H).
  apply String.eqb_eq in H. cbn [fst] in H.
  apply list_elem_of_In, elem_of_upTo in Hoct.
  exists pc, idx, octave. split; [exact Hpc|]. split; [lia|]. congruence.
Qed.

Lemma noteToFrequency_of_name (pc : string) (idx octave : Z) :
  In (pc, idx) noteMap -> 0 <= octave <= 8 ->
  noteToFrequency (JsString (pc ++ digitChar octave)%string)
  = Normal (Some (440 * Rpower 2 (IZR ((octave - 4) * 12 + idx - 9) / 12))%R).
Proof.
  intros Hpc Hoct. unfold noteToFrequency.
  rewrite (noteSemitones_valid pc idx octave Hpc Hoct). reflexivity.
Qed.

(** [noteToFrequency] returns a frequency, and then a positive one, exactly
    for the names made of a pitch class of [noteMap] and an octave digit
    from 0 to 8. For every other value it throws or returns [NaN]. *)
Theorem noteToFrequency_defined_iff_valid (v : JsValue) :
  ((exists hz, noteToFrequency v = Normal (Some hz)) <-> isValidNoteName v = true)
  /\ (forall hz, noteToFrequency v = Normal (Some hz) -> (0 < hz)%R).
Proof.
  split; [split|].
  - intros [hz H]. unfold noteToFrequency in H.
    destruct (noteSemitones v) as [[st|]|e] eqn:Hsem; try discriminate.
    apply (noteSemitones_Some_valid v st Hsem).
  - intros H. apply isValidNoteName_inv in H as (pc & idx & octave & Hpc & Hoct & ->).
    eexists. apply (noteToFrequency_of_name pc idx octave Hpc Hoct).
  - intros hz H. unfold noteToFrequency in H.
    destruct (noteSemitones v) as [[st|]|e]; try discriminate.
    injection H as <-. apply frequency_positive.
Qed.

Definition semitonesIsNaN (c : Completion (option Z)) : bool :=
  match c with
  | Normal None => true
  | _ => false
  end.

Lemma inherited_names_all :
  forallb (fun key =>
    forallb (fun octave =>
      semitonesIsNaN (noteSemitones (JsString (key ++ digitChar octave)%string)))
      (upTo 9))
    objectPrototypeKeys = true.
Proof. vm_compute. reflexivity. Qed.

(** The [in] test of [noteToFrequency] accepts what [noteMap] inherits from
    [Object.prototype]: for such letters ([toString], [constructor], ...)
    followed by an octave digit from 0 to 8 the function does not throw, it
    returns [NaN]; [playNote] then fails on the frequency and reports it. *)
Theorem noteToFrequency_inherited_key_is_NaN (key : string) (octave : Z) :
  In key objectPrototypeKeys ->
  0 <= octave <= 8 ->
  noteToFrequency (JsString (key ++ digitChar octave)%string) = Normal None
  /\ forall start wave (w : World) ctx,
      audioContext w = Some ctx ->
      playNote (JsString (key ++ digitChar octave)%string) start wave w
      = (Normal tt,
         set_log (log w ++
           playNoteFailure (JsString (key ++ digitChar octave)%string)
             (TypeError "The provided float value is non-finite")) w).
Proof.
  intros Hkey Hoct.
  assert (Hnan : noteToFrequency (JsString (key ++ digitChar octave)%string) = Normal None).
  { pose proof inherited_names_all as Hall.
    rewrite forallb_forall in Hall. specialize (Hall key Hkey).
    rewrite forallb_forall in Hall.
    specialize (Hall octave ltac:(apply list_elem_of_In, elem_of_upTo; lia)).
    unfold noteToFrequency.
    destruct (noteSemitones _) as [[st|]|e]; try discriminate. reflexivity. }
  split; [exact Hnan|].
  intros start wave w ctx Hctx. rewrite playNote_eq. unfold playNoteEvents.
  rewrite Hctx, Hnan. reflexivity.
Qed.

Lemma noteToFrequency_inherited_key_is_NaN_witness :
  In "toString" objectPrototypeKeys
  /\ 0 <= 4 <= 8
  /\ noteToFrequency (JsString "toString4") = Normal None.
Proof.
  assert (Hin : In "toString" objectPrototypeKeys) by (simpl; tauto).
  split; [exact Hin|]. split; [lia|].
  apply (noteToFrequency_inherited_key_is_NaN "toString" 4 Hin ltac:(lia)).
Defined.





(** ** Further properties of the column duration *)

Definition durationBounded (bpm : Z) : bool :=
  PrimFloat.leb 15 (columnDurationOf bpm) && PrimFloat.leb (columnDurationOf bpm) 15000.

Definition durationsDecrease (slow fast : Z) : bool :=
  if slow <? fast
  then PrimFloat.ltb (columnDurationOf fast) (columnDurationOf slow)
  else true.

Lemma durations_checked :
  forallb (fun slow =>
    durationBounded slow && forallb (durationsDecrease slow) tempoRange)
    tempoRange = true.
Proof. vm_compute. reflexivity. Qed.

(** Between 1 and 1000 BPM a faster tempo gives a strictly shorter column:
    the duration falls from 15000 ms at 1 BPM to 15 ms at 1000 BPM and
    stays between the two. *)
Theorem calculateNoteDuration_decreases (slow fast : Z) :
  1 <= slow -> slow < fast -> fast <= 1000 ->
  calculateNoteDuration (floatOfZ slow) AUDIO_CONFIG.NOTE_SUBDIVISION
  = Normal (columnDurationOf slow)
  /\ calculateNoteDuration (floatOfZ fast) AUDIO_CONFIG.NOTE_SUBDIVISION
     = Normal (columnDurationOf fast)
  /\ PrimFloat.ltb (columnDurationOf fast) (columnDurationOf slow) = true
  /\ PrimFloat.leb 15 (columnDurationOf fast) = true
  /\ PrimFloat.leb (columnDurationOf slow) 15000 = true
  /\ columnDurationOf 1 = 15000%float
  /\ columnDurationOf 1000 = 15%float.
Proof.
  intros Hlo Hlt Hhi.
  pose proof durations_checked as Hall. rewrite forallb_forall in Hall.
  pose proof (Hall slow (tempoRange_complete slow ltac:(lia))) as Hslow.
  pose proof (Hall fast (tempoRange_complete fast ltac:(lia))) as Hfast.
  apply andb_prop in Hslow as [Hbs Hdec]. apply andb_prop in Hfast as [Hbf _].
  rewrite forallb_forall in Hdec.
  specialize (Hdec fast (tempoRange_complete fast ltac:(lia))).
  unfold durationsDecrease in Hdec. rewrite (proj2 (Z.ltb_lt _ _) Hlt) in Hdec.
  apply andb_prop in Hbs as [_ Hs]. apply andb_prop in Hbf as [Hf _].
  split; [apply calculateNoteDuration_range; lia|].
  split; [apply calculateNoteDuration_range; lia|].
  split; [exact Hdec|]. split; [exact Hf|]. split; [exact Hs|].
  split; vm_compute; reflexivity.
Qed.

Lemma calculateNoteDuration_decreases_witness :
  1 <= 60 /\ 60 < 120 /\ 120 <= 1000
  /\ PrimFloat.ltb (columnDurationOf 120) (columnDurationOf 60) = true.
Proof.
  split; [lia|]. split; [lia|]. split; [lia|].
  apply (calculateNoteDuration_decreases 60 120 ltac:(lia) ltac:(lia) ltac:(lia)).
Defined.

(** The tempos outside 1..1000 that were tried: 0 down to -1000 and 1001
    up to 10000. *)
Definition rejectedTempos : list Z :=
  map (fun k => - Z.of_nat k) (seq 0 (Z.to_nat 1001))
  ++ map (fun k => 1001 + Z.of_nat k) (seq 0 (Z.to_nat 9000)).

Definition tempoRejected (bpm : Z) : bool :=
  negb (isNumberInRange (floatOfZ bpm) 1 1000).

Lemma rejectedTempos_all : forallb tempoRejected rejectedTempos = true.
Proof. vm_compute. reflexivity. Qed.

Lemma rejectedTempos_complete (bpm : Z) :
  (-1000 <= bpm <= 0 \/ 1001 <= bpm <= 10000) -> In bpm rejectedTempos.
Proof.
  intros H. unfold rejectedTempos. apply in_or_app. destruct H as [H|H].
  - left. apply in_map_iff. exists (Z.to_nat (- bpm)). split; [lia|].
    apply in_seq. lia.
  - right. apply in_map_iff. exists (Z.to_nat (bpm - 1001)). split; [lia|].
    apply in_seq. lia.
Qed.

(** [getColumnDurationMs] throws ["BPM must be a positive number"], and
    leaves the world as it is, when the tempo control shows no number
    ([parseInt] gives [NaN]), 0, a negative tempo or a tempo above 1000
    (checked from -1000 to 10000). *)
Theorem getColumnDurationMs_rejects (w : World) :
  (parseInt (tempoInput w) = None
   \/ exists bpm, parseInt (tempoInput w) = Some bpm
                  /\ (-1000 <= bpm <= 0 \/ 1001 <= bpm <= 10000)) ->
  getColumnDurationMs w = (Throw (Error "BPM must be a positive number"), w).
Proof.
  intros H. unfold getColumnDurationMs, bind, get, liftC.
  destruct H as [->|(bpm & -> & Hrange)].
  - reflexivity.
  - pose proof rejectedTempos_all as Hall. rewrite forallb_forall in Hall.
    specialize (Hall bpm (rejectedTempos_complete bpm Hrange)).
    unfold tempoRejected in Hall. unfold calculateNoteDuration.
    cbn [toNumber]. rewrite Hall. reflexivity.
Qed.

Lemma getColumnDurationMs_rejects_witness :
  parseInt (tempoInput (set_tempoInput "" demoWorld)) = None
  /\ completion getColumnDurationMs (set_tempoInput "" demoWorld)
     = Throw (Error "BPM must be a positive number").
Proof.
  split; [reflexivity|].
  unfold completion.
  rewrite (getColumnDurationMs_rejects (set_tempoInput "" demoWorld) (or_introl eq_refl)).
  reflexivity.
Defined.




(** ** One chain of timers *)

(** The worlds the running application goes through: the user starts,
    stops or toggles the playback, a pending timer fires, the tempo control
    moves, the audio clock advances. *)
Inductive driven : World -> Prop :=
| driven_initial w : initial w -> timers w = [] -> driven w
| driven_toggle w : driven w -> driven (exec togglePlayback w)
| driven_start w : driven w -> driven (exec startPlayback w)
| driven_stop w : driven w -> driven (exec stopPlayback w)
| driven_fire w h : driven w -> driven (exec (fireTimer h) w)
| driven_tempo w value : driven w -> driven (set_tempoInput value w)
| driven_clock w t : driven w -> driven (set_currentTime t w).

(** No timer is pending, or one is, its handle is the stored one and the
    session is playing. *)
Definition oneChain (w : World) : Prop :=
  timers w = []
  \/ exists h ms, timers w = [mkTimer h ms] /\ timerId w = Some h /\ isPlaying w = true.

Lemma togglePlayback_eq (w : World) :
  togglePlayback w = if isPlaying w then stopPlayback w else startPlayback w.
Proof. unfold togglePlayback, bind, get. destruct (isPlaying w); reflexivity. Qed.

Lemma fireTimer_eq (h : nat) (w : World) :
  fireTimer h w
  = if existsb (fun t => Nat.eqb (handle t) h) (timers w)
    then playbackStep (set_timers (filter (fun t => handle t <> h) (timers w)) w)
    else (Normal tt, w).
Proof.
  unfold fireTimer, bind at 1, get at 1. destruct (existsb _ _); reflexivity.
Qed.

Lemma filter_single_timer (h : nat) (ms : float) :
  filter (fun t => handle t <> h) [mkTimer h ms] = [].
Proof.
  rewrite filter_cons. cbn [handle].
  destruct (decide (h <> h)) as [Hne|_]; [congruence|reflexivity].
Qed.

Lemma oneChain_playbackStep (w : World) :
  length (gridState w) = length (notes w) ->
  timers w = [] -> oneChain (exec playbackStep w).
Proof.
  intros Hrows Hnone. unfold exec. destruct (isPlaying w) eqn:Hplay.
  - rewrite playbackStep_playing by assumption.
    destruct (calculateNoteDuration _ _) as [ms|e]; cbn [snd].
    + right. exists (nextTimerId w), ms.
      split; [|split; [reflexivity|exact Hplay]].
      change (timers w ++ [mkTimer (nextTimerId w) ms] = [mkTimer (nextTimerId w) ms]).
      rewrite Hnone. reflexivity.
    + left. exact Hnone.
  - rewrite playbackStep_stopped by exact Hplay. left. exact Hnone.
Qed.

Lemma oneChain_stopped (w : World) :
  oneChain w -> isPlaying w = false -> timers w = [].
Proof. intros [H|(h & ms & _ & _ & Hplay)] Hstop; [exact H|congruence]. Qed.

Lemma oneChain_startPlayback (w : World) :
  length (gridState w) = length (notes w) ->
  oneChain w -> oneChain (exec startPlayback w).
Proof.
  intros Hrows Hchain. unfold exec. destruct (isPlaying w) eqn:Hplay.
  - rewrite startPlayback_playing by exact Hplay. exact Hchain.
  - rewrite startPlayback_stopped by exact Hplay.
    apply (oneChain_playbackStep (started w)); [exact Hrows|].
    apply (oneChain_stopped w Hchain Hplay).
Qed.

Lemma oneChain_stopPlayback (w : World) :
  oneChain w -> timers (exec stopPlayback w) = [].
Proof.
  intros Hchain. unfold exec. destruct (isPlaying w) eqn:Hplay.
  - rewrite stopPlayback_playing by exact Hplay. cbn [snd].
    rewrite clearedColumns_timers. cbn [timers stopping set_playButton set_timers].
    destruct Hchain as [Hnone|(h & ms & Hone & Hid & _)].
    + rewrite Hnone. destruct (timerId w); reflexivity.
    + rewrite Hid, Hone. apply filter_single_timer.
  - rewrite stopPlayback_stopped by exact Hplay.
    apply (oneChain_stopped w Hchain Hplay).
Qed.

Lemma oneChain_fireTimer (h : nat) (w : World) :
  length (gridState w) = length (notes w) ->
  oneChain w -> oneChain (exec (fireTimer h) w).
Proof.
  intros Hrows Hchain. unfold exec. rewrite fireTimer_eq.
  destruct (existsb _ (timers w)) eqn:Hpending; [|exact Hchain].
  apply (oneChain_playbackStep (set_timers _ w)); [exact Hrows|].
  cbn [timers set_timers].
  destruct Hchain as [Hnone|(h' & ms & Hone & _ & _)].
  - rewrite Hnone. reflexivity.
  - rewrite Hone in *. cbn [existsb handle] in Hpending.
    rewrite orb_false_r in Hpending. apply Nat.eqb_eq in Hpending. subst h'.
    apply filter_single_timer.
Qed.

Lemma inv_fireTimer (h : nat) (w : World) :
  sequencerInv w -> sequencerInv (exec (fireTimer h) w).
Proof.
  intros Hinv. unfold exec. rewrite fireTimer_eq.
  destruct (existsb _ (timers w)); [|exact Hinv].
  apply (inv_playbackStep (set_timers _ w)).
  destruct Hinv as [H1 H2 H3 H4 H5 H6 H7]. constructor; assumption.
Qed.

Lemma inv_togglePlayback (w : World) :
  sequencerInv w -> sequencerInv (exec togglePlayback w).
Proof.
  intros Hinv. unfold exec. rewrite togglePlayback_eq.
  destruct (isPlaying w); [apply inv_stopPlayback|apply inv_startPlayback]; exact Hinv.
Qed.

Lemma driven_inv (w : World) : driven w -> sequencerInv w /\ oneChain w.
Proof.
  induction 1 as [w Hinit Hnone|w _ [Hinv Hchain]|w _ [Hinv Hchain]|w _ [Hinv Hchain]
                 |w h _ [Hinv Hchain]|w value _ [Hinv Hchain]|w t _ [Hinv Hchain]].
  - split; [apply inv_initial, Hinit|left; exact Hnone].
  - split; [apply inv_togglePlayback, Hinv|].
    unfold exec. rewrite togglePlayback_eq. destruct (isPlaying w) eqn:Hplay.
    + left. apply (oneChain_stopPlayback w Hchain).
    + apply (oneChain_startPlayback w (inv_rows w Hinv) Hchain).
  - split; [apply inv_startPlayback, Hinv|].
    apply (oneChain_startPlayback w (inv_rows w Hinv) Hchain).
  - split; [apply inv_stopPlayback, Hinv|].
    left. apply (oneChain_stopPlayback w Hchain).
  - split; [apply inv_fireTimer, Hinv|].
    apply (oneChain_fireTimer h w (inv_rows w Hinv) Hchain).
  - split; [|exact Hchain].
    destruct Hinv as [H1 H2 H3 H4 H5 H6 H7]. constructor; assumption.
  - split; [|exact Hchain].
    destruct Hinv as [H1 H2 H3 H4 H5 H6 H7]. constructor; assumption.
Qed.

Lemma demoWorld_driven : driven demoWorld.
Proof. apply driven_initial; [exact demoWorld_initial|reflexivity]. Qed.

(** However the user starts, stops and toggles the playback, moves the tempo
    and whichever timers fire, at most one [playbackStep] timer is pending;
    none is pending while the session is stopped; and a pending timer is the
    one whose handle [appState.timerId] holds, the one [stopPlayback] would
    cancel. *)
Theorem single_timer_chain (w : World) :
  driven w ->
  (length (timers w) <= 1)%nat
  /\ (isPlaying w = false -> timers w = [])
  /\ (forall t, In t (timers w) -> timerId w = Some (handle t))
  /\ timers (exec stopPlayback w) = [].
Proof.
  intros Hdriven. destruct (driven_inv w Hdriven) as [_ Hchain].
  split; [|split; [|split]].
  - destruct Hchain as [->|(h & ms & -> & _ & _)]; simpl; lia.
  - apply oneChain_stopped, Hchain.
  - intros t Hin. destruct Hchain as [Hnone|(h & ms & Hone & Hid & _)].
    + rewrite Hnone in Hin. destruct Hin.
    + rewrite Hone in Hin. destruct Hin as [<-|[]]. exact Hid.
  - apply oneChain_stopPlayback, Hchain.
Qed.

Lemma single_timer_chain_witness :
  driven (exec (fireTimer 1) (exec togglePlayback demoWorld))
  /\ (length (timers (exec (fireTimer 1) (exec togglePlayback demoWorld))) <= 1)%nat.
Proof.
  assert (Hdriven : driven (exec (fireTimer 1) (exec togglePlayback demoWorld))).
  { apply driven_fire, driven_toggle, demoWorld_driven. }
  split; [exact Hdriven|].
  apply (single_timer_chain _ Hdriven).
Defined.

(** [togglePlayback] flips the session: it starts a stopped session and
    stops a playing one. Two toggles of a stopped session leave it stopped,
    with no timer pending and no column highlighted. *)
Theorem togglePlayback_flips (w : World) :
  driven w ->
  isPlaying (exec togglePlayback w) = negb (isPlaying w)
  /\ (isPlaying w = false ->
      isPlaying (exec togglePlayback (exec togglePlayback w)) = false
      /\ timers (exec togglePlayback (exec togglePlayback w)) = []
      /\ forall c, columnHighlighted (exec togglePlayback (exec togglePlayback w)) c
                   = false).
Proof.
  intros Hdriven. destruct (driven_inv w Hdriven) as [Hinv Hchain].
  assert (Hflip : forall w0, sequencerInv w0 ->
            isPlaying (exec togglePlayback w0) = negb (isPlaying w0)).
  { intros w0 Hinv0. unfold exec. rewrite togglePlayback_eq.
    destruct (isPlaying w0) eqn:Hplay.
    - rewrite stopPlayback_playing by exact Hplay. cbn [snd].
      rewrite clearedColumns_isPlaying. reflexivity.
    - rewrite startPlayback_stopped by exact Hplay.
      rewrite playbackStep_playing by (try reflexivity; apply (inv_rows w0 Hinv0)).
      destruct (calculateNoteDuration _ _); reflexivity. }
  split; [apply Hflip, Hinv|].
  intros Hstop.
  pose proof (driven_toggle _ (driven_toggle w Hdriven)) as Hdriven2.
  destruct (driven_inv _ Hdriven2) as [Hinv2 Hchain2].
  assert (Hstop2 : isPlaying (exec togglePlayback (exec togglePlayback w)) = false).
  { rewrite Hflip by (apply inv_togglePlayback, Hinv).
    rewrite Hflip by exact Hinv. rewrite Hstop. reflexivity. }
  split; [exact Hstop2|]. split; [apply (oneChain_stopped _ Hchain2 Hstop2)|].
  intros c. destruct (columnHighlighted _ c) eqn:Hc; [|reflexivity].
  apply (inv_columnHighlighted _ _ Hinv2) in Hc as [Hplay _]. congruence.
Qed.

Lemma togglePlayback_flips_witness :
  driven demoWorld
  /\ isPlaying (exec togglePlayback demoWorld) = negb (isPlaying demoWorld).
Proof.
  split; [exact demoWorld_driven|].
  apply (togglePlayback_flips demoWorld demoWorld_driven).
Defined.

(** ** One pass over the grid, for any number of columns *)

Lemma mod_wrap (x C : Z) :
  0 <= x < 2 * C -> x mod C = if x <? C then x else x - C.
Proof.
  intros H. destruct (x <? C) eqn:Hlt.
  - apply Z.ltb_lt in Hlt. apply Z.mod_small. lia.
  - apply Z.ltb_ge in Hlt.
    replace x with (x - C + 1 * C) at 1 by lia.
    rewrite Z_mod_plus_full. apply Z.mod_small. lia.
Qed.

Lemma rotation_NoDup (c C : Z) :
  0 <= c < C ->
  NoDup (map (fun k => (c + Z.of_nat k) mod C) (seq 0 (Z.to_nat C))).
Proof.
  intros Hc. apply NoDup_fmap_2_strong; [|apply NoDup_seq].
  intros k1 k2 Hk1 Hk2 Heq.
  apply elem_of_seq in Hk1. apply elem_of_seq in Hk2.
  rewrite !mod_wrap in Heq by lia.
  destruct (c + Z.of_nat k1 <? C) eqn:H1; destruct (c + Z.of_nat k2 <? C) eqn:H2;
    try apply Z.ltb_lt in H1; try apply Z.ltb_ge in H1;
    try apply Z.ltb_lt in H2; try apply Z.ltb_ge in H2; lia.
Qed.

Lemma rotation_complete (c C col : Z) :
  0 <= c < C -> 0 <= col < C ->
  In col (map (fun k => (c + Z.of_nat k) mod C) (seq 0 (Z.to_nat C))).
Proof.
  intros Hc Hcol. apply in_map_iff.
  exists (Z.to_nat (if c <=? col then col - c else col - c + C)).
  destruct (c <=? col) eqn:Hle;
    [apply Z.leb_le in Hle|apply Z.leb_gt in Hle].
  - split; [|apply in_seq; lia].
    rewrite Z2Nat.id by lia. replace (c + (col - c)) with col by lia.
    apply Z.mod_small. lia.
  - split; [|apply in_seq; lia].
    rewrite Z2Nat.id by lia. replace (c + (col - c + C)) with (col + 1 * C) by lia.
    rewrite Z_mod_plus_full. apply Z.mod_small. lia.
Qed.

(** Whatever the number of columns, as many steps as there are columns
    visit every column exactly once (the columns visited are a
    rearrangement of 0 .. cols - 1, starting at the cursor and wrapping
    around) and bring the cursor back to the column it started on. *)
Theorem one_pass_visits_every_column_once (w : World) :
  isPlaying w = true ->
  ready w ->
  completion (runSteps (Z.to_nat (cols w))) w = Normal tt
  /\ Permutation (visitedColumns (Z.to_nat (cols w)) w) (upTo (cols w))
  /\ nth 0 (visitedColumns (Z.to_nat (cols w)) w) (-1) = currentColumn w
  /\ currentColumn (exec (runSteps (Z.to_nat (cols w))) w) = currentColumn w.
Proof.
  intros Hplay Hready.
  destruct (runSteps_ready (Z.to_nat (cols w)) w Hplay Hready)
    as (Hdone & Hend & Hvisited).
  pose proof (ready_cols w Hready) as HC. pose proof (ready_cursor w Hready) as Hcur.
  split; [exact Hdone|]. split; [|split].
  - rewrite Hvisited. apply NoDup_Permutation.
    + apply rotation_NoDup, Hcur.
    + unfold upTo. apply NoDup_fmap_2; [apply Nat2Z.inj'|apply NoDup_seq].
    + intros col. rewrite !list_elem_of_In. split.
      * intros Hin. apply in_map_iff in Hin as (k & <- & _).
        apply list_elem_of_In, elem_of_upTo, Z.mod_pos_bound, HC.
      * intros Hin. apply list_elem_of_In, elem_of_upTo in Hin.
        apply rotation_complete; assumption.
  - destruct (Z.to_nat (cols w)) as [|n] eqn:Hn; [lia|]. reflexivity.
  - rewrite Hend, Z2Nat.id by lia.
    replace (currentColumn w + cols w) with (currentColumn w + 1 * cols w) by lia.
    rewrite Z_mod_plus_full. apply Z.mod_small, Hcur.
Qed.

Lemma one_pass_visits_every_column_once_witness :
  isPlaying (exec startPlayback demoWorld) = true
  /\ ready (exec startPlayback demoWorld)
  /\ currentColumn (exec (runSteps (Z.to_nat (cols (exec startPlayback demoWorld))))
                      (exec startPlayback demoWorld))
     = currentColumn (exec startPlayback demoWorld).
Proof.
  split; [reflexivity|]. split; [exact demoWorld_started_ready|].
  apply (one_pass_visits_every_column_once (exec startPlayback demoWorld) eq_refl
           demoWorld_started_ready).
Defined.

(** ** What a step schedules *)

Lemma playNoteEvents_Voice_inv name start wave (w : World) (v : ScheduledVoice) :
  In (Voice v) (playNoteEvents name start wave w) ->
  noteToFrequency name = Normal (Some (frequency v))
  /\ startTime v = start /\ waveType v = wave
  /\ stopTime v = (start + AUDIO_CONFIG.ENVELOPE_DECAY)%float.
Proof.
  unfold playNoteEvents, playNoteFailure.
  destruct (audioContext w).
  2:{ intros [H|[H|[]]]; discriminate H. }
  destruct (noteToFrequency name) as [[hz|]|e].
  - destruct (volumeNode w).
    + intros [H|[]]. injection H as <-. repeat split; reflexivity.
    + intros [H|[H|[]]]; discriminate H.
  - intros [H|[H|[]]]; discriminate H.
  - intros [H|[H|[]]]; discriminate H.
Qed.

Lemma highlightEvents_no_Voice col (w : World) (v : ScheduledVoice) :
  ~ In (Voice v) (highlightEvents col w).
Proof.
  unfold highlightEvents. destruct (col <? 0); [intros [H|[]]; discriminate H|].
  destruct (col >=? _); [intros [H|[]]; discriminate H|intros []].
Qed.

(** A step only appends to the log, and every voice it appends belongs to
    an active cell of the column under the cursor: it has the frequency of
    that row's note, starts at the one audio time read at the start of the
    step, has the waveform selected then, and stops [ENVELOPE_DECAY] later.
    The step leaves [gridState], [notes] and [cols] as they are. *)
Theorem playbackStep_voices_of_current_column (w : World) :
  isPlaying w = true ->
  length (gridState w) = length (notes w) ->
  gridState (exec playbackStep w) = gridState w
  /\ notes (exec playbackStep w) = notes w
  /\ cols (exec playbackStep w) = cols w
  /\ exists new,
      log (exec playbackStep w) = log w ++ new
      /\ forall v, In (Voice v) new ->
           startTime v = currentTime w
           /\ waveType v = waveSelect w
           /\ stopTime v = (currentTime w + AUDIO_CONFIG.ENVELOPE_DECAY)%float
           /\ exists row name cells,
               notes w !! row = Some name
               /\ gridState w !! row = Some cells
               /\ arrayGet cells (currentColumn w) = Some true
               /\ noteToFrequency name = Normal (Some (frequency v)).
Proof.
  intros Hplay Hrows.
  set (w1 := set_volumeNode (ensuredVolume w) (set_audioContext (Some running) w)).
  set (rowsNew := flat_map (rowEvents (currentTime w) (waveSelect w) w1)
                    (seq 0 (length (notes w)))).
  set (prev := Z.rem (currentColumn w - 1 + cols w) (cols w)).
  set (hl1 := highlightEvents prev (afterNotes w)).
  set (hl2 := highlightEvents (currentColumn w) (highlighted prev false (afterNotes w))).
  assert (Hlog : log (afterAdvance w) = log w ++ (rowsNew ++ hl1 ++ hl2)).
  { unfold afterAdvance. fold prev.
    cbn [log highlighted set_log set_currentColumn set_ruler set_gridInner].
    fold hl1 hl2. unfold afterNotes. fold w1. cbn [log set_log].
    fold rowsNew. change (log w1) with (log w).
    rewrite <- !app_assoc. reflexivity. }
  assert (Hexec : exec playbackStep w = afterAdvance w
                  \/ exists ms, exec playbackStep w = armed ms (afterAdvance w)).
  { unfold exec. rewrite playbackStep_playing by assumption.
    destruct (calculateNoteDuration _ _) as [ms|e]; [right; exists ms|left]; reflexivity. }
  assert (Hframe : gridState (exec playbackStep w) = gridState w
                   /\ notes (exec playbackStep w) = notes w
                   /\ cols (exec playbackStep w) = cols w
                   /\ log (exec playbackStep w) = log (afterAdvance w)).
  { destruct Hexec as [->|[ms ->]]; repeat split; reflexivity. }
  destruct Hframe as (Hg & Hn & Hc & Hl).
  split; [exact Hg|]. split; [exact Hn|]. split; [exact Hc|].
  exists (rowsNew ++ hl1 ++ hl2). split; [rewrite Hl; exact Hlog|].
  intros v Hin. apply in_app_or in Hin as [Hin|Hin].
  2:{ exfalso. apply in_app_or in Hin as [Hin|Hin];
        exact (highlightEvents_no_Voice _ _ v Hin). }
  apply in_flat_map in Hin as (row & _ & Hin).
  unfold rowEvents in Hin. change (gridState w1) with (gridState w) in Hin.
  change (currentColumn w1) with (currentColumn w) in Hin.
  change (notes w1) with (notes w) in Hin.
  destruct (gridState w !! row) as [cells|] eqn:Hcells; [|destruct Hin].
  destruct (arrayGet cells (currentColumn w)) as [[|]|] eqn:Hon; try destruct Hin.
  destruct (notes w !! row) as [name|] eqn:Hname.
  - cbn [default from_option] in Hin. unfold id in Hin.
    apply playNoteEvents_Voice_inv in Hin as (Hfreq & Hstart & Hwave & Hstop).
    split; [exact Hstart|]. split; [exact Hwave|]. split; [exact Hstop|].
    exists row, name, cells. auto.
  - exfalso. apply lookup_ge_None_1 in Hname.
    apply lookup_lt_Some in Hcells. lia.
Qed.

Lemma playbackStep_voices_of_current_column_witness :
  isPlaying (exec startPlayback demoWorld) = true
  /\ length (gridState (exec startPlayback demoWorld))
     = length (notes (exec startPlayback demoWorld))
  /\ gridState (exec playbackStep (exec startPlayback demoWorld))
     = gridState (exec startPlayback demoWorld).
Proof.
  split; [reflexivity|]. split; [reflexivity|].
  apply (playbackStep_voices_of_current_column (exec startPlayback demoWorld)
           eq_refl eq_refl).
Defined.

(** ** What [highlightColumn] changes *)

Lemma highlightedGrid_out_of_range col h (w : World) :
  col < 0 \/ Z.of_nat (length (ruler w)) <= col ->
  highlightedGrid col h w = gridInner w /\ highlightedRuler col h w = ruler w.
Proof.
  intros H. unfold highlightedGrid, highlightedRuler.
  assert (Hout : (col <? 0) || (col >=? Z.of_nat (length (ruler w))) = true).
  { apply orb_true_iff. destruct H; [left|right]; lia. }
  rewrite Hout. split; reflexivity.
Qed.

(** [highlightColumn(col, highlight)] on the rendered grid never throws.
    For a column of the grid it sets the class [playing-col] to [highlight]
    on exactly the cells of that column and on its ruler cell, and leaves
    every other cell, and every [active] class, as it was. For a column
    index that is negative or past the last column it changes no cell. *)
Theorem highlightColumn_sets_one_column (w : World) (col : Z) (h : bool) :
  rendered w ->
  completion (highlightColumn col h) w = Normal tt
  /\ (0 <= col < cols w ->
      (forall i e, gridInner w !! i = Some e ->
         gridInner (exec (highlightColumn col h) w) !! i
         = Some (if bool_decide (Z.of_nat i mod cols w = col)
                 then mkElement (active e) h else e))
      /\ (forall i e, ruler w !! i = Some e ->
         ruler (exec (highlightColumn col h) w) !! i
         = Some (if bool_decide (Z.of_nat i = col)
                 then mkElement (active e) h else e))
      /\ length (gridInner (exec (highlightColumn col h) w)) = length (gridInner w)
      /\ length (ruler (exec (highlightColumn col h) w)) = length (ruler w))
  /\ (col < 0 \/ cols w <= col ->
      gridInner (exec (highlightColumn col h) w) = gridInner w
      /\ ruler (exec (highlightColumn col h) w) = ruler w).
Proof.
  intros Hw. unfold completion, exec. rewrite highlightColumn_eq. cbn [fst snd].
  split; [reflexivity|]. split.
  - intros Hcol.
    change (gridInner (set_log _ _)) with (highlightedGrid col h w).
    change (ruler (set_log _ _)) with (highlightedRuler col h w).
    split; [|split; [|split]].
    + intros i e He. rewrite highlightedGrid_lookup by assumption.
      rewrite He. destruct (bool_decide _); reflexivity.
    + intros i e He. rewrite highlightedRuler_lookup by assumption.
      rewrite He. destruct (bool_decide _); reflexivity.
    + apply length_highlightedGrid.
    + apply length_highlightedRuler.
  - intros Hout.
    change (gridInner (set_log _ _)) with (highlightedGrid col h w).
    change (ruler (set_log _ _)) with (highlightedRuler col h w).
    apply highlightedGrid_out_of_range.
    rewrite (rendered_ruler w Hw). exact Hout.
Qed.

Lemma demoWorld_rendered : rendered demoWorld.
Proof. apply inv_rendered, inv_initial, demoWorld_initial. Qed.

Lemma highlightColumn_sets_one_column_witness :
  rendered demoWorld
  /\ 0 <= 2 < cols demoWorld
  /\ gridInner (exec (highlightColumn 2 true) demoWorld) !! 2%nat
     = Some (mkElement true true).
Proof.
  assert (Hcol : 0 <= 2 < cols demoWorld) by (split; [discriminate|reflexivity]).
  split; [exact demoWorld_rendered|]. split; [exact Hcol|].
  destruct (highlightColumn_sets_one_column demoWorld 2 true demoWorld_rendered)
    as (_ & Hin & _).
  destruct (Hin Hcol) as (Hgrid & _).
  exact (Hgrid 2%nat (mkElement true false) eq_refl).
Defined.

(** ** The master volume *)

(** [Math.min] and [Math.max] of two numbers: [NaN] if either is, and of
    two zeros the negative one is the smaller. *)
Definition Math_min (a b : float) : float :=
  if PrimFloat.is_nan a || PrimFloat.is_nan b then PrimFloat.nan
  else if PrimFloat.ltb a b then a
  else if PrimFloat.ltb b a then b
  else if PrimFloat.get_sign a then a else b.

Definition Math_max (a b : float) : float :=
  if PrimFloat.is_nan a || PrimFloat.is_nan b then PrimFloat.nan
  else if PrimFloat.ltb a b then b
  else if PrimFloat.ltb b a then a
  else if PrimFloat.get_sign a then b else a.

(** [Math.fround]: the binary32 value nearest to a number, ties to even,
    as a number. It is what an [AudioParam] keeps of a value assigned to
    it, its [value] being a [float]. *)
Definition fround (x : float) : float :=
  match Prim2SF x with
  | S754_finite s m e => SF2Prim (binary_round 24 128 s m e)
  | _ => x
  end.

Example fround_tenth : fround 0.1 = 0.10000000149011612%float.
Proof. vm_compute. reflexivity. Qed.

(** [setVolume(level)], for a [level] that is a number. *)
Definition setVolume (level : float) : M World unit :=
  tryCatch
    (w <- get ;;
     match volumeNode w with
     | None => throw (Error "Volume node not initialized")
     | Some _ =>
         if PrimFloat.is_nan level
         then throw (Error "Volume level must be a valid number")
         else
           let clampedLevel := Math_max 0 (Math_min 1 level) in
           modify (set_volumeNode (Some (fround clampedLevel)))
     end)
    (fun error =>
       consoleError "Failed to set volume:" error ;;
       showNotification "Failed to update volume" "error").

Example setVolume_clamps :
  volumeNode (exec (setVolume 1.5) (exec ensureAudioContext demoWorld)) = Some 1%float
  /\ volumeNode (exec (setVolume (-0.25)) (exec ensureAudioContext demoWorld)) = Some 0%float
  /\ volumeNode (exec (setVolume 0.75) (exec ensureAudioContext demoWorld)) = Some 0.75%float
  /\ volumeNode (exec (setVolume 0.1) (exec ensureAudioContext demoWorld))
     = Some 0.10000000149011612%float.
Proof. vm_compute. repeat split; reflexivity. Qed.

Lemma SFcompare_swap (x y : spec_float) :
  SFcompare y x = match SFcompare x y with
                  | Some c => Some (CompOpp c)
                  | None => None
                  end.
Proof.
  destruct x as [sx|sx| |sx mx ex], y as [sy|sy| |sy my ey]; simpl;
    try reflexivity;
    try (destruct sx; reflexivity); try (destruct sy; reflexivity);
    try (destruct sx, sy; reflexivity).
  destruct sx, sy; try reflexivity;
    rewrite (Z.compare_antisym ey ex); destruct (ey ?= ex)%Z; simpl; try reflexivity;
    change (PosDef.Pos.compare_cont Eq my mx) with (Pos.compare_cont (CompOpp Eq) my mx);
    rewrite <- (Pos.compare_cont_antisym mx my Eq);
    destruct (Pos.compare_cont Eq mx my); reflexivity.
Qed.

Lemma float_ltb_leb (x y : float) : PrimFloat.ltb x y = true -> PrimFloat.leb x y = true.
Proof.
  rewrite FloatAxioms.ltb_spec, FloatAxioms.leb_spec. unfold SFltb, SFleb.
  destruct (SFcompare _ _) as [[| |]|]; congruence.
Qed.

(** Of two numbers the second is not below the first exactly when the first
    is at most the second. *)
Lemma float_not_ltb_leb (x y : float) :
  PrimFloat.is_nan x = false -> PrimFloat.is_nan y = false ->
  PrimFloat.ltb y x = false -> PrimFloat.leb x y = true.
Proof.
  intros Hx Hy. unfold PrimFloat.is_nan in Hx, Hy.
  apply Bool.negb_false_iff in Hx. apply Bool.negb_false_iff in Hy.
  rewrite FloatAxioms.eqb_spec in Hx, Hy. rewrite FloatAxioms.ltb_spec, FloatAxioms.leb_spec.
  unfold SFeqb in Hx, Hy. unfold SFltb, SFleb.
  rewrite (SFcompare_swap (Prim2SF x) (Prim2SF y)).
  destruct (Prim2SF x) as [sx|sx| |sx mx ex]; try discriminate Hx;
    destruct (Prim2SF y) as [sy|sy| |sy my ey]; try discriminate Hy;
    clear Hx Hy;
    destruct (SFcompare _ _) as [[| |]|] eqn:Hc; simpl;
    try congruence; simpl in Hc; try discriminate Hc;
    try (destruct sx; discriminate Hc); try (destruct sy; discriminate Hc);
    try (destruct sx, sy; discriminate Hc).
Qed.

Lemma float_leb_antisym_eqb (x y : float) :
  PrimFloat.leb x y = true -> PrimFloat.ltb x y = false -> PrimFloat.eqb x y = true.
Proof.
  rewrite FloatAxioms.leb_spec, FloatAxioms.ltb_spec, FloatAxioms.eqb_spec. unfold SFleb, SFltb, SFeqb.
  destruct (SFcompare _ _) as [[| |]|]; congruence.
Qed.

Lemma float_ltb_not_leb (x y : float) :
  PrimFloat.ltb x y = true -> PrimFloat.leb y x = false.
Proof.
  rewrite FloatAxioms.ltb_spec, FloatAxioms.leb_spec. unfold SFltb, SFleb.
  rewrite (SFcompare_swap (Prim2SF x) (Prim2SF y)).
  destruct (SFcompare _ _) as [[| |]|]; simpl; congruence.
Qed.

Lemma float_leb_refl (x : float) : PrimFloat.is_nan x = false -> PrimFloat.leb x x = true.
Proof.
  intros Hx. unfold PrimFloat.is_nan in Hx. apply Bool.negb_false_iff in Hx.
  rewrite FloatAxioms.eqb_spec in Hx. rewrite FloatAxioms.leb_spec.
  unfold SFeqb in Hx. unfold SFleb.
  destruct (SFcompare _ _) as [[| |]|]; congruence.
Qed.

(** Numbers that compare equal compare alike with every third one. *)
Lemma SFcompare_Eq_right (x y z : spec_float) :
  SFcompare x y = Some Eq -> SFcompare z x = SFcompare z y.
Proof.
  intros H.
  destruct x as [sx|sx| |sx mx ex], y as [sy|sy| |sy my ey]; simpl in H;
    try discriminate H;
    try (destruct sx; discriminate H); try (destruct sy; discriminate H).
  - destruct z; reflexivity.
  - assert (sx = sy) by (destruct sx, sy; congruence). subst. reflexivity.
  - assert (Heq : sx = sy /\ ex = ey /\ mx = my).
    { destruct sx, sy; try discriminate H;
        destruct (ex ?= ey)%Z eqn:He; try discriminate H;
        apply Z.compare_eq in He;
        change (PosDef.Pos.compare_cont Eq mx my) with (Pos.compare mx my) in H;
        destruct (Pos.compare mx my) eqn:Hm; try discriminate H;
        apply Pos.compare_eq in Hm; auto. }
    destruct Heq as (-> & -> & ->). reflexivity.
Qed.

Lemma float_leb_eqb_right (x y z : float) :
  PrimFloat.eqb x y = true -> PrimFloat.leb z x = true -> PrimFloat.leb z y = true.
Proof.
  rewrite FloatAxioms.eqb_spec, !FloatAxioms.leb_spec. unfold SFeqb, SFleb.
  intros Heq. destruct (SFcompare (Prim2SF x) (Prim2SF y)) as [[| |]|] eqn:Hc;
    try discriminate Heq.
  rewrite (SFcompare_Eq_right _ _ (Prim2SF z) Hc). auto.
Qed.

Lemma float_leb_both_eqb (x y : float) :
  PrimFloat.leb x y = true -> PrimFloat.leb y x = true -> PrimFloat.eqb x y = true.
Proof.
  rewrite !FloatAxioms.leb_spec, FloatAxioms.eqb_spec. unfold SFleb, SFeqb.
  rewrite (SFcompare_swap (Prim2SF x) (Prim2SF y)).
  destruct (SFcompare _ _) as [[| |]|]; simpl; congruence.
Qed.

Lemma float_eqb_sym (x y : float) :
  PrimFloat.eqb x y = true -> PrimFloat.eqb y x = true.
Proof.
  rewrite !FloatAxioms.eqb_spec. unfold SFeqb.
  rewrite (SFcompare_swap (Prim2SF x) (Prim2SF y)).
  destruct (SFcompare _ _) as [[| |]|]; simpl; congruence.
Qed.

(** Below is transitive. *)
Lemma SFcompare_Lt_trans (x y z : spec_float) :
  SFcompare x y = Some Lt -> SFcompare y z = Some Lt -> SFcompare x z = Some Lt.
Proof.
  destruct x as [sx|sx| |sx mx ex], y as [sy|sy| |sy my ey], z as [sz|sz| |sz mz ez];
    simpl; try discriminate;
    repeat match goal with s : bool |- _ => destruct s end;
    try discriminate; try reflexivity; try (intros; assumption).
  all: change (PosDef.Pos.compare_cont Eq) with Pos.compare.
  all: destruct (Z.compare_spec ex ey); try discriminate;
       destruct (Z.compare_spec ey ez); try discriminate;
       destruct (Z.compare_spec ex ez); try reflexivity; try lia; subst.
  all: try (destruct (Pos.compare_spec mx my); try discriminate);
       try (destruct (Pos.compare_spec my mz); try discriminate);
       try (destruct (Pos.compare_spec mx mz); try reflexivity; try discriminate);
       simpl; intros; try lia; try discriminate.
Qed.

Lemma float_ltb_leb_trans (x y z : float) :
  PrimFloat.ltb x y = true -> PrimFloat.leb y z = true -> PrimFloat.ltb x z = true.
Proof.
  rewrite !FloatAxioms.ltb_spec, FloatAxioms.leb_spec. unfold SFltb, SFleb.
  destruct (SFcompare (Prim2SF x) (Prim2SF y)) as [[| |]|] eqn:Hxy; try discriminate.
  destruct (SFcompare (Prim2SF y) (Prim2SF z)) as [[| |]|] eqn:Hyz; try discriminate;
    intros _ _.
  - rewrite <- (SFcompare_Eq_right _ _ (Prim2SF x) Hyz), Hxy. reflexivity.
  - rewrite (SFcompare_Lt_trans _ _ _ Hxy Hyz). reflexivity.
Qed.

(** The level [setVolume] assigns for a number: 1 above 1, 0 at or below 0,
    the level itself in between. *)
Lemma clamped_level (level : float) :
  PrimFloat.is_nan level = false ->
  Math_max 0 (Math_min 1 level)
  = if PrimFloat.ltb 1 level then 1%float
    else if PrimFloat.ltb 0 level then level else 0%float.
Proof.
  intros Hnan. unfold Math_min.
  change (PrimFloat.is_nan 1) with false. rewrite Hnan. cbn [orb].
  change (PrimFloat.get_sign 1) with false.
  destruct (PrimFloat.ltb 1 level) eqn:H1.
  - vm_compute. reflexivity.
  - assert (Hm : (if PrimFloat.ltb level 1 then level else level) = level)
      by (destruct (PrimFloat.ltb level 1); reflexivity).
    rewrite Hm. unfold Math_max.
    change (PrimFloat.is_nan 0) with false. rewrite Hnan. cbn [orb].
    change (PrimFloat.get_sign 0) with false.
    destruct (PrimFloat.ltb 0 level); [reflexivity|].
    destruct (PrimFloat.ltb level 0); reflexivity.
Qed.

(** [setVolume] never throws. With the volume node created and a level that
    is a number, it assigns to the gain [Math.max(0, Math.min(1, level))], a
    number between 0 and 1 that is the level (or the zero equal to it) when
    the level is itself between 0 and 1, and the gain keeps the binary32
    value nearest to it: 1 for a level above 1, 0 for a level at or below 0,
    [Math.fround(level)] in between. Nothing is logged. Without the node,
    or for [NaN], the gain is left as it was and the failure goes to the
    console and to a notification. *)
Theorem setVolume_clamps_to_unit_interval (w : World) (level : float) :
  completion (setVolume level) w = Normal tt
  /\ (forall gain, volumeNode w = Some gain -> PrimFloat.is_nan level = false ->
      (exists assigned,
         volumeNode (exec (setVolume level) w) = Some (fround assigned)
         /\ PrimFloat.leb 0 assigned = true
         /\ PrimFloat.leb assigned 1 = true
         /\ (PrimFloat.leb 0 level = true -> PrimFloat.leb level 1 = true ->
             PrimFloat.eqb assigned level = true))
      /\ (PrimFloat.ltb 1 level = true ->
          volumeNode (exec (setVolume level) w) = Some 1%float)
      /\ (PrimFloat.leb level 0 = true ->
          volumeNode (exec (setVolume level) w) = Some 0%float)
      /\ (PrimFloat.ltb 0 level = true -> PrimFloat.leb level 1 = true ->
          volumeNode (exec (setVolume level) w) = Some (fround level))
      /\ log (exec (setVolume level) w) = log w)
  /\ (volumeNode w = None \/ PrimFloat.is_nan level = true ->
      volumeNode (exec (setVolume level) w) = volumeNode w
      /\ exists e,
          log (exec (setVolume level) w)
          = log w ++ [ConsoleError "Failed to set volume:" e;
                      ShowNotification "Failed to update volume" "error"]).
Proof.
  unfold completion, exec, setVolume.
  unfold_monad. destruct (volumeNode w) as [gain0|] eqn:Hvol.
  - destruct (PrimFloat.is_nan level) eqn:Hnan; cbn [fst snd].
    + split; [reflexivity|]. split; [intros gain _ H; discriminate H|].
      intros _. split; [exact Hvol|].
      eexists. cbn [log set_log]. rewrite app_assoc2. reflexivity.
    + split; [reflexivity|]. split; [|intros [H|H]; discriminate H].
      intros gain _ _. cbn [volumeNode set_volumeNode log].
      rewrite (clamped_level level Hnan).
      assert (Hone : fround 1 = 1%float) by (vm_compute; reflexivity).
      assert (Hzero : fround 0 = 0%float) by (vm_compute; reflexivity).
      destruct (PrimFloat.ltb 1 level) eqn:H1.
      * assert (H0 : PrimFloat.ltb 0 level = true).
        { apply (float_ltb_leb_trans 0 1 level); [reflexivity|].
          apply float_ltb_leb, H1. }
        split; [|split; [|split; [|split]]].
        -- exists 1%float. split; [reflexivity|]. split; [reflexivity|].
           split; [reflexivity|].
           intros _ Hle. rewrite (float_ltb_not_leb 1 level H1) in Hle. discriminate Hle.
        -- intros _. rewrite Hone. reflexivity.
        -- intros Hle. rewrite (float_ltb_not_leb 0 level H0) in Hle. discriminate Hle.
        -- intros _ Hle. rewrite (float_ltb_not_leb 1 level H1) in Hle. discriminate Hle.
        -- reflexivity.
      * destruct (PrimFloat.ltb 0 level) eqn:H0.
        -- split; [|split; [|split; [|split]]].
           ++ exists level. split; [reflexivity|].
              split; [apply float_ltb_leb, H0|].
              split; [apply float_not_ltb_leb; auto|]. intros _ _.
              unfold PrimFloat.is_nan in Hnan. apply negb_false_iff in Hnan. exact Hnan.
           ++ intros H; discriminate H.
           ++ intros Hle. rewrite (float_ltb_not_leb 0 level H0) in Hle. discriminate Hle.
           ++ intros _ _. reflexivity.
           ++ reflexivity.
        -- split; [|split; [|split; [|split]]].
           ++ exists 0%float. split; [reflexivity|]. split; [reflexivity|].
              split; [reflexivity|].
              intros Hge _. apply float_leb_antisym_eqb; assumption.
           ++ intros H; discriminate H.
           ++ intros _. rewrite Hzero. reflexivity.
           ++ intros H; discriminate H.
           ++ reflexivity.
  - cbn [fst snd]. split; [reflexivity|].
    split; [intros gain H; discriminate H|].
    intros _. split; [exact Hvol|].
    eexists. cbn [log set_log]. rewrite app_assoc2. reflexivity.
Qed.

Lemma setVolume_clamps_to_unit_interval_witness :
  volumeNode (exec ensureAudioContext demoWorld) = Some 0.5%float
  /\ PrimFloat.is_nan 1.5 = false
  /\ PrimFloat.ltb 1 1.5 = true
  /\ volumeNode (exec (setVolume 1.5) (exec ensureAudioContext demoWorld)) = Some 1%float.
Proof.
  split; [reflexivity|]. split; [reflexivity|]. split; [reflexivity|].
  destruct (setVolume_clamps_to_unit_interval (exec ensureAudioContext demoWorld) 1.5)
    as (_ & Hset & _).
  destruct (Hset 0.5%float eq_refl eq_refl) as (_ & Habove & _).
  exact (Habove eq_refl).
Defined.

(** [ensureAudioContext] never throws and leaves the context running with
    a volume node. The first call creates the node at gain 0.5; a call made
    when the context exists keeps the gain that [setVolume] stored; and a
    second call changes nothing. *)
Theorem ensureAudioContext_idempotent (w : World) :
  completion ensureAudioContext w = Normal tt
  /\ audioContext (exec ensureAudioContext w) = Some running
  /\ (audioContext w = None -> volumeNode (exec ensureAudioContext w) = Some 0.5%float)
  /\ (audioContext w <> None ->
      volumeNode (exec ensureAudioContext w) = volumeNode w)
  /\ exec ensureAudioContext (exec ensureAudioContext w) = exec ensureAudioContext w
  /\ (forall level gain,
      volumeNode w = Some gain ->
      audioContext w <> None ->
      volumeNode (exec ensureAudioContext (exec (setVolume level) w))
      = volumeNode (exec (setVolume level) w)).
Proof.
  unfold completion, exec. rewrite !ensureAudioContext_eq. cbn [fst snd].
  split; [reflexivity|]. split; [reflexivity|].
  split; [intros H; unfold ensuredVolume; rewrite H; reflexivity|].
  split; [intros H; unfold ensuredVolume; destruct (audioContext w); [reflexivity|congruence]|].
  split; [reflexivity|].
  intros level gain Hvol Hctx. rewrite ensureAudioContext_eq. cbn [snd].
  cbn [volumeNode set_volumeNode]. unfold ensuredVolume.
  assert (Hsame : audioContext (snd (setVolume level w)) = audioContext w).
  { unfold setVolume. unfold_monad. rewrite Hvol.
    destruct (PrimFloat.is_nan level); reflexivity. }
  rewrite Hsame. destruct (audioContext w); [reflexivity|congruence].
Qed.

Lemma ensureAudioContext_idempotent_witness :
  audioContext demoWorld = None
  /\ volumeNode (exec ensureAudioContext demoWorld) = Some 0.5%float.
Proof.
  split; [reflexivity|].
  destruct (ensureAudioContext_idempotent demoWorld) as (_ & _ & Hfirst & _).
  exact (Hfirst eq_refl).
Defined.

(** ** Grid states *)

#[local] Set Warnings "-register-all".

(** What [JSON.parse] can return. *)
Inductive Json : Type :=
| JsonNull
| JsonBoolean (b : bool)
| JsonNumber (n : Z)
| JsonString (s : string)
| JsonArray (items : list Json)
| JsonObject (members : list (string * Json)).

(** [isValidGridState(value, expectedRows, expectedCols)]; [None] is the
    default [null] of an expected size. *)
Definition isValidGridState (value : Json) (expectedRows expectedCols : option Z)
  : bool :=
  match value with
  | JsonArray rows =>
      if match expectedRows with
         | Some r => negb (Z.of_nat (length rows) =? r)
         | None => false
         end
      then false
      else
        forallb (fun row =>
          match row with
          | JsonArray cells =>
              if match expectedCols with
                 | Some c => negb (Z.of_nat (length cells) =? c)
                 | None => false
                 end
              then false
              else forallb (fun cell =>
                     match cell with
                     | JsonBoolean _ => true
                     | _ => false
                     end) cells
          | _ => false
          end) rows
  | _ => false
  end.

(** A grid state as [JSON.stringify] then [JSON.parse] give it back. *)
Definition gridToJson (gridState : list (list bool)) : Json :=
  JsonArray (map (fun cells => JsonArray (map JsonBoolean cells)) gridState).

(** [createEmptyGrid()]: one row of [appState.cols] cells, all [false], per
    note. [Array(n)] throws a [RangeError] unless [n] is an array length,
    and it is called once per row. *)
Definition createEmptyGrid (w : World) : Completion (list (list bool)) :=
  match notes w with
  | [] => Normal []
  | _ :: _ =>
      if (cols w <? 0) || (cols w >=? 2 ^ 32)
      then Throw (RangeError "Invalid array length")
      else Normal (repeat (repeat false (Z.to_nat (cols w))) (length (notes w)))
  end.

Example createEmptyGrid_demo :
  createEmptyGrid demoWorld
  = Normal [[false; false; false; false]; [false; false; false; false]].
Proof. reflexivity. Qed.

Lemma cells_valid_inv (cells : list Json) :
  forallb (fun cell => match cell with JsonBoolean _ => true | _ => false end) cells = true ->
  exists bs, cells = map JsonBoolean bs.
Proof.
  induction cells as [|cell cells IH]; intros H.
  - exists []. reflexivity.
  - cbn [forallb] in H. apply andb_prop in H as [Hc Hrest].
    destruct (IH Hrest) as [bs ->].
    destruct cell; try discriminate. exists (b :: bs). reflexivity.
Qed.

Lemma rows_valid_inv (c : Z) (rows : list Json) :
  forallb (fun row =>
    match row with
    | JsonArray cells =>
        if negb (Z.of_nat (length cells) =? c) then false
        else forallb (fun cell => match cell with JsonBoolean _ => true | _ => false end)
               cells
    | _ => false
    end) rows = true ->
  exists g, rows = map (fun cells => JsonArray (map JsonBoolean cells)) g
            /\ Forall (fun cells => Z.of_nat (length cells) = c) g.
Proof.
  induction rows as [|row rows IH]; intros H.
  - exists []. split; [reflexivity|constructor].
  - cbn [forallb] in H. apply andb_prop in H as [Hrow Hrest].
    destruct (IH Hrest) as (g & -> & Hall).
    destruct row as [| | | |cells|]; try discriminate.
    destruct (Z.of_nat (length cells) =? c) eqn:Hlen; [|discriminate].
    cbn [negb] in Hrow. destruct (cells_valid_inv cells Hrow) as [bs ->].
    exists (bs :: g). split; [reflexivity|].
    constructor; [|exact Hall].
    apply Z.eqb_eq in Hlen. rewrite length_map in Hlen. exact Hlen.
Qed.

Lemma gridToJson_valid (r c : Z) (g : list (list bool)) :
  Z.of_nat (length g) = r ->
  Forall (fun cells => Z.of_nat (length cells) = c) g ->
  isValidGridState (gridToJson g) (Some r) (Some c) = true.
Proof.
  intros Hr Hall. unfold isValidGridState, gridToJson.
  rewrite length_map, (proj2 (Z.eqb_eq _ _) Hr). cbn [negb].
  apply forallb_forall. intros row Hin.
  apply in_map_iff in Hin as (cells & <- & Hin).
  rewrite Forall_forall in Hall.
  specialize (Hall cells ltac:(apply list_elem_of_In; exact Hin)).
  rewrite length_map, (proj2 (Z.eqb_eq _ _) Hall). cbn [negb].
  apply forallb_forall. intros cell Hc.
  apply in_map_iff in Hc as (b & <- & _). reflexivity.
Qed.

(** [isValidGridState(value, rows, cols)] accepts exactly the arrays of
    [rows] arrays of [cols] booleans: a value it accepts is the image of a
    grid state of that size, and every such image is accepted. So a grid
    state it accepted has a row for every note, which is what
    [playbackStep] reads. *)
Theorem isValidGridState_exact (value : Json) (r c : Z) :
  isValidGridState value (Some r) (Some c) = true
  <-> exists g : list (list bool),
        value = gridToJson g
        /\ Z.of_nat (length g) = r
        /\ Forall (fun cells => Z.of_nat (length cells) = c) g.
Proof.
  split.
  - destruct value as [| | | |rows|]; try discriminate.
    unfold isValidGridState.
    destruct (Z.of_nat (length rows) =? r) eqn:Hr; [|discriminate].
    cbn [negb]. intros H.
    destruct (rows_valid_inv c rows H) as (g & -> & Hall).
    exists g. split; [reflexivity|]. split; [|exact Hall].
    apply Z.eqb_eq in Hr. rewrite length_map in Hr. exact Hr.
  - intros (g & -> & Hr & Hall). apply gridToJson_valid; assumption.
Qed.

(** With a column count that is an array length, [createEmptyGrid] returns
    a grid that [isValidGridState] accepts for the current notes and
    columns, with a row for every note and no active cell. A negative
    column count throws as soon as there is a note. *)
Theorem createEmptyGrid_valid (w : World) :
  (0 <= cols w < 2 ^ 32 ->
   exists g,
     createEmptyGrid w = Normal g
     /\ isValidGridState (gridToJson g)
          (Some (Z.of_nat (length (notes w)))) (Some (cols w)) = true
     /\ length g = length (notes w)
     /\ (forall row cells col,
          g !! row = Some cells -> arrayGet cells col <> Some true))
  /\ (cols w < 0 -> notes w <> [] ->
      createEmptyGrid w = Throw (RangeError "Invalid array length")).
Proof.
  split.
  - intros Hcols.
    exists (repeat (repeat false (Z.to_nat (cols w))) (length (notes w))).
    split; [|split; [|split]].
    + unfold createEmptyGrid. destruct (notes w) as [|n ns] eqn:Hn; [reflexivity|].
      rewrite (proj2 (orb_false_iff _ _)) by (split; lia). reflexivity.
    + apply gridToJson_valid.
      * rewrite repeat_length. reflexivity.
      * apply Forall_forall. intros cells Hin.
        apply list_elem_of_In, repeat_spec in Hin. subst cells.
        rewrite repeat_length. lia.
    + apply repeat_length.
    + intros row cells col Hrow Hcell.
      apply list_elem_of_lookup_2, list_elem_of_In, repeat_spec in Hrow. subst cells.
      unfold arrayGet in Hcell. destruct (col <? 0); [discriminate|].
      apply list_elem_of_lookup_2, list_elem_of_In, repeat_spec in Hcell. discriminate.
  - intros Hneg Hnotes. unfold createEmptyGrid.
    destruct (notes w) as [|n ns]; [congruence|].
    rewrite (proj2 (Z.ltb_lt _ _) Hneg). reflexivity.
Qed.

Lemma createEmptyGrid_valid_witness :
  0 <= cols demoWorld < 2 ^ 32
  /\ exists g,
      createEmptyGrid demoWorld = Normal g /\ length g = length (notes demoWorld).
Proof.
  assert (Hcols : 0 <= cols demoWorld < 2 ^ 32) by (split; [discriminate|reflexivity]).
  split; [exact Hcols|].
  destruct (createEmptyGrid_valid demoWorld) as [Hok _].
  destruct (Hok Hcols) as (g & Hg & _ & Hlen & _).
  exists g. split; [exact Hg|exact Hlen].
Defined.

(** ** Further properties of the single-file script *)

Section LegacyMore.
Import Legacy.

Lemma legacy_getColumnDurationMs_eq (w : World) :
  getColumnDurationMs w = (Normal (legacyColumnDuration w), w).
Proof.
  unfold getColumnDurationMs, legacyColumnDuration, bind, get, ret.
  destruct (parseInt (tempoInput w)) as [[|p|p]|]; reflexivity.
Qed.

(** The script's [getColumnDurationMs] never throws. For a tempo from 1 to
    1000 it is the binary64 value of [60000 / bpm / 4], equal to the
    controller's duration or next to it; when the control shows no number
    or 0, where the controller throws, it is the 125 ms of 120 BPM. *)
Theorem legacy_column_duration (w : World) :
  completion getColumnDurationMs w = Normal (legacyColumnDuration w)
  /\ exec getColumnDurationMs w = w
  /\ (forall bpm, parseInt (tempoInput w) = Some bpm -> 1 <= bpm <= 1000 ->
      legacyColumnDuration w = sixtyThousandOver bpm
      /\ withinOneUlp (columnDurationOf bpm) (legacyColumnDuration w) = true)
  /\ (parseInt (tempoInput w) = None \/ parseInt (tempoInput w) = Some 0 ->
      legacyColumnDuration w = 125%float).
Proof.
  unfold completion, exec. rewrite legacy_getColumnDurationMs_eq. cbn [fst snd].
  split; [reflexivity|]. split; [reflexivity|]. split.
  - intros bpm Hparse Hrange.
    assert (Heq : legacyColumnDuration w = sixtyThousandOver bpm).
    { unfold legacyColumnDuration, sixtyThousandOver. rewrite Hparse.
      destruct bpm; [lia|reflexivity|reflexivity]. }
    split; [exact Heq|]. rewrite Heq.
    apply tempoAccepted_range in Hrange. unfold tempoAccepted in Hrange.
    apply andb_prop in Hrange as [_ H]. exact H.
  - intros [H|H]; unfold legacyColumnDuration; rewrite H; vm_compute; reflexivity.
Qed.

Lemma legacy_column_duration_witness :
  parseInt (tempoInput demoPlaying) = Some 90
  /\ 1 <= 90 <= 1000
  /\ legacyColumnDuration demoPlaying = sixtyThousandOver 90.
Proof.
  split; [reflexivity|]. split; [lia|].
  destruct (legacy_column_duration demoPlaying) as (_ & _ & Hin & _).
  apply (Hin 90 eq_refl ltac:(lia)).
Defined.

(** The semitone step of a row: [semitoneSteps[row] || 0]. *)
Definition legacyStep (row : Z) : Z :=
  match arrayGet [12; 11; 9; 7; 5; 4; 2; 0] row with
  | Some s => s
  | None => 0
  end.

Lemma getFrequencyForRow_eq (row : Z) :
  getFrequencyForRow row = (baseFrequency * Rpower 2 (IZR (legacyStep row) / 12))%R.
Proof. reflexivity. Qed.

Lemma legacyStep_decreases (upper lower : Z) :
  0 <= upper -> upper < lower -> lower <= 7 -> legacyStep lower < legacyStep upper.
Proof.
  intros H0 Hlt H7.
  assert (Hu : upper = 0 \/ upper = 1 \/ upper = 2 \/ upper = 3
               \/ upper = 4 \/ upper = 5 \/ upper = 6) by lia.
  assert (Hl : lower = 1 \/ lower = 2 \/ lower = 3 \/ lower = 4
               \/ lower = 5 \/ lower = 6 \/ lower = 7) by lia.
  destruct Hu as [->|[->|[->|[->|[->|[->| ->]]]]]];
    destruct Hl as [->|[->|[->|[->|[->|[->| ->]]]]]];
    try lia; reflexivity.
Qed.

(** The script's [getFrequencyForRow]: the eight rows run from the highest
    pitch to the lowest, the first row is one octave (twice the frequency)
    above the last, and a row index outside 0..7 falls back to the base
    frequency, the one of the last row. *)
Theorem legacy_row_frequencies (upper lower : Z) :
  (0 <= upper -> upper < lower -> lower <= 7 ->
   (getFrequencyForRow lower < getFrequencyForRow upper)%R)
  /\ getFrequencyForRow 0 = (2 * getFrequencyForRow 7)%R
  /\ getFrequencyForRow 7 = baseFrequency
  /\ (upper < 0 \/ 7 < upper -> getFrequencyForRow upper = baseFrequency).
Proof.
  assert (Hbase : (baseFrequency * Rpower 2 (IZR 0 / 12) = baseFrequency)%R).
  { unfold Rdiv. rewrite Rmult_0_l, Rpower_O by lra. lra. }
  split; [|split; [|split]].
  - intros H0 Hlt H7. rewrite !getFrequencyForRow_eq.
    apply Rmult_lt_compat_l; [unfold baseFrequency; lra|].
    apply Rpower_lt; [lra|].
    apply Rmult_lt_compat_r; [lra|].
    apply IZR_lt, legacyStep_decreases; assumption.
  - rewrite !getFrequencyForRow_eq.
    change (legacyStep 0) with 12. change (legacyStep 7) with 0.
    rewrite Hbase. replace (12 / 12)%R with 1%R by lra.
    rewrite Rpower_1 by lra. lra.
  - rewrite getFrequencyForRow_eq. change (legacyStep 7) with 0. exact Hbase.
  - intros Hout. rewrite getFrequencyForRow_eq.
    assert (Hstep : legacyStep upper = 0).
    { unfold legacyStep, arrayGet. destruct Hout as [Hneg|Hbig].
      - rewrite (proj2 (Z.ltb_lt _ _) Hneg). reflexivity.
      - rewrite (proj2 (Z.ltb_ge _ _)) by lia.
        rewrite lookup_ge_None_2; [reflexivity|]. simpl. lia. }
    rewrite Hstep. exact Hbase.
Qed.

Lemma legacy_row_frequencies_witness :
  0 <= 2 /\ 2 < 5 /\ 5 <= 7
  /\ (getFrequencyForRow 5 < getFrequencyForRow 2)%R.
Proof.
  split; [lia|]. split; [lia|]. split; [lia|].
  destruct (legacy_row_frequencies 2 5) as [Hlt _].
  apply Hlt; lia.
Defined.

(** *** One chain of timers in the script *)

Definition legacyRowsPresent (w : World) : Prop :=
  Forall (fun r => arrayGet (gridState w) r <> None) (upTo (ROWS w)).

Definition legacyOneChain (w : World) : Prop :=
  timers w = []
  \/ exists h ms, timers w = [mkTimer h ms] /\ timerId w = Some h /\ isPlaying w = true.

(** The world after the start of [startPlayback]: the context exists and
    runs. *)
Definition legacyEnsured (w : World) : World := set_audioContext (Some running) w.

Definition legacyStarted (w : World) : World :=
  set_currentColumn 0
    (set_controlsDisabled true
       (set_playButton "Stop" (set_isPlaying true (legacyEnsured w)))).

Lemma legacy_startPlayback_eq (w : World) :
  startPlayback w
  = if isPlaying w then (Normal tt, legacyEnsured w)
    else playbackStep (legacyStarted w).
Proof.
  unfold startPlayback, bind at 1.
  assert (Hensure : exists ctx, ensureAudioContext w = (Normal tt, set_audioContext (Some ctx) w)).
  { unfold ensureAudioContext, bind, get.
    destruct (audioContext w) as [ctx|] eqn:Hctx.
    - exists ctx. unfold ret. rewrite <- Hctx. reflexivity.
    - eexists. reflexivity. }
  destruct Hensure as [ctx ->].
  unfold bind at 1, get at 1. unfold bind at 1.
  cbn [audioContext set_audioContext].
  assert (Hresume :
    (match ctx with
     | suspended => modify (set_audioContext (Some running))
     | running => ret tt
     end) (set_audioContext (Some ctx) w) = (Normal tt, legacyEnsured w)).
  { destruct ctx; reflexivity. }
  rewrite Hresume. unfold bind at 1, get at 1.
  change (isPlaying (legacyEnsured w)) with (isPlaying w).
  destruct (isPlaying w); reflexivity.
Qed.

Definition legacyClearedColumns (cs : list Z) (w : World) : World :=
  fold_left (fun w c => legacyHighlighted c false w) cs w.

Lemma legacy_forEach_clear (cs : list Z) (w : World) :
  forEach cs (fun c => highlightColumn c false) w
  = (Normal tt, legacyClearedColumns cs w).
Proof.
  revert w; induction cs as [|c cs IH]; intros w; simpl; [reflexivity|].
  unfold bind at 1. rewrite legacy_highlightColumn_eq. apply IH.
Qed.

Lemma legacyClearedColumns_timers cs (w : World) :
  timers (legacyClearedColumns cs w) = timers w.
Proof.
  revert w; induction cs as [|c cs IH]; intros w; simpl; [reflexivity|].
  unfold legacyClearedColumns in IH. rewrite IH. reflexivity.
Qed.

Lemma legacyClearedColumns_isPlaying cs (w : World) :
  isPlaying (legacyClearedColumns cs w) = isPlaying w.
Proof.
  revert w; induction cs as [|c cs IH]; intros w; simpl; [reflexivity|].
  unfold legacyClearedColumns in IH. rewrite IH. reflexivity.
Qed.

Lemma legacyClearedColumns_timerId cs (w : World) :
  timerId (legacyClearedColumns cs w) = timerId w.
Proof.
  revert w; induction cs as [|c cs IH]; intros w; simpl; [reflexivity|].
  unfold legacyClearedColumns in IH. rewrite IH. reflexivity.
Qed.

Lemma legacyClearedColumns_grid cs (w : World) :
  gridState (legacyClearedColumns cs w) = gridState w
  /\ ROWS (legacyClearedColumns cs w) = ROWS w
  /\ audioContext (legacyClearedColumns cs w) = audioContext w.
Proof.
  revert w; induction cs as [|c cs IH]; intros w; [auto|].
  change (legacyClearedColumns (c :: cs) w)
    with (legacyClearedColumns cs (legacyHighlighted c false w)).
  destruct (IH (legacyHighlighted c false w)) as (H1 & H2 & H3).
  rewrite H1, H2, H3. auto.
Qed.

(** The world once the script's [stopPlayback] has cleared the flag,
    relabelled the button and cancelled the timer. *)
Definition legacyStopping (w : World) : World :=
  set_timers
    (match timerId w with
     | Some i => filter (fun t => handle t <> i) (timers w)
     | None => timers w
     end)
    (set_playButton "Play" (set_isPlaying false w)).

Lemma legacy_stopPlayback_eq (w : World) :
  stopPlayback w
  = if isPlaying w
    then (Normal tt,
          set_controlsDisabled false
            (legacyClearedColumns (upTo (COLS w)) (legacyStopping w)))
    else (Normal tt, w).
Proof.
  unfold stopPlayback, bind at 1, get at 1.
  destruct (isPlaying w) eqn:Hplay; [|reflexivity].
  change (negb true) with false. cbv iota.
  unfold bind at 1, modify at 1. unfold bind at 1, modify at 1.
  unfold bind at 1, get at 1. unfold bind at 1.
  rewrite legacy_clearTimeout_eq.
  change (set_timers _ _) with (legacyStopping w).
  unfold bind at 1. rewrite legacy_forEach_clear. reflexivity.
Qed.

Lemma legacy_playbackStep_idle (w : World) :
  isPlaying w = false \/ audioContext w = None ->
  playbackStep w = (Normal tt, w).
Proof.
  intros H. unfold playbackStep, bind at 1, get at 1.
  destruct H as [-> | ->]; [reflexivity|destruct (isPlaying w); reflexivity].
Qed.

Lemma legacyOneChain_playbackStep (w : World) :
  legacyRowsPresent w -> timers w = [] -> legacyOneChain (exec playbackStep w).
Proof.
  intros Hrows Hnone. unfold exec.
  destruct (isPlaying w) eqn:Hplay.
  2:{ rewrite legacy_playbackStep_idle by (left; exact Hplay). left. exact Hnone. }
  destruct (audioContext w) as [ctx|] eqn:Hctx.
  2:{ rewrite legacy_playbackStep_idle by (right; exact Hctx). left. exact Hnone. }
  rewrite (legacy_playbackStep_playing w ctx) by assumption. cbn [snd].
  right. exists (nextTimerId w), (legacyColumnDuration w).
  split; [|split; [reflexivity|exact Hplay]].
  change (timers w ++ [mkTimer (nextTimerId w) (legacyColumnDuration w)]
          = [mkTimer (nextTimerId w) (legacyColumnDuration w)]).
  rewrite Hnone. reflexivity.
Qed.

Lemma legacy_tempoChanged_eq (w : World) :
  tempoChanged w
  = if isPlaying w
    then playbackStep
           (set_timers
              (match timerId w with
               | Some i => filter (fun t => handle t <> i) (timers w)
               | None => timers w
               end) w)
    else (Normal tt, w).
Proof.
  unfold tempoChanged, bind at 1, get at 1.
  destruct (isPlaying w); [|reflexivity].
  unfold bind. rewrite legacy_clearTimeout_eq. reflexivity.
Qed.

Lemma legacy_fireTimer_eq (h : nat) (w : World) :
  fireTimer h w
  = if existsb (fun t => Nat.eqb (handle t) h) (timers w)
    then playbackStep (set_timers (filter (fun t => handle t <> h) (timers w)) w)
    else (Normal tt, w).
Proof.
  unfold fireTimer, bind at 1, get at 1. destruct (existsb _ _); reflexivity.
Qed.

(** The worlds the running script goes through: clicks on the play button,
    changes of the tempo control (its text, then the [change] event), and
    timers that fire. *)
Inductive legacyDriven : World -> Prop :=
| legacyDriven_initial w :
    isPlaying w = false -> timers w = [] -> legacyRowsPresent w -> legacyDriven w
| legacyDriven_click w : legacyDriven w -> legacyDriven (exec playButtonClick w)
| legacyDriven_tempo w value :
    legacyDriven w -> legacyDriven (exec tempoChanged (set_tempoInput value w))
| legacyDriven_fire w h : legacyDriven w -> legacyDriven (exec (fireTimer h) w).

Lemma legacyOneChain_stopped (w : World) :
  legacyOneChain w -> isPlaying w = false -> timers w = [].
Proof. intros [H|(h & ms & _ & _ & Hplay)] Hstop; [exact H|congruence]. Qed.

Lemma legacy_filter_chain (w : World) (h : nat) :
  legacyOneChain w ->
  (timerId w = Some h \/ existsb (fun t => Nat.eqb (handle t) h) (timers w) = true) ->
  filter (fun t => handle t <> h) (timers w) = [].
Proof.
  intros [Hnone|(h' & ms & Hone & Hid & _)] Hh.
  - rewrite Hnone. reflexivity.
  - rewrite Hone. assert (h' = h) as ->.
    { destruct Hh as [Hh|Hh]; [congruence|].
      rewrite Hone in Hh. cbn [existsb handle] in Hh.
      rewrite orb_false_r in Hh. apply Nat.eqb_eq, Hh. }
    apply filter_single_timer.
Qed.

Lemma legacyDriven_inv (w : World) :
  legacyDriven w -> legacyRowsPresent w /\ legacyOneChain w.
Proof.
  induction 1 as [w Hstop Hnone Hrows|w _ [Hrows Hchain]
                 |w value _ [Hrows Hchain]|w h _ [Hrows Hchain]].
  - split; [exact Hrows|left; exact Hnone].
  - unfold exec, playButtonClick, bind, get.
    destruct (isPlaying w) eqn:Hplay.
    + rewrite legacy_stopPlayback_eq, Hplay. cbn [snd].
      split.
      * unfold legacyRowsPresent. cbn [gridState ROWS set_controlsDisabled].
        destruct (legacyClearedColumns_grid (upTo (COLS w)) (legacyStopping w))
          as (-> & -> & _). exact Hrows.
      * left. cbn [timers set_controlsDisabled].
        rewrite legacyClearedColumns_timers. cbn [timers legacyStopping set_timers].
        destruct (timerId w) as [i|] eqn:Hid.
        -- apply (legacy_filter_chain w i Hchain). left. exact Hid.
        -- destruct Hchain as [Hn|(h & ms & _ & Hid' & _)]; [exact Hn|congruence].
    + rewrite legacy_startPlayback_eq, Hplay.
      assert (Hrows' : legacyRowsPresent (legacyStarted w)) by exact Hrows.
      split.
      * unfold legacyRowsPresent.
        destruct (audioContext (legacyStarted w)) as [ctx|] eqn:Hctx; [|discriminate Hctx].
        rewrite (legacy_playbackStep_playing (legacyStarted w) ctx)
          by (try reflexivity; assumption).
        exact Hrows.
      * apply (legacyOneChain_playbackStep (legacyStarted w) Hrows').
        apply (legacyOneChain_stopped w Hchain Hplay).
  - set (w1 := set_tempoInput value w).
    assert (Hrows1 : legacyRowsPresent w1) by exact Hrows.
    assert (Hchain1 : legacyOneChain w1) by exact Hchain.
    unfold exec. rewrite legacy_tempoChanged_eq.
    destruct (isPlaying w1) eqn:Hplay; [|split; assumption].
    set (w2 := set_timers _ w1).
    assert (Hnone : timers w2 = []).
    { unfold w2. cbn [timers set_timers].
      destruct (timerId w1) as [i|] eqn:Hid.
      - apply (legacy_filter_chain w1 i Hchain1). left. exact Hid.
      - destruct Hchain1 as [Hn|(h & ms & _ & Hid' & _)]; [exact Hn|congruence]. }
    assert (Hrows2 : legacyRowsPresent w2) by exact Hrows.
    split; [|apply (legacyOneChain_playbackStep w2 Hrows2 Hnone)].
    destruct (audioContext w2) as [ctx|] eqn:Hctx.
    + rewrite (legacy_playbackStep_playing w2 ctx) by assumption. exact Hrows.
    + rewrite legacy_playbackStep_idle by (right; exact Hctx). exact Hrows2.
  - unfold exec. rewrite legacy_fireTimer_eq.
    destruct (existsb _ (timers w)) eqn:Hpending; [|split; assumption].
    set (w2 := set_timers _ w).
    assert (Hnone : timers w2 = []).
    { unfold w2. cbn [timers set_timers].
      apply (legacy_filter_chain w h Hchain). right. exact Hpending. }
    assert (Hrows2 : legacyRowsPresent w2) by exact Hrows.
    split; [|apply (legacyOneChain_playbackStep w2 Hrows2 Hnone)].
    destruct (isPlaying w2) eqn:Hplay.
    2:{ rewrite legacy_playbackStep_idle by (left; exact Hplay). exact Hrows2. }
    destruct (audioContext w2) as [ctx|] eqn:Hctx.
    + rewrite (legacy_playbackStep_playing w2 ctx) by assumption. exact Hrows.
    + rewrite legacy_playbackStep_idle by (right; exact Hctx). exact Hrows2.
Qed.

(** The script just loaded: eight rows by sixteen columns, stopped. *)
Definition legacyDemoStopped : World :=
  mkWorld 8 16 (repeat (repeat false 16) 8)
    (renderedGrid (repeat (repeat false 16) 8)) (renderedRuler 16)
    "120" "sine" "Play" false None false 0 None
    running 0%float [] 1%nat [].

Lemma legacyDemo_driven :
  legacyDriven
    (exec tempoChanged (set_tempoInput "200" (exec playButtonClick legacyDemoStopped))).
Proof.
  apply legacyDriven_tempo, legacyDriven_click, legacyDriven_initial;
    [reflexivity|reflexivity|].
  repeat constructor; vm_compute; discriminate.
Qed.

(** In the script too at most one [playbackStep] timer is ever pending,
    and none while the session is stopped, however the user clicks the play
    button and edits the tempo and whichever timers fire: the tempo listener
    cancels the pending timer before it runs a step, so it never starts a
    second chain. *)
Theorem legacy_single_timer_chain (w : World) :
  legacyDriven w ->
  (length (timers w) <= 1)%nat
  /\ (isPlaying w = false -> timers w = [])
  /\ (forall t, In t (timers w) -> timerId w = Some (handle t)).
Proof.
  intros Hdriven. destruct (legacyDriven_inv w Hdriven) as [_ Hchain].
  split; [|split].
  - destruct Hchain as [->|(h & ms & -> & _ & _)]; simpl; lia.
  - apply legacyOneChain_stopped, Hchain.
  - intros t Hin. destruct Hchain as [Hnone|(h & ms & Hone & Hid & _)].
    + rewrite Hnone in Hin. destruct Hin.
    + rewrite Hone in Hin. destruct Hin as [<-|[]]. exact Hid.
Qed.

Lemma legacy_single_timer_chain_witness :
  legacyDriven
    (exec tempoChanged (set_tempoInput "200" (exec playButtonClick legacyDemoStopped)))
  /\ (length (timers (exec tempoChanged
                        (set_tempoInput "200" (exec playButtonClick legacyDemoStopped))))
      <= 1)%nat.
Proof.
  split; [exact legacyDemo_driven|].
  apply (legacy_single_timer_chain _ legacyDemo_driven).
Defined.

End LegacyMore.

(** ** js/grid.js *)

(** The cells of the rows from [row] on, as the loop of [renderGrid] builds
    them; a row whose length is not [cols] throws. *)
Fixpoint renderRows (cols : Z) (row : Z) (gridState : list (list bool))
  : Completion (list Element) :=
  match gridState with
  | [] => Normal []
  | cells :: rest =>
      if negb (Z.of_nat (length cells) =? cols)
      then Throw (Error ("Grid state row " ++ showZ row ++ " is invalid")%string)
      else
        match renderRows cols (row + 1) rest with
        | Normal more =>
            Normal (map (fun isActive => mkElement isActive false) cells ++ more)
        | Throw e => Throw e
        end
  end.

(** [typeof noteName !== "string" || !noteName.trim()] *)
Definition isBlankNoteName (noteName : JsValue) : bool :=
  match noteName with
  | JsString s => String.eqb (trimStart s) ""
  | _ => true
  end.

(** [renderGrid(container, notes, cols, gridState)], for a [notes] that is
    an array, a [cols] that is an integer and a [gridState] that is an
    array of arrays of booleans; [containerValid] says whether [container]
    is an element. It returns the children of [gridInner] and of [ruler];
    the layout is appended to the container by its last statement, after
    everything that can throw. *)
Definition renderGrid (containerValid : bool) (notes : list JsValue) (cols : Z)
    (gridState : list (list bool)) : M World (list Element * list Element) :=
  tryCatch
    (if negb containerValid
     then throw (Error "Container must be a valid DOM element")
     else if (length notes =? 0)%nat
     then throw (Error "Notes must be a non-empty array")
     else if (cols <? GRID_LIMITS.MIN_COLUMNS) || (cols >? GRID_LIMITS.MAX_COLUMNS)
     then throw (Error ("Columns must be an integer between "
                        ++ showZ GRID_LIMITS.MIN_COLUMNS ++ " and "
                        ++ showZ GRID_LIMITS.MAX_COLUMNS)%string)
     else if negb (length gridState =? length notes)%nat
     then throw (Error "Grid state must be a 2D array matching notes length")
     else
       forEach notes (fun noteName =>
         if isBlankNoteName noteName
         then consoleWarn ("Invalid note name: " ++ toString noteName)%string
         else ret tt) ;;
       let ruler := map (fun _ => mkElement false false) (upTo cols) in
       gridInner <- liftC (renderRows cols 0 gridState) ;;
       ret (gridInner, ruler))
    (fun error =>
       consoleError "Failed to render grid:" error ;;
       showNotification "Failed to render grid" "error" ;;
       throw error).

Example renderGrid_demo :
  completion (renderGrid true (notes demoWorld) 4 demoGridState) demoWorld
  = Normal (gridInner demoWorld, ruler demoWorld).
Proof. reflexivity. Qed.

Lemma renderRows_ok (cols row : Z) (gridState : list (list bool)) :
  Forall (fun cells => Z.of_nat (length cells) = cols) gridState ->
  renderRows cols row gridState = Normal (renderedGrid gridState).
Proof.
  intros Hall. revert row; induction Hall as [|cells rest Hcells _ IH]; intros row.
  - reflexivity.
  - cbn [renderRows]. rewrite (proj2 (Z.eqb_eq _ _) Hcells). cbn [negb].
    rewrite IH. reflexivity.
Qed.

Lemma renderRows_throws (cols row : Z) (gridState : list (list bool)) :
  ~ Forall (fun cells => Z.of_nat (length cells) = cols) gridState ->
  exists e, renderRows cols row gridState = Throw e.
Proof.
  revert row; induction gridState as [|cells rest IH]; intros row Hbad.
  - exfalso. apply Hbad. constructor.
  - cbn [renderRows]. destruct (Z.of_nat (length cells) =? cols) eqn:Hlen; cbn [negb].
    + apply Z.eqb_eq in Hlen.
      destruct (IH (row + 1)) as [e He].
      { intros Hrest. apply Hbad. constructor; assumption. }
      rewrite He. eauto.
    + eauto.
Qed.

Lemma warnings_only (names : list JsValue) (w : World) :
  exists warnings,
    forEach names (fun noteName =>
      if isBlankNoteName noteName
      then consoleWarn ("Invalid note name: " ++ toString noteName)%string
      else ret tt) w
    = (Normal tt, set_log (log w ++ warnings) w)
    /\ Forall (fun ev => exists m, ev = ConsoleWarn m) warnings.
Proof.
  set (warn := fun noteName : JsValue => _).
  revert w; induction names as [|name names IH]; intros w.
  - exists []. split; [|constructor]. simpl. rewrite app_nil_r. reflexivity.
  - cbn [forEach]. unfold bind at 1. unfold warn at 1.
    destruct (isBlankNoteName name).
    + unfold consoleWarn, emit, modify.
      destruct (IH (set_log (log w ++ [ConsoleWarn ("Invalid note name: " ++ toString name)%string]) w))
        as (warnings & Heq & Hall).
      exists (ConsoleWarn ("Invalid note name: " ++ toString name)%string :: warnings).
      split; [|constructor; eauto].
      rewrite Heq. cbn [log set_log]. rewrite <- app_assoc. reflexivity.
    + unfold ret at 1. destruct (IH w) as (warnings & Heq & Hall).
      exists warnings. split; assumption.
Qed.

(** [renderGrid] succeeds exactly when the container is an element, there
    is at least one note, the columns are from 4 to 32, and the grid state
    has one row per note, each of [cols] cells. Then it returns one cell per
    grid cell, row by row, [active] where the state is [true] and none
    highlighted, and a ruler of [cols] cells; it writes at most warnings to
    the console. Otherwise it throws, after a console error and a
    notification, and returns nothing to put in [appState.gridRefs]. *)
Theorem renderGrid_all_or_nothing (containerValid : bool) (notes : list JsValue)
    (cols : Z) (gridState : list (list bool)) (w : World) :
  let accepted :=
    containerValid = true
    /\ notes <> []
    /\ GRID_LIMITS.MIN_COLUMNS <= cols <= GRID_LIMITS.MAX_COLUMNS
    /\ length gridState = length notes
    /\ Forall (fun cells => Z.of_nat (length cells) = cols) gridState in
  (accepted ->
   completion (renderGrid containerValid notes cols gridState) w
   = Normal (renderedGrid gridState, renderedRuler cols)
   /\ Z.of_nat (length (renderedGrid gridState)) = Z.of_nat (length notes) * cols
   /\ Z.of_nat (length (renderedRuler cols)) = cols
   /\ exists warnings,
       log (exec (renderGrid containerValid notes cols gridState) w) = log w ++ warnings
       /\ Forall (fun ev => exists m, ev = ConsoleWarn m) warnings)
  /\ (~ accepted ->
      exists e warnings,
        completion (renderGrid containerValid notes cols gridState) w = Throw e
        /\ log (exec (renderGrid containerValid notes cols gridState) w)
           = log w ++ warnings
                   ++ [ConsoleError "Failed to render grid:" e;
                       ShowNotification "Failed to render grid" "error"]).
Proof.
  intros accepted. unfold accepted. clear accepted.
  assert (Hfail : forall e (w0 : World),
    (consoleError "Failed to render grid:" e ;;
     showNotification "Failed to render grid" "error" ;;
     @throw World (list Element * list Element) e) w0
    = (Throw e,
       set_log (log w0 ++ [ConsoleError "Failed to render grid:" e;
                           ShowNotification "Failed to render grid" "error"]) w0)).
  { intros e w0. unfold_monad. cbn [log set_log]. rewrite app_assoc2. reflexivity. }
  split.
  - intros (Hcontainer & Hnotes & Hcols & Hlen & Hrows).
    assert (Hrun : exists warnings,
      renderGrid containerValid notes cols gridState w
      = (Normal (renderedGrid gridState, renderedRuler cols),
         set_log (log w ++ warnings) w)
      /\ Forall (fun ev => exists m, ev = ConsoleWarn m) warnings).
    { destruct (warnings_only notes w) as (warnings & Hwarn & Hall).
      exists warnings. split; [|exact Hall].
      unfold renderGrid, tryCatch. rewrite Hcontainer. cbn [negb].
      destruct notes as [|n ns]; [congruence|]. cbn [length Nat.eqb].
      rewrite (proj2 (orb_false_iff _ _)) by (split; lia).
      rewrite Hlen, Nat.eqb_refl. cbn [negb].
      unfold bind at 1. rewrite Hwarn.
      unfold bind, liftC. rewrite (renderRows_ok cols 0 gridState Hrows).
      reflexivity. }
    destruct Hrun as (warnings & Hrun & Hall).
    unfold completion, exec. rewrite Hrun. cbn [fst snd].
    split; [reflexivity|]. split; [|split].
    + rewrite <- Hlen. apply length_renderedGrid, Hrows.
    + unfold renderedRuler. rewrite length_map. apply length_upTo.
      unfold GRID_LIMITS.MIN_COLUMNS in Hcols. lia.
    + exists warnings. split; [reflexivity|exact Hall].
  - intros Hbad.
    assert (Hrun : exists e warnings,
      renderGrid containerValid notes cols gridState w
      = (Throw e,
         set_log (log w ++ warnings
                        ++ [ConsoleError "Failed to render grid:" e;
                            ShowNotification "Failed to render grid" "error"]) w)).
    { unfold renderGrid, tryCatch.
      destruct containerValid; cbn [negb].
      2:{ unfold throw at 1. cbv beta iota. rewrite Hfail.
          eexists. exists []. reflexivity. }
      destruct notes as [|n ns].
      { cbn [length Nat.eqb]. unfold throw at 1. cbv beta iota. rewrite Hfail.
        eexists. exists []. reflexivity. }
      cbn [length Nat.eqb].
      destruct ((cols <? GRID_LIMITS.MIN_COLUMNS) || (cols >? GRID_LIMITS.MAX_COLUMNS)) eqn:Hcols.
      { unfold throw at 1. cbv beta iota. rewrite Hfail.
        eexists. exists []. reflexivity. }
      destruct (length gridState =? S (length ns))%nat eqn:Hlen; cbn [negb].
      2:{ unfold throw at 1. cbv beta iota. rewrite Hfail.
          eexists. exists []. reflexivity. }
      apply orb_false_iff in Hcols as [Hlo Hhi]. apply Nat.eqb_eq in Hlen.
      destruct (renderRows_throws cols 0 gridState) as [e He].
      { intros Hrows. apply Hbad. repeat split; try lia; try assumption. discriminate. }
      destruct (warnings_only (n :: ns) w) as (warnings & Hwarn & _).
      unfold bind at 1. rewrite Hwarn. cbv beta iota.
      unfold bind at 1. unfold liftC. rewrite He. cbv beta iota.
      rewrite Hfail. cbn [log set_log].
      exists e, warnings. rewrite <- app_assoc. reflexivity. }
    destruct Hrun as (e & warnings & Hrun).
    exists e, warnings. unfold completion, exec. rewrite Hrun.
    split; reflexivity.
Qed.

Lemma renderGrid_all_or_nothing_witness :
  (true = true
   /\ notes demoWorld <> []
   /\ GRID_LIMITS.MIN_COLUMNS <= 4 <= GRID_LIMITS.MAX_COLUMNS
   /\ length demoGridState = length (notes demoWorld)
   /\ Forall (fun cells => Z.of_nat (length cells) = 4) demoGridState)
  /\ completion (renderGrid true (notes demoWorld) 4 demoGridState) demoWorld
     = Normal (renderedGrid demoGridState, renderedRuler 4).
Proof.
  assert (Hok : true = true
                /\ notes demoWorld <> []
                /\ GRID_LIMITS.MIN_COLUMNS <= 4 <= GRID_LIMITS.MAX_COLUMNS
                /\ length demoGridState = length (notes demoWorld)
                /\ Forall (fun cells => Z.of_nat (length cells) = 4) demoGridState).
  { split; [reflexivity|]. split; [discriminate|].
    split; [split; discriminate|]. split; [reflexivity|].
    repeat constructor. }
  split; [exact Hok|].
  destruct (renderGrid_all_or_nothing true (notes demoWorld) 4 demoGridState demoWorld)
    as [Haccept _].
  apply (Haccept Hok).
Defined.

(** ** js/utilities.js: [clamp] *)

(** [clamp(value, min, max)], for three numbers. *)
Definition clamp (value min max : float) : float :=
  Math_min (Math_max value min) max.

Example clamp_150 : clamp 150 60 240 = 150%float /\ clamp 300 60 240 = 240%float
                    /\ clamp 10 60 240 = 60%float.
Proof. vm_compute. repeat split; reflexivity. Qed.

(** [Math.max] of two numbers is one of them and at least both. *)
Lemma Math_max_spec (a b : float) :
  PrimFloat.is_nan a = false -> PrimFloat.is_nan b = false ->
  (Math_max a b = a \/ Math_max a b = b)
  /\ PrimFloat.leb a (Math_max a b) = true
  /\ PrimFloat.leb b (Math_max a b) = true.
Proof.
  intros Ha Hb. unfold Math_max. rewrite Ha, Hb. cbn [orb].
  destruct (PrimFloat.ltb a b) eqn:Hab.
  { split; [auto|]. split; [apply float_ltb_leb, Hab|apply float_leb_refl, Hb]. }
  destruct (PrimFloat.ltb b a) eqn:Hba.
  { split; [auto|]. split; [apply float_leb_refl, Ha|apply float_ltb_leb, Hba]. }
  destruct (PrimFloat.get_sign a).
  - split; [auto|]. split; [apply float_not_ltb_leb; assumption|apply float_leb_refl, Hb].
  - split; [auto|]. split; [apply float_leb_refl, Ha|apply float_not_ltb_leb; assumption].
Qed.

(** [Math.min] of two numbers is one of them and at most both. *)
Lemma Math_min_spec (a b : float) :
  PrimFloat.is_nan a = false -> PrimFloat.is_nan b = false ->
  (Math_min a b = a \/ Math_min a b = b)
  /\ PrimFloat.leb (Math_min a b) a = true
  /\ PrimFloat.leb (Math_min a b) b = true.
Proof.
  intros Ha Hb. unfold Math_min. rewrite Ha, Hb. cbn [orb].
  destruct (PrimFloat.ltb a b) eqn:Hab.
  { split; [auto|]. split; [apply float_leb_refl, Ha|apply float_ltb_leb, Hab]. }
  destruct (PrimFloat.ltb b a) eqn:Hba.
  { split; [auto|]. split; [apply float_ltb_leb, Hba|apply float_leb_refl, Hb]. }
  destruct (PrimFloat.get_sign a).
  - split; [auto|]. split; [apply float_leb_refl, Ha|apply float_not_ltb_leb; assumption].
  - split; [auto|]. split; [apply float_not_ltb_leb; assumption|apply float_leb_refl, Hb].
Qed.

(** For bounds that are numbers, [clamp] of [NaN] is [NaN]; of a number it
    is never above [max], it is at least [min] when [min <= max], and it is
    the value (or the zero equal to it) when the value lies between the
    bounds. With [min > max] the result is [max], whatever the value. *)
Theorem clamp_within_bounds (value lo hi : float) :
  PrimFloat.is_nan lo = false -> PrimFloat.is_nan hi = false ->
  (PrimFloat.is_nan value = true -> PrimFloat.is_nan (clamp value lo hi) = true)
  /\ (PrimFloat.is_nan value = false ->
      PrimFloat.is_nan (clamp value lo hi) = false
      /\ PrimFloat.leb (clamp value lo hi) hi = true
      /\ (PrimFloat.leb lo hi = true -> PrimFloat.leb lo (clamp value lo hi) = true)
      /\ (PrimFloat.leb lo value = true -> PrimFloat.leb value hi = true ->
          PrimFloat.eqb (clamp value lo hi) value = true)
      /\ (PrimFloat.ltb hi lo = true -> clamp value lo hi = hi)).
Proof.
  intros Hlo Hhi. split.
  - intros Hnan. unfold clamp, Math_max. rewrite Hnan. cbn [orb].
    unfold Math_min. change (PrimFloat.is_nan PrimFloat.nan) with true. reflexivity.
  - intros Hnan. unfold clamp.
    destruct (Math_max_spec value lo Hnan Hlo) as (Hm & Hvm & Hlm).
    assert (Hmnan : PrimFloat.is_nan (Math_max value lo) = false)
      by (destruct Hm as [-> | ->]; assumption).
    destruct (Math_min_spec (Math_max value lo) hi Hmnan Hhi) as (Hr & Hrm & Hrh).
    split; [destruct Hr as [-> | ->]; assumption|].
    split; [exact Hrh|]. split; [|split].
    + intros Hle. destruct Hr as [-> | ->]; assumption.
    + intros Hlv Hvh.
      assert (Hmv : PrimFloat.eqb (Math_max value lo) value = true).
      { apply float_leb_both_eqb; [|exact Hvm].
        destruct Hm as [-> | ->]; [apply float_leb_refl, Hnan|exact Hlv]. }
      apply float_leb_both_eqb.
      * apply (float_leb_eqb_right _ _ _ Hmv). exact Hrm.
      * destruct Hr as [-> | ->]; [exact Hvm|exact Hvh].
    + intros Hlt. destruct Hr as [Hr | Hr]; [|exact Hr].
      rewrite Hr in Hrh.
      rewrite (float_ltb_not_leb hi _ (float_ltb_leb_trans hi lo _ Hlt Hlm)) in Hrh.
      discriminate Hrh.
Qed.

Lemma clamp_within_bounds_witness :
  PrimFloat.is_nan 60 = false /\ PrimFloat.is_nan 240 = false
  /\ PrimFloat.leb 60 (clamp 300 60 240) = true
  /\ PrimFloat.leb (clamp 300 60 240) 240 = true.
Proof.
  split; [reflexivity|]. split; [reflexivity|].
  destruct (clamp_within_bounds 300 60 240 eq_refl eq_refl) as (_ & Hin).
  destruct (Hin eq_refl) as (_ & Hhi & Hlo & _).
  split; [exact (Hlo eq_refl)|exact Hhi].
Defined.
